(** * ArchiCore native engine: chunker tokenizer, boundary detector,
      xxHash64 hasher, Merkle tree, file index and scan differ.

    Shallow embedding of the C++ sources under [src/native] and the
    properties of the specification that are checked against them.

    Conventions of the embedding:
    - [std::string] used as text or as a byte buffer is [list ascii];
      path and name keys are [string];
    - [uint32_t] / [uint64_t] values are [Z] with the wrap-around written
      out ([u32], [u64]); sizes and offsets into a buffer are [nat];
    - a cursor [p] / index [i] into a buffer is the unread suffix of the
      buffer, the index being [length buffer - length suffix];
    - [memcpy] between bytes and integers is little-endian, as on the
      platforms the engine is built for;
    - loops that the recursion checker cannot see terminate take a [fuel]
      argument and report [OutOfFuel]; for the tokenizer, the hasher and
      the tree reader the facts section shows that the fuel handed in by
      the public entry points always suffices, and the boundary detector
      is evaluated on concrete sources only. *)

From Stdlib Require Import ZArith Lia List Ascii String Permutation.
From Stdlib Require OrderedTypeEx.
From stdpp Require Import gmap strings list fin_maps.
Open Scope Z_scope.

#[local] Set Warnings "-register-all".

(** ** Machine integers and bytes *)

Definition u64 (x : Z) : Z := x mod 2 ^ 64.
Definition u32 (x : Z) : Z := x mod 2 ^ 32.

Definition byte_val (c : ascii) : Z := Z.of_N (N_of_ascii c).
Definition byte_of (x : Z) : ascii := ascii_of_N (Z.to_N (x mod 256)).
Definition zero_byte : ascii := byte_of 0.

(** A C string literal as a byte buffer. *)
Definition str (s : string) : list ascii := list_ascii_of_string s.

(** [memcpy(&val, p, n)] on a little-endian machine, and its inverse. *)
Fixpoint read_le (n : nat) (p : list ascii) : Z :=
  match n, p with
  | S n', c :: p' => byte_val c + 256 * read_le n' p'
  | _, _ => 0
  end.

Fixpoint write_le (n : nat) (x : Z) : list ascii :=
  match n with
  | O => []
  | S n' => byte_of x :: write_le n' (x / 256)
  end.

(** Result of a fuelled loop. [Failed] is a failure of the program itself
    (a [nullptr] / [false] result); [OutOfFuel] is an artefact of the
    embedding. *)
Inductive outcome (A : Type) : Type :=
  | Done (a : A)
  | Failed
  | OutOfFuel.
Arguments Done {A} a.
Arguments Failed {A}.
Arguments OutOfFuel {A}.

(** ** hasher.cpp: xxHash64 *)

Module XXHash64.

Definition PRIME64_1 : Z := 0x9E3779B185EBCA87.
Definition PRIME64_2 : Z := 0xC2B2AE3D27D4EB4F.
Definition PRIME64_3 : Z := 0x165667B19E3779F9.
Definition PRIME64_4 : Z := 0x85EBCA77C2B2AE63.
Definition PRIME64_5 : Z := 0x27D4EB2F165667C5.

Definition rotl64 (x r : Z) : Z :=
  Z.lor (u64 (Z.shiftl x r)) (Z.shiftr x (64 - r)).

Definition read64 (p : list ascii) : Z := read_le 8 p.
Definition read32 (p : list ascii) : Z := read_le 4 p.

Definition round (acc input : Z) : Z :=
  let acc := u64 (acc + u64 (input * PRIME64_2)) in
  let acc := rotl64 acc 31 in
  u64 (acc * PRIME64_1).

Definition merge_round (acc val : Z) : Z :=
  let val := round 0 val in
  let acc := Z.lxor acc val in
  u64 (u64 (acc * PRIME64_1) + PRIME64_4).

(** [do { four rounds } while (p <= limit)], with [limit = end - 32]. *)
Fixpoint stripes (fuel : nat) (p : list ascii) (v1 v2 v3 v4 : Z)
  : Z * Z * Z * Z * list ascii :=
  match fuel with
  | O => (v1, v2, v3, v4, p)
  | S fuel' =>
      let v1 := round v1 (read64 p) in let p := drop 8 p in
      let v2 := round v2 (read64 p) in let p := drop 8 p in
      let v3 := round v3 (read64 p) in let p := drop 8 p in
      let v4 := round v4 (read64 p) in let p := drop 8 p in
      if (32 <=? length p)%nat then stripes fuel' p v1 v2 v3 v4
      else (v1, v2, v3, v4, p)
  end.

(** [while (p + 8 <= end)] *)
Fixpoint tail8 (fuel : nat) (p : list ascii) (h64 : Z) : Z * list ascii :=
  match fuel with
  | O => (h64, p)
  | S fuel' =>
      if (8 <=? length p)%nat then
        let h64 := Z.lxor h64 (round 0 (read64 p)) in
        let h64 := u64 (u64 (rotl64 h64 27 * PRIME64_1) + PRIME64_4) in
        tail8 fuel' (drop 8 p) h64
      else (h64, p)
  end.

(** [while (p + 4 <= end)] *)
Fixpoint tail4 (fuel : nat) (p : list ascii) (h64 : Z) : Z * list ascii :=
  match fuel with
  | O => (h64, p)
  | S fuel' =>
      if (4 <=? length p)%nat then
        let h64 := Z.lxor h64 (u64 (read32 p * PRIME64_1)) in
        let h64 := u64 (u64 (rotl64 h64 23 * PRIME64_2) + PRIME64_3) in
        tail4 fuel' (drop 4 p) h64
      else (h64, p)
  end.

(** [while (p < end)] *)
Fixpoint tail1 (p : list ascii) (h64 : Z) : Z :=
  match p with
  | [] => h64
  | c :: p' =>
      let h64 := Z.lxor h64 (u64 (byte_val c * PRIME64_5)) in
      tail1 p' (u64 (rotl64 h64 11 * PRIME64_1))
  end.

Definition hash (data : list ascii) (seed : Z) : Z :=
  let len := length data in
  let '(h64, p) :=
    if (32 <=? len)%nat then
      let '(v1, v2, v3, v4, p) :=
        stripes len data
          (u64 (u64 (seed + PRIME64_1) + PRIME64_2))
          (u64 (seed + PRIME64_2))
          seed
          (u64 (seed - PRIME64_1)) in
      let h64 :=
        u64 (u64 (u64 (rotl64 v1 1 + rotl64 v2 7) + rotl64 v3 12)
             + rotl64 v4 18) in
      let h64 := merge_round h64 v1 in
      let h64 := merge_round h64 v2 in
      let h64 := merge_round h64 v3 in
      let h64 := merge_round h64 v4 in
      (h64, p)
    else (u64 (seed + PRIME64_5), data) in
  let h64 := u64 (h64 + Z.of_nat len) in
  let '(h64, p) := tail8 len p h64 in
  let '(h64, p) := tail4 len p h64 in
  let h64 := tail1 p h64 in
  let h64 := Z.lxor h64 (Z.shiftr h64 33) in
  let h64 := u64 (h64 * PRIME64_2) in
  let h64 := Z.lxor h64 (Z.shiftr h64 29) in
  let h64 := u64 (h64 * PRIME64_3) in
  Z.lxor h64 (Z.shiftr h64 32).

End XXHash64.

(** [XXHash64Stream]: the streaming hasher used for files that cannot be
    mapped. *)
Module XXHash64Stream.
Import XXHash64.

Record state : Type := {
  seed_ : Z;
  total_len_ : Z;
  v1_ : Z; v2_ : Z; v3_ : Z; v4_ : Z;
  mem_ : list ascii;          (* uint8_t mem_[32] *)
  mem_size_ : nat
}.

(** [memcpy(dst + off, src, length src)] into a fixed-size buffer. *)
Definition memcpy_at (dst : list ascii) (off : nat) (src : list ascii)
  : list ascii :=
  take off dst ++ src ++ drop (off + length src) dst.

Definition reset (s : state) : state :=
  {| seed_ := seed_ s;
     total_len_ := 0;
     v1_ := u64 (u64 (seed_ s + PRIME64_1) + PRIME64_2);
     v2_ := u64 (seed_ s + PRIME64_2);
     v3_ := seed_ s;
     v4_ := u64 (seed_ s - PRIME64_1);
     mem_ := mem_ s;
     mem_size_ := 0 |}.

(** The constructor; [uninit] is the indeterminate content of the 32-byte
    buffer, which no member initialises. *)
Definition make (uninit : list ascii) (seed : Z) : state :=
  reset {| seed_ := seed; total_len_ := 0; v1_ := 0; v2_ := 0; v3_ := 0;
           v4_ := 0; mem_ := uninit; mem_size_ := 0 |}.

(** The second and third part of [update]: whole 32-byte blocks of [p],
    then the remainder into the buffer. *)
Definition update_blocks (p : list ascii) (s : state) : state :=
  let '(v1, v2, v3, v4, p) :=
    if (32 <=? length p)%nat
    then stripes (length p) p (v1_ s) (v2_ s) (v3_ s) (v4_ s)
    else (v1_ s, v2_ s, v3_ s, v4_ s, p) in
  {| seed_ := seed_ s; total_len_ := total_len_ s;
     v1_ := v1; v2_ := v2; v3_ := v3; v4_ := v4;
     mem_ := if (0 <? length p)%nat then memcpy_at (mem_ s) 0 p else mem_ s;
     mem_size_ := if (0 <? length p)%nat then length p else mem_size_ s |}.

Definition update (data : list ascii) (s : state) : state :=
  let len := length data in
  let total := u64 (total_len_ s + Z.of_nat len) in
  if (0 <? mem_size_ s)%nat then
    let to_fill := (32 - mem_size_ s)%nat in
    if (len <? to_fill)%nat then
      {| seed_ := seed_ s; total_len_ := total;
         v1_ := v1_ s; v2_ := v2_ s; v3_ := v3_ s; v4_ := v4_ s;
         mem_ := memcpy_at (mem_ s) (mem_size_ s) data;
         mem_size_ := (mem_size_ s + len)%nat |}
    else
      let mem := memcpy_at (mem_ s) (mem_size_ s) (take to_fill data) in
      update_blocks (drop to_fill data)
        {| seed_ := seed_ s; total_len_ := total;
           v1_ := round (v1_ s) (read64 mem);
           v2_ := round (v2_ s) (read64 (drop 8 mem));
           v3_ := round (v3_ s) (read64 (drop 16 mem));
           v4_ := round (v4_ s) (read64 (drop 24 mem));
           mem_ := mem;
           mem_size_ := 0 |}
  else
    update_blocks data
      {| seed_ := seed_ s; total_len_ := total;
         v1_ := v1_ s; v2_ := v2_ s; v3_ := v3_ s; v4_ := v4_ s;
         mem_ := mem_ s; mem_size_ := mem_size_ s |}.

Definition finalize (s : state) : Z :=
  let h64 :=
    if 32 <=? total_len_ s then
      let h64 :=
        u64 (u64 (u64 (rotl64 (v1_ s) 1 + rotl64 (v2_ s) 7)
                  + rotl64 (v3_ s) 12)
             + rotl64 (v4_ s) 18) in
      let h64 := merge_round h64 (v1_ s) in
      let h64 := merge_round h64 (v2_ s) in
      let h64 := merge_round h64 (v3_ s) in
      merge_round h64 (v4_ s)
    else u64 (seed_ s + PRIME64_5) in
  let h64 := u64 (h64 + total_len_ s) in
  let p := take (mem_size_ s) (mem_ s) in
  let '(h64, p) := tail8 (mem_size_ s) p h64 in
  let '(h64, p) := tail4 (mem_size_ s) p h64 in
  let h64 := tail1 p h64 in
  let h64 := Z.lxor h64 (Z.shiftr h64 33) in
  let h64 := u64 (h64 * PRIME64_2) in
  let h64 := Z.lxor h64 (Z.shiftr h64 29) in
  let h64 := u64 (h64 * PRIME64_3) in
  Z.lxor h64 (Z.shiftr h64 32).

(** [update] called once for each chunk, in order. *)
Definition feed (chunks : list (list ascii)) (s : state) : state :=
  fold_left (fun s chunk => update chunk s) chunks s.

(** *** Vocabulary of the streaming properties *)

(** The four accumulators after one 32-byte block at the head of [p]. *)
Definition round4 (v : Z * Z * Z * Z) (p : list ascii) : Z * Z * Z * Z :=
  let '(v1, v2, v3, v4) := v in
  (round v1 (read64 p), round v2 (read64 (drop 8 p)),
   round v3 (read64 (drop 16 p)), round v4 (read64 (drop 24 p))).

(** ... and after the first [n] blocks of [p]. *)
Fixpoint consume (n : nat) (p : list ascii) (v : Z * Z * Z * Z)
  : Z * Z * Z * Z :=
  match n with
  | O => v
  | S n' => consume n' (drop 32 p) (round4 v p)
  end.

(** The accumulators of a fresh state. *)
Definition init (seed : Z) : Z * Z * Z * Z :=
  (u64 (u64 (seed + PRIME64_1) + PRIME64_2), u64 (seed + PRIME64_2), seed,
   u64 (seed - PRIME64_1)).

(** The state reached after the bytes [d]: every whole block of [d] has
    gone through the accumulators and the bytes after the last whole block
    wait in the buffer. *)
Definition absorbed (seed : Z) (d : list ascii) (s : state) : Prop :=
  seed_ s = seed /\
  total_len_ s = Z.of_nat (length d) /\
  (v1_ s, v2_ s, v3_ s, v4_ s) = consume (length d / 32) d (init seed) /\
  mem_size_ s = (length d mod 32)%nat /\
  take (mem_size_ s) (mem_ s) = drop (32 * (length d / 32)) d /\
  length (mem_ s) = 32%nat.

End XXHash64Stream.

Module FileHasher.

Definition hash_string (content : list ascii) : Z := XXHash64.hash content 0.

Definition BUFFER_SIZE : nat := 64 * 1024.

(** The [while (file) { file.read(buffer, BUFFER_SIZE); ... }] loop of
    [hash_file_impl] over the unread bytes of the file: a full buffer is
    passed on and the loop goes on; a short read passes on what was read
    (when there is any) and ends the loop. *)
Fixpoint read_loop (fuel : nat) (unread : list ascii)
    (hasher : XXHash64Stream.state) : outcome XXHash64Stream.state :=
  match fuel with
  | O => OutOfFuel
  | S fuel' =>
      if (BUFFER_SIZE <=? length unread)%nat then
        read_loop fuel' (drop BUFFER_SIZE unread)
          (XXHash64Stream.update (take BUFFER_SIZE unread) hasher)
      else
        Done (if (0 <? length unread)%nat
              then XXHash64Stream.update unread hasher
              else hasher)
  end.

(** [hash_file_impl]. [mapped] is the content when [MappedFile::open]
    succeeds, [stream] the content when the [std::ifstream] opens, and
    [uninit] the indeterminate buffer of the stream hasher. *)
Definition hash_file_impl (uninit : list ascii)
    (mapped stream : option (list ascii)) : outcome Z :=
  match mapped with
  | Some data =>
      if (length data =? 0)%nat then Done 0
      else Done (XXHash64.hash data 0)
  | None =>
      match stream with
      | None => Done 0
      | Some content =>
          match read_loop (S (length content)) content
                  (XXHash64Stream.make uninit 0) with
          | Done hasher => Done (XXHash64Stream.finalize hasher)
          | Failed => Failed
          | OutOfFuel => OutOfFuel
          end
      end
  end.

(** *** Vocabulary of the hasher properties *)

(** The input of the published self-test vectors of xxHash (the sanity
    check of the reference implementation): byte [i] is the top byte of a
    32-bit generator that starts at 2654435761 and is squared at each
    step. *)
Fixpoint sanity_bytes (n : nat) (byte_gen : Z) : list ascii :=
  match n with
  | O => []
  | S n' =>
      ascii_of_nat (Z.to_nat (Z.shiftr byte_gen 24))
      :: sanity_bytes n' (u32 (byte_gen * byte_gen))
  end.

Definition sanity_buffer (n : nat) : list ascii := sanity_bytes n 2654435761.

End FileHasher.

(** ** tokenizer.cpp: heuristic token counting *)

Module Tokenizer.

Inductive CharCategory : Set :=
  WHITESPACE | LETTER | DIGIT | PUNCTUATION | NEWLINE | OTHER.

(** [<cctype>] classification in the "C" locale. *)
Definition isspace (c : Z) : bool := (c =? 32) || ((9 <=? c) && (c <=? 13)).
Definition isalpha (c : Z) : bool :=
  ((65 <=? c) && (c <=? 90)) || ((97 <=? c) && (c <=? 122)).
Definition isdigit (c : Z) : bool := (48 <=? c) && (c <=? 57).
Definition ispunct (c : Z) : bool :=
  ((33 <=? c) && (c <=? 47)) || ((58 <=? c) && (c <=? 64)) ||
  ((91 <=? c) && (c <=? 96)) || ((123 <=? c) && (c <=? 126)).

Definition categorize (ch : ascii) : CharCategory :=
  let c := byte_val ch in
  if (c =? 10) || (c =? 13) then NEWLINE
  else if isspace c then WHITESPACE
  else if isalpha c || (c =? 95) || (128 <=? c) then LETTER
  else if isdigit c then DIGIT
  else if ispunct c then PUNCTUATION
  else OTHER.

Definition is_cat (k : CharCategory) (ch : ascii) : bool :=
  match categorize ch, k with
  | WHITESPACE, WHITESPACE | LETTER, LETTER | DIGIT, DIGIT
  | PUNCTUATION, PUNCTUATION | NEWLINE, NEWLINE | OTHER, OTHER => true
  | _, _ => false
  end.

(** Condition of the LETTER run: [c == LETTER || c == DIGIT]. *)
Definition is_word_char (ch : ascii) : bool :=
  is_cat LETTER ch || is_cat DIGIT ch.

Definition chr_in (ch : ascii) (set : string) : bool :=
  existsb (Ascii.eqb ch) (list_ascii_of_string set).

(** Condition of the DIGIT run. [estimate_tokens] and [encode_precise]
    also accept the hexadecimal letters ([hex = true]); [find_boundary]
    does not ([hex = false]). *)
Definition is_number_char (hex : bool) (ch : ascii) : bool :=
  let c := byte_val ch in
  isdigit c || chr_in ch ".eE+-xX" ||
  (hex && (((97 <=? c) && (c <=? 102)) || ((65 <=? c) && (c <=? 70)))).

(** The two-character operators tested after a punctuation byte:
    fifteen in [estimate_tokens], nine in [find_boundary]. *)
Definition estimate_ops : list string :=
  ["=="; "!="; "<="; ">="; "&&"; "||"; "=>"; "->"; "::"; "++"; "--";
   "+="; "-="; "*="; "/="]%string.
Definition boundary_ops : list string :=
  ["=="; "!="; "<="; ">="; "&&"; "||"; "=>"; "->"; "::"]%string.

Definition op_pair (c next : ascii) (ops : list string) : bool :=
  existsb (String.eqb (String c (String next EmptyString))) ops.

(** [while (i < len && p(text[i])) i++] *)
Fixpoint skip_while (p : ascii -> bool) (s : list ascii) : list ascii :=
  match s with
  | c :: r => if p c then skip_while p r else s
  | [] => []
  end.

(** [std::ceil(n / d.0)]: the quotient of a size by 4.0 or 3.0 is computed
    in double precision, which is exact below 2^53. *)
Definition ceil_div (n d : Z) : Z := (n + d - 1) / d.

Definition word_tokens (word_len : Z) : Z :=
  if word_len <=? 4 then 1
  else if word_len <=? 8 then 2
  else if word_len <=? 12 then 3
  else u32 (ceil_div word_len 4).

Definition number_tokens (num_len : Z) : Z := u32 (ceil_div num_len 3).

Definition run_len (s s' : list ascii) : Z :=
  Z.of_nat (length s) - Z.of_nat (length s').

(** One turn of the [switch (cat)] shared by the three scanning loops:
    the token credit of the run at the cursor and the cursor after it. *)
Definition scan_run (hex : bool) (ops : list string) (s : list ascii)
  : Z * list ascii :=
  match s with
  | [] => (0, [])
  | c :: r =>
      match categorize c with
      | WHITESPACE => (1, skip_while (is_cat WHITESPACE) s)
      | NEWLINE => (1, r)
      | LETTER =>
          let s' := skip_while is_word_char s in
          (word_tokens (run_len s s'), s')
      | DIGIT =>
          let s' := skip_while (is_number_char hex) s in
          (number_tokens (run_len s s'), s')
      | PUNCTUATION =>
          match r with
          | next :: r2 =>
              if op_pair c next ops then
                match r2 with
                | e :: r3 => if Ascii.eqb e "=" then (1, r3) else (1, r2)
                | [] => (1, r2)
                end
              else (1, r)
          | [] => (1, r)
          end
      | OTHER => (1, r)
      end
  end.

Fixpoint estimate_loop (fuel : nat) (s : list ascii) (token_count : Z) : Z :=
  match fuel, s with
  | S fuel', _ :: _ =>
      let '(credit, s') := scan_run true estimate_ops s in
      estimate_loop fuel' s' (u32 (token_count + credit))
  | _, _ => token_count
  end.

Definition estimate_tokens (text : list ascii) : Z :=
  estimate_loop (length text) text 0.

Fixpoint find_loop (fuel : nat) (len : nat) (s : list ascii)
    (token_count target_tokens : Z) (last_good_pos : nat) : nat :=
  match fuel, s with
  | S fuel', _ :: _ =>
      if token_count <? target_tokens then
        let last_good_pos := (len - length s)%nat in
        let '(credit, s') := scan_run false boundary_ops s in
        find_loop fuel' len s' (u32 (token_count + credit)) target_tokens
          last_good_pos
      else last_good_pos
  | _, _ => last_good_pos
  end.

Definition find_boundary (text : list ascii) (target_tokens : Z) : nat :=
  match text with
  | [] => 0%nat
  | _ :: _ =>
      if target_tokens =? 0 then 0%nat
      else find_loop (length text) (length text) text 0 target_tokens 0
  end.

Definition count_tokens (text : list ascii) : Z := estimate_tokens text.

Definition find_token_boundary (text : list ascii) (target_tokens : Z) : nat :=
  find_boundary text target_tokens.

(** [encode_precise]: the scan of [estimate_tokens] with eleven operators,
    pushing one running id per token. The sub-token counts are [size_t]. *)
Definition encode_ops : list string :=
  ["=="; "!="; "<="; ">="; "&&"; "||"; "=>"; "->"; "::"; "++"; "--"]%string.

Definition word_subtokens (word_len : Z) : Z :=
  if word_len <=? 4 then 1
  else if word_len <=? 8 then 2
  else if word_len <=? 12 then 3
  else u64 (ceil_div word_len 4).

Definition number_subtokens (num_len : Z) : Z := u64 (ceil_div num_len 3).

(** One turn of the [switch (cat)] of [encode_precise]: the number of ids
    pushed and the cursor after the run. *)
Definition encode_run (s : list ascii) : Z * list ascii :=
  match s with
  | [] => (0, [])
  | c :: r =>
      match categorize c with
      | WHITESPACE => (1, skip_while (is_cat WHITESPACE) s)
      | NEWLINE => (1, r)
      | LETTER =>
          let s' := skip_while is_word_char s in
          (word_subtokens (run_len s s'), s')
      | DIGIT =>
          let s' := skip_while (is_number_char true) s in
          (number_subtokens (run_len s s'), s')
      | PUNCTUATION =>
          match r with
          | next :: r2 =>
              if op_pair c next encode_ops then
                match r2 with
                | e :: r3 => if Ascii.eqb e "=" then (1, r3) else (1, r2)
                | [] => (1, r2)
                end
              else (1, r)
          | [] => (1, r)
          end
      | OTHER => (1, r)
      end
  end.

(** [for (j = 0; j < n; j++) tokens.push_back(token_id++)] *)
Fixpoint push_ids (n : nat) (tokens : list Z) (token_id : Z) : list Z * Z :=
  match n with
  | O => (tokens, token_id)
  | S n' => push_ids n' (tokens ++ [token_id]) (u32 (token_id + 1))
  end.

Fixpoint encode_loop (fuel : nat) (s : list ascii) (tokens : list Z)
    (token_id : Z) : list Z :=
  match fuel, s with
  | S fuel', _ :: _ =>
      let '(n, s') := encode_run s in
      let '(tokens, token_id) := push_ids (Z.to_nat n) tokens token_id in
      encode_loop fuel' s' tokens token_id
  | _, _ => tokens
  end.

Definition encode_precise (text : list ascii) : list Z :=
  encode_loop (length text) text [] 0.

Definition encode (text : list ascii) : list Z := encode_precise text.

(** *** Vocabulary of the tokenizer properties *)

(** Token credit of a complete scan, on unbounded integers. *)
Fixpoint credits (hex : bool) (ops : list string) (fuel : nat)
    (s : list ascii) : Z :=
  match fuel, s with
  | S fuel', _ :: _ =>
      let '(credit, s') := scan_run hex ops s in
      credit + credits hex ops fuel' s'
  | _, _ => 0
  end.

Definition tokens (hex : bool) (ops : list string) (s : list ascii) : Z :=
  credits hex ops (length s) s.

Definition ends_with_space (a : list ascii) : bool :=
  match last a with
  | Some c => isspace (byte_val c)
  | None => false
  end.

Definition starts_with_space (b : list ascii) : bool :=
  match b with
  | c :: _ => isspace (byte_val c)
  | [] => false
  end.

(** The split point of [a ++ b] falls at white space: [a] ends or [b]
    starts with a byte that [isspace] accepts. *)
Definition whitespace_split (a b : list ascii) : bool :=
  ends_with_space a || starts_with_space b.

(** The white-space run that ends [a] continues into [b]. *)
Definition run_continues (a b : list ascii) : bool :=
  match last a, b with
  | Some c, d :: _ => is_cat WHITESPACE c && is_cat WHITESPACE d
  | _, _ => false
  end.

(** The runs of a complete scan of [s], each with the offset at which it
    starts and its token credit. *)
Fixpoint runs_from (hex : bool) (ops : list string) (fuel len : nat)
    (s : list ascii) : list (nat * Z) :=
  match fuel, s with
  | S fuel', _ :: _ =>
      let '(credit, s') := scan_run hex ops s in
      ((len - length s)%nat, credit) :: runs_from hex ops fuel' len s'
  | _, _ => []
  end.

(** The runs [find_boundary] walks over. *)
Definition boundary_runs (text : list ascii) : list (nat * Z) :=
  runs_from false boundary_ops (length text) (length text) text.

Definition sum_credits (rs : list (nat * Z)) : Z :=
  fold_right (fun r acc => snd r + acc) 0 rs.

End Tokenizer.

(** ** merkle.cpp: Merkle tree over the directory structure *)

(** [std::map<std::string, V>]: association list kept in key order, keys
    compared as [std::string] compares them (byte-wise lexicographic). *)
Module OrdMap.
Section OrdMap.
Context {V : Type}.

Fixpoint find (k : string) (m : list (string * V)) : option V :=
  match m with
  | [] => None
  | (k', v) :: m' =>
      match String.compare k k' with
      | Eq => Some v
      | Lt => None
      | Gt => find k m'
      end
  end.

(** [m[k] = v] *)
Fixpoint insert (k : string) (v : V) (m : list (string * V))
  : list (string * V) :=
  match m with
  | [] => [(k, v)]
  | (k', v') :: m' =>
      match String.compare k k' with
      | Eq => (k, v) :: m'
      | Lt => (k, v) :: m
      | Gt => (k', v') :: insert k v m'
      end
  end.

Fixpoint erase (k : string) (m : list (string * V)) : list (string * V) :=
  match m with
  | [] => []
  | (k', v') :: m' =>
      match String.compare k k' with
      | Eq => m'
      | Lt => m
      | Gt => (k', v') :: erase k m'
      end
  end.

End OrdMap.
End OrdMap.

Module Merkle.

Definition PRIME : Z := 0x9E3779B185EBCA87.

Definition combine_hashes (h1 h2 : Z) : Z :=
  Z.lxor h1
    (u64 (u64 (u64 (h2 + PRIME) + u64 (Z.shiftl h1 6)) + Z.shiftr h1 2)).

Inductive MerkleNode : Type :=
  Node (name : string) (hash : Z) (is_file : bool)
       (children : list (string * MerkleNode)).

Definition name (n : MerkleNode) : string := let 'Node x _ _ _ := n in x.
Definition hash (n : MerkleNode) : Z := let 'Node _ x _ _ := n in x.
Definition is_file (n : MerkleNode) : bool := let 'Node _ _ x _ := n in x.
Definition children (n : MerkleNode) : list (string * MerkleNode) :=
  let 'Node _ _ _ x := n in x.

(** [MerkleTree::Impl] *)
Record MerkleTree : Type := { root : MerkleNode; dirty : bool }.

Definition empty_tree : MerkleTree :=
  {| root := Node EmptyString 0 false []; dirty := false |}.

Definition is_sep (c : ascii) : bool := Ascii.eqb c "/" || Ascii.eqb c "\".

Fixpoint split_loop (path : string) (component : string) : list string :=
  match path with
  | EmptyString => if String.eqb component EmptyString then [] else [component]
  | String c rest =>
      if is_sep c then
        if String.eqb component EmptyString then split_loop rest EmptyString
        else component :: split_loop rest EmptyString
      else split_loop rest (String.append component (String c EmptyString))
  end.

Definition split_path (path : string) : list string := split_loop path EmptyString.

(** [get_or_create_node]: the returned pointer is the node reached by
    [components]; the function here yields the tree in which that node
    exists. *)
Fixpoint create_path (components : list string) (is_file : bool)
    (current : MerkleNode) : MerkleNode :=
  match components with
  | [] => current
  | comp :: rest =>
      let is_last := match rest with [] => true | _ :: _ => false end in
      let '(Node n h f ch) := current in
      let ch' :=
        match OrdMap.find comp ch with
        | Some _ => ch
        | None => OrdMap.insert comp (Node comp 0 (is_last && is_file) []) ch
        end in
      match OrdMap.find comp ch' with
      | Some child =>
          Node n h f (OrdMap.insert comp (create_path rest is_file child) ch')
      | None => Node n h f ch'
      end
  end.

Definition get_or_create_node (path : string) (is_file : bool)
    (root : MerkleNode) : MerkleNode :=
  create_path (split_path path) is_file root.

(** Assignment through a node pointer: [f] applied to the node reached by
    [components]. *)
Fixpoint update_at (components : list string)
    (f : MerkleNode -> MerkleNode) (current : MerkleNode) : MerkleNode :=
  match components with
  | [] => f current
  | comp :: rest =>
      let '(Node n h fl ch) := current in
      match OrdMap.find comp ch with
      | Some child =>
          Node n h fl (OrdMap.insert comp (update_at rest f child) ch)
      | None => current
      end
  end.

Fixpoint find_at (components : list string) (current : MerkleNode)
  : option MerkleNode :=
  match components with
  | [] => Some current
  | comp :: rest =>
      match OrdMap.find comp (children current) with
      | Some child => find_at rest child
      | None => None
      end
  end.

Definition find_node (path : string) (root : MerkleNode)
  : option MerkleNode :=
  find_at (split_path path) root.

Fixpoint remove_at (components : list string) (parent : MerkleNode)
  : bool * MerkleNode :=
  match components with
  | [] => (false, parent)
  | comp :: rest =>
      let '(Node n h f ch) := parent in
      match rest with
      | [] =>
          (match OrdMap.find comp ch with Some _ => true | None => false end,
           Node n h f (OrdMap.erase comp ch))
      | _ :: _ =>
          match OrdMap.find comp ch with
          | None => (false, parent)
          | Some child =>
              let '(erased, child') := remove_at rest child in
              (erased, Node n h f (OrdMap.insert comp child' ch))
          end
      end
  end.

Definition remove_node (path : string) (root : MerkleNode)
  : bool * MerkleNode :=
  remove_at (split_path path) root.

(** [std::sort] of the (name, child) vector by name. *)
Fixpoint sort_insert {A : Type} (x : string * A) (l : list (string * A))
  : list (string * A) :=
  match l with
  | [] => [x]
  | y :: l' =>
      if String.ltb (fst x) (fst y) then x :: l else y :: sort_insert x l'
  end.

Definition sort_by_name {A : Type} (l : list (string * A))
  : list (string * A) :=
  fold_right sort_insert [] l.

(** Returns the hash and the node with the recomputed hashes stored
    ([node->hash = combined]). *)
Fixpoint compute_node_hash (node : MerkleNode) : Z * MerkleNode :=
  let '(Node n h f ch) := node in
  if f then (h, node)
  else
    let visited :=
      map (fun kc : string * MerkleNode =>
             (fst kc, compute_node_hash (snd kc))) ch in
    let combined :=
      fold_left (fun acc kr => combine_hashes acc (fst (snd kr)))
                (sort_by_name visited) 0 in
    (combined,
     Node n combined f (map (fun kr => (fst kr, snd (snd kr))) visited)).

Definition set_leaf (content_hash : Z) (node : MerkleNode) : MerkleNode :=
  let '(Node n _ _ ch) := node in Node n content_hash true ch.

Definition add_file (path : string) (content_hash : Z) (t : MerkleTree)
  : MerkleTree :=
  let r := get_or_create_node path true (root t) in
  {| root := update_at (split_path path) (set_leaf content_hash) r;
     dirty := true |}.

Definition remove_file (path : string) (t : MerkleTree) : MerkleTree :=
  {| root := snd (remove_node path (root t)); dirty := true |}.

Definition compute_hash (dir_path : string) (t : MerkleTree)
  : Z * MerkleTree :=
  match find_node dir_path (root t) with
  | None => (0, t)
  | Some node =>
      let '(h, node') := compute_node_hash node in
      (h, {| root := update_at (split_path dir_path) (fun _ => node') (root t);
             dirty := dirty t |})
  end.

(** [root_hash() const] recomputes through [const_cast] when dirty: the
    tree after the call is part of the result. *)
Definition root_hash (t : MerkleTree) : Z * MerkleTree :=
  if dirty t then
    let r := snd (compute_node_hash (root t)) in
    (hash r, {| root := r; dirty := false |})
  else (hash (root t), t).

Definition clear (t : MerkleTree) : MerkleTree := empty_tree.

Fixpoint serialize_node (node : MerkleNode) : list ascii :=
  let '(Node n h f ch) := node in
  write_le 4 (u32 (Z.of_nat (String.length n)))
  ++ list_ascii_of_string n
  ++ write_le 8 h
  ++ [if f then byte_of 1 else byte_of 0]
  ++ write_le 4 (u32 (Z.of_nat (length ch)))
  ++ flat_map (fun kc : string * MerkleNode => serialize_node (snd kc)) ch.

Definition MAGIC : Z := 0x4D524B4C.
Definition VERSION : Z := 1.

Definition serialize (t : MerkleTree) : list ascii :=
  write_le 4 MAGIC ++ write_le 4 VERSION ++ serialize_node (root t).

(** The [for (i = 0; i < child_count; i++)] loop of [deserialize_node];
    [rec] is the recursive call. *)
Fixpoint children_loop
    (rec : list ascii -> outcome (MerkleNode * list ascii))
    (child_count : Z) (k : nat) (i : Z) (data : list ascii)
    (ch : list (string * MerkleNode))
  : outcome (list (string * MerkleNode) * list ascii) :=
  if i <? child_count then
    match k with
    | O => OutOfFuel
    | S k' =>
        match rec data with
        | Done (child, data') =>
            children_loop rec child_count k' (i + 1) data'
              (OrdMap.insert (name child) child ch)
        | Failed => Failed
        | OutOfFuel => OutOfFuel
        end
    end
  else Done (ch, data).

Fixpoint deserialize_node (fuel : nat) (data : list ascii)
  : outcome (MerkleNode * list ascii) :=
  match fuel with
  | O => OutOfFuel
  | S fuel' =>
      if (length data <? 4)%nat then Failed else
      let name_len := Z.to_nat (read_le 4 data) in
      let data := drop 4 data in
      if (length data <? name_len)%nat then Failed else
      let name := string_of_list_ascii (take name_len data) in
      let data := drop name_len data in
      if (length data <? 8)%nat then Failed else
      let hash := read_le 8 data in
      let data := drop 8 data in
      match data with
      | [] => Failed
      | b :: data =>
          let is_file := negb (byte_val b =? 0) in
          if (length data <? 4)%nat then Failed else
          let child_count := read_le 4 data in
          let data := drop 4 data in
          match children_loop (deserialize_node fuel') child_count fuel' 0
                  data [] with
          | Done (ch, data') => Done (Node name hash is_file ch, data')
          | Failed => Failed
          | OutOfFuel => OutOfFuel
          end
      end
  end.

Definition deserialize (data : list ascii) (t : MerkleTree)
  : outcome (bool * MerkleTree) :=
  if (length data <? 8)%nat then Done (false, t) else
  if negb (read_le 4 data =? MAGIC) then Done (false, t) else
  if negb (read_le 4 (drop 4 data) =? VERSION) then Done (false, t) else
  match deserialize_node (S (length data)) (drop 8 data) with
  | Done (r, _) => Done (true, {| root := r; dirty := false |})
  | Failed => Done (false, t)
  | OutOfFuel => OutOfFuel
  end.

(** The depth of the tree below a node; [diff] takes it as the fuel of
    the simultaneous descent. *)
Fixpoint height (node : MerkleNode) : nat :=
  let '(Node _ _ _ ch) := node in
  S (fold_right Nat.max 0%nat
       (map (fun kc : string * MerkleNode => height (snd kc)) ch)).

(** [std::set<std::string> all_names]: the child names of both nodes, in
    order and without duplicates. *)
Definition child_names (node : option MerkleNode) (names : list (string * unit))
  : list (string * unit) :=
  match node with
  | Some n => fold_left (fun acc kc => OrdMap.insert (fst kc) tt acc)
                (children n) names
  | None => names
  end.

Definition all_names (node1 node2 : option MerkleNode) : list string :=
  map fst (child_names node2 (child_names node1 [])).

Definition child_of (node : option MerkleNode) (name : string)
  : option MerkleNode :=
  match node with
  | Some n => OrdMap.find name (children n)
  | None => None
  end.

(** The [for (name : all_names)] loop of [collect_diff]; [rec] is the
    recursive call. *)
Fixpoint diff_children
    (rec : option MerkleNode -> option MerkleNode -> string -> list string ->
           outcome (list string))
    (node1 node2 : option MerkleNode) (current_path : string)
    (names : list string) (changed_paths : list string)
  : outcome (list string) :=
  match names with
  | [] => Done changed_paths
  | name :: names' =>
      let child_path :=
        if String.eqb current_path EmptyString then name
        else String.append (String.append current_path "/") name in
      match rec (child_of node1 name) (child_of node2 name) child_path
              changed_paths with
      | Done changed_paths =>
          diff_children rec node1 node2 current_path names' changed_paths
      | Failed => Failed
      | OutOfFuel => OutOfFuel
      end
  end.

Fixpoint collect_diff (fuel : nat) (node1 node2 : option MerkleNode)
    (current_path : string) (changed_paths : list string)
  : outcome (list string) :=
  match node1, node2 with
  | None, None => Done changed_paths
  | _, _ =>
      match fuel with
      | O => OutOfFuel
      | S fuel' =>
          let differs :=
            match node1, node2 with
            | Some n1, Some n2 => negb (hash n1 =? hash n2)
            | _, _ => true
            end in
          let changed_paths :=
            if differs && negb (String.eqb current_path EmptyString)
            then changed_paths ++ [current_path] else changed_paths in
          diff_children (collect_diff fuel') node1 node2 current_path
            (all_names node1 node2) changed_paths
      end
  end.

(** [MerkleTree::diff]: the stored hashes are compared as they are. *)
Definition diff (t other : MerkleTree) : outcome (list string) :=
  collect_diff (Nat.max (height (root t)) (height (root other)))
    (Some (root t)) (Some (root other)) EmptyString [].

(** *** Vocabulary of the tree properties *)

(** Trees built by file operations. *)
Inductive tree_op : Type :=
  | AddFile (path : string) (content_hash : Z)
  | RemoveFile (path : string).

Definition apply_op (t : MerkleTree) (op : tree_op) : MerkleTree :=
  match op with
  | AddFile p h => add_file p h t
  | RemoveFile p => remove_file p t
  end.

Definition build (ops : list tree_op) : MerkleTree :=
  fold_left apply_op ops empty_tree.

(** Every directory on the way to the path exists and the path itself
    does not. *)
Definition fresh_in_existing_dir (components : list string)
    (node : MerkleNode) : Prop :=
  exists dirs leaf parent,
    components = dirs ++ [leaf] /\
    find_at dirs node = Some parent /\
    OrdMap.find leaf (children parent) = None.

(** The fields of the node fit the widths of the record format. *)
Fixpoint encodable (node : MerkleNode) : bool :=
  let '(Node n h f ch) := node in
  (Z.of_nat (String.length n) <? 2 ^ 32) && (0 <=? h) && (h <? 2 ^ 64)
  && (Z.of_nat (length ch) <? 2 ^ 32)
  && forallb (fun kc : string * MerkleNode => encodable (snd kc)) ch.



(** The fixed-size fields that start a node record, as [deserialize_node]
    reads them. *)
Definition parse_header (data : list ascii)
  : option (string * Z * bool * Z * list ascii) :=
  if (length data <? 4)%nat then None else
  let name_len := Z.to_nat (read_le 4 data) in
  let data := drop 4 data in
  if (length data <? name_len)%nat then None else
  let name := string_of_list_ascii (take name_len data) in
  let data := drop name_len data in
  if (length data <? 8)%nat then None else
  let hash := read_le 8 data in
  let data := drop 8 data in
  match data with
  | [] => None
  | b :: data =>
      let is_file := negb (byte_val b =? 0) in
      if (length data <? 4)%nat then None else
      Some (name, hash, is_file, read_le 4 data, drop 4 data)
  end.

(** A result of [deserialize_node] that is no artefact of the fuel and
    has consumed input. *)
Definition consumes (data : list ascii)
    (r : outcome (MerkleNode * list ascii)) : Prop :=
  match r with
  | Done (_, rest) => (length rest < length data)%nat
  | Failed => True
  | OutOfFuel => False
  end.

Definition reads_back (node : MerkleNode) : Prop :=
  forall fuel rest, (length (serialize_node node) <= fuel)%nat ->
  exists ch,
    deserialize_node fuel (serialize_node node ++ rest) =
    Done (Node (name node) (hash node) (is_file node) ch, rest).

(** A path component as [split_path] cuts them: not empty and without a
    separator. *)
Fixpoint sep_free (s : string) : bool :=
  match s with
  | EmptyString => true
  | String c r => negb (is_sep c) && sep_free r
  end.

Definition is_component (n : string) : bool :=
  negb (String.eqb n EmptyString) && sep_free n.

(** The path [collect_diff] has in hand for the node reached by [names]
    from the node it had [current_path] for. *)
Definition join_path_from (current_path : string) (names : list string)
  : string :=
  fold_left
    (fun current name =>
       if String.eqb current EmptyString then name
       else String.append (String.append current "/") name)
    names current_path.

Definition join_path (names : list string) : string :=
  join_path_from EmptyString names.

Definition find_opt (names : list string) (node : option MerkleNode)
  : option MerkleNode :=
  match node with
  | Some n => find_at names n
  | None => None
  end.

(** What [collect_diff] tests of two node pointers: one of them is null,
    or the stored hashes differ. *)
Definition differ (node1 node2 : option MerkleNode) : Prop :=
  match node1, node2 with
  | Some n1, Some n2 => hash n1 <> hash n2
  | None, None => False
  | _, _ => True
  end.

(** [add_file] for each file of a list in turn, as the scan does it. *)
Definition add_files (files : list (string * Z)) (t : MerkleTree)
  : MerkleTree :=
  fold_left (fun t f => add_file (fst f) (snd f) t) files t.

(** The keys of a children map ascend strictly. *)
Fixpoint sorted_keys {V : Type} (m : list (string * V)) : bool :=
  match m with
  | [] => true
  | (k, _) :: m' =>
      match m' with
      | [] => true
      | (k', _) :: _ => String.ltb k k' && sorted_keys m'
      end
  end.

(** Every children map is in key order without duplicate keys and holds
    each child under the child's own name. *)
Fixpoint well_formed (node : MerkleNode) : bool :=
  let '(Node _ _ _ ch) := node in
  sorted_keys ch
  && forallb (fun kc : string * MerkleNode =>
                String.eqb (fst kc) (name (snd kc)) && well_formed (snd kc))
       ch.

(** The trees a client can hold: what the public operations make of a new
    tree. *)
Inductive reachable : MerkleTree -> Prop :=
  | reach_new : reachable empty_tree
  | reach_add_file p h t : reachable t -> reachable (add_file p h t)
  | reach_remove_file p t : reachable t -> reachable (remove_file p t)
  | reach_compute_hash d t :
      reachable t -> reachable (snd (compute_hash d t))
  | reach_root_hash t : reachable t -> reachable (snd (root_hash t))
  | reach_clear t : reachable t -> reachable (clear t)
  | reach_deserialize data t ok t' :
      reachable t -> deserialize data t = Done (ok, t') -> reachable t'.

End Merkle.

(** ** indexer.cpp: FileIndex persistence *)

(** The iteration order of [std::unordered_map] is unspecified. Every loop
    over such a map takes the order as a function on the list of its
    pairs; the facts below assume only that it returns a permutation. *)
Definition iteration_order (K V : Type) : Type := list (K * V) -> list (K * V).

Module FileIndex.

Record FileEntry : Type := {
  path : string;
  content_hash : Z;
  size : Z;
  mtime : Z;
  language : Z;
  is_indexed : bool
}.

(** [FileIndex::Impl] (the mutex guards every method and is not modelled). *)
Record FileIndex : Type := {
  entries : gmap string FileEntry;
  merkle : Merkle.MerkleTree
}.

Definition empty_index : FileIndex :=
  {| entries := ∅; merkle := Merkle.empty_tree |}.

Definition add (entry : FileEntry) (idx : FileIndex) : FileIndex :=
  {| entries := <[path entry := entry]> (entries idx);
     merkle := Merkle.add_file (path entry) (content_hash entry) (merkle idx) |}.

Definition remove (p : string) (idx : FileIndex) : FileIndex :=
  {| entries := delete p (entries idx);
     merkle := Merkle.remove_file p (merkle idx) |}.

(** [get]: [None] is the null pointer. *)
Definition get (p : string) (idx : FileIndex) : option FileEntry :=
  entries idx !! p.

Definition contains (p : string) (idx : FileIndex) : bool :=
  bool_decide (is_Some (entries idx !! p)).

Definition get_all (order : iteration_order string FileEntry)
    (idx : FileIndex) : list FileEntry :=
  map snd (order (map_to_list (entries idx))).

Definition get_by_language (order : iteration_order string FileEntry)
    (lang : Z) (idx : FileIndex) : list FileEntry :=
  List.filter (fun e => language e =? lang) (get_all order idx).

Definition clear (idx : FileIndex) : FileIndex :=
  {| entries := ∅; merkle := Merkle.clear (merkle idx) |}.

Definition MAGIC : Z := 0x4649444E.
Definition VERSION : Z := 1.

Definition save_entry (kv : string * FileEntry) : list ascii :=
  let entry := snd kv in
  let path_len := u32 (Z.of_nat (String.length (path entry))) in
  write_le 4 path_len
  ++ take (Z.to_nat path_len) (list_ascii_of_string (path entry))
  ++ write_le 8 (content_hash entry)
  ++ write_le 8 (size entry)
  ++ write_le 8 (mtime entry)
  ++ write_le 1 (language entry)
  ++ write_le 1 (if is_indexed entry then 1 else 0).

(** The bytes written to the file (when it could be opened). *)
Definition save (order : iteration_order string FileEntry) (idx : FileIndex)
  : list ascii :=
  let merkle_data := Merkle.serialize (merkle idx) in
  let merkle_size := u32 (Z.of_nat (length merkle_data)) in
  write_le 4 MAGIC ++ write_le 4 VERSION
  ++ write_le 4 (u32 (Z.of_nat (base.size (entries idx))))
  ++ flat_map save_entry (order (map_to_list (entries idx)))
  ++ write_le 4 merkle_size
  ++ take (Z.to_nat merkle_size) merkle_data.

(** [std::ifstream]: the unread bytes and the state of the stream. *)
Record ifstream : Type := { unread : list ascii; good : bool }.

(** [file.read(buf, n)]: the bytes stored into [buf]. A short read stores
    what is left and sets the fail state; later reads store nothing. *)
Definition stream_read (n : nat) (f : ifstream) : list ascii * ifstream :=
  if good f then
    if (n <=? length (unread f))%nat then
      (take n (unread f), {| unread := drop n (unread f); good := true |})
    else (unread f, {| unread := []; good := false |})
  else ([], f).

(** [file.read] into an [n]-byte integer that held [old]: the bytes not
    read keep their previous content. *)
Definition read_scalar (n : nat) (old : Z) (f : ifstream) : Z * ifstream :=
  let '(bs, f') := stream_read n f in
  (read_le n (bs ++ drop (length bs) (write_le n old)), f').

(** [file.read] into a zero-filled buffer of [n] bytes. *)
Definition read_buffer (n : nat) (f : ifstream) : list ascii * ifstream :=
  let '(bs, f') := stream_read n f in
  (bs ++ replicate (n - length bs) zero_byte, f').

(** The variables that [load] declares without initialiser and reads
    into: four of the function itself and, in each turn [i] of the entry
    loop, the locals [path_len], [lang] and [indexed] and the integer
    fields of that turn's [entry]. *)
Inductive load_local : Set :=
  | magic_local | version_local | count_local | merkle_size_local
  | path_len_local (i : nat)
  | content_hash_local (i : nat)
  | size_local (i : nat)
  | mtime_local (i : nat)
  | lang_local (i : nat)
  | indexed_local (i : nat).

(** [uninit] gives the indeterminate content each of these variables has
    before the read into it, which is what it keeps of a read that stores
    nothing or too little. [i] counts the turns of the loop. *)
Fixpoint load_entries (count i : nat) (uninit : load_local -> Z)
    (f : ifstream) (es : gmap string FileEntry)
  : gmap string FileEntry * ifstream :=
  match count with
  | O => (es, f)
  | S count' =>
      let '(path_len, f) := read_scalar 4 (uninit (path_len_local i)) f in
      let '(p, f) := read_buffer (Z.to_nat path_len) f in
      let '(h, f) := read_scalar 8 (uninit (content_hash_local i)) f in
      let '(sz, f) := read_scalar 8 (uninit (size_local i)) f in
      let '(mt, f) := read_scalar 8 (uninit (mtime_local i)) f in
      let '(lang, f) := read_scalar 1 (uninit (lang_local i)) f in
      let '(indexed, f) := read_scalar 1 (uninit (indexed_local i)) f in
      let entry :=
        {| path := string_of_list_ascii p; content_hash := h; size := sz;
           mtime := mt; language := lang;
           is_indexed := negb (indexed =? 0) |} in
      load_entries count' (S i) uninit f (<[path entry := entry]> es)
  end.

(** [file] is [None] when the file cannot be opened. *)
Definition load (uninit : load_local -> Z) (file : option (list ascii))
    (idx : FileIndex) : outcome (bool * FileIndex) :=
  match file with
  | None => Done (false, idx)
  | Some bytes =>
      let f := {| unread := bytes; good := true |} in
      let '(magic, f) := read_scalar 4 (uninit magic_local) f in
      let '(version, f) := read_scalar 4 (uninit version_local) f in
      if negb (magic =? MAGIC) || negb (version =? VERSION)
      then Done (false, idx)
      else
        let '(count, f) := read_scalar 4 (uninit count_local) f in
        let '(es, f) := load_entries (Z.to_nat count) 0 uninit f ∅ in
        let '(merkle_size, f) :=
          read_scalar 4 (uninit merkle_size_local) f in
        let '(merkle_data, f) := read_buffer (Z.to_nat merkle_size) f in
        match Merkle.deserialize merkle_data (merkle idx) with
        | Done (_, m) => Done (true, {| entries := es; merkle := m |})
        | Failed => Failed
        | OutOfFuel => OutOfFuel
        end
  end.

Definition merkle_hash (idx : FileIndex) : Z * FileIndex :=
  let '(h, m) := Merkle.root_hash (merkle idx) in
  (h, {| entries := entries idx; merkle := m |}).

(** *** Vocabulary of the index properties *)


(** An entry of a scan, as far as [diff] reads it. *)
Definition scanned (p : string) (h : Z) : FileEntry :=
  {| path := p; content_hash := h; size := 0; mtime := 0; language := 0;
     is_indexed := false |}.

(** The indexes a client can hold: what the public operations make of a
    new index. *)
Inductive reachable : FileIndex -> Prop :=
  | reach_new : reachable empty_index
  | reach_add e idx : reachable idx -> reachable (add e idx)
  | reach_remove p idx : reachable idx -> reachable (remove p idx)
  | reach_clear idx : reachable idx -> reachable (clear idx)
  | reach_merkle_hash idx : reachable idx -> reachable (snd (merkle_hash idx))
  | reach_load uninit file idx ok idx' :
      reachable idx -> load uninit file idx = Done (ok, idx') ->
      reachable idx'.

(** The fields of an entry fit the widths of the file format. *)
Definition storable (e : FileEntry) : Prop :=
  Z.of_nat (String.length (path e)) < 2 ^ 32 /\
  0 <= content_hash e < 2 ^ 64 /\
  0 <= size e < 2 ^ 64 /\
  0 <= mtime e < 2 ^ 64 /\
  0 <= language e < 256.

(** ... and so do the counts and the tree of the index. *)
Definition saveable (idx : FileIndex) : Prop :=
  map_Forall (fun _ e => storable e) (entries idx) /\
  Z.of_nat (base.size (entries idx)) < 2 ^ 32 /\
  Merkle.encodable (Merkle.root (merkle idx)) = true /\
  Z.of_nat (length (Merkle.serialize (merkle idx))) < 2 ^ 32.

End FileIndex.

(** ** indexer.cpp: rename detection and scan diff *)

Module Indexer.
Import FileIndex.

Inductive ChangeType : Set := ADDED | MODIFIED | DELETED | RENAMED.

Record FileChange : Type := {
  type : ChangeType;
  change_path : string;
  old_path : string;
  old_hash : Z;
  new_hash : Z
}.

(** [diff_time_ms] is wall-clock time and [error] is never written by
    [diff]; neither is modelled. *)
Record DiffResult : Type := {
  changes : list FileChange;
  added_count : Z;
  modified_count : Z;
  deleted_count : Z;
  renamed_count : Z
}.

(** [hashes[entry.content_hash].push_back(entry.path)] over the entries
    with a non-zero hash. *)
Definition hash_buckets (files : list FileEntry) : gmap Z (list string) :=
  fold_left
    (fun m entry =>
       if content_hash entry =? 0 then m
       else <[content_hash entry :=
                default [] (m !! content_hash entry) ++ [path entry]]> m)
    files ∅.

Definition path_set (files : list FileEntry) : gset string :=
  fold_left (fun s entry => s ∪ {[path entry]}) files ∅.

(** [files[entry.path] = &entry] *)
Definition path_map (files : list FileEntry) : gmap string FileEntry :=
  fold_left (fun m entry => <[path entry := entry]> m) files ∅.

Definition renamed (old_p new_p : string) (h : Z) : FileChange :=
  {| type := RENAMED; change_path := new_p; old_path := old_p;
     old_hash := h; new_hash := h |}.

(** The body of the loop over the old hash buckets in [detect_renames]:
    the records pushed for one bucket. *)
Definition rename_candidates (new_hashes : gmap Z (list string))
    (old_paths new_paths : gset string) (bucket : Z * list string)
  : list FileChange :=
  let '(h, old_file_paths) := bucket in
  match new_hashes !! h with
  | None => []
  | Some new_file_paths =>
      flat_map
        (fun old_p =>
           if bool_decide (old_p ∈ new_paths) then []
           else
             flat_map
               (fun new_p =>
                  if bool_decide (new_p ∈ old_paths) then []
                  else [renamed old_p new_p h])
               new_file_paths)
        old_file_paths
  end.

Section Iteration.
Variable bucket_order : iteration_order Z (list string).
Variable entry_order : iteration_order string FileEntry.

Definition detect_renames (old_files new_files : list FileEntry)
  : list FileChange :=
  let old_hashes := hash_buckets old_files in
  let new_hashes := hash_buckets new_files in
  let old_paths := path_set old_files in
  let new_paths := path_set new_files in
  flat_map (rename_candidates new_hashes old_paths new_paths)
           (bucket_order (map_to_list old_hashes)).

Definition push_rename (st : DiffResult * gset string * gset string)
    (rename : FileChange) : DiffResult * gset string * gset string :=
  let '(result, renamed_old_paths, renamed_new_paths) := st in
  ({| changes := changes result ++ [rename];
      added_count := added_count result;
      modified_count := modified_count result;
      deleted_count := deleted_count result;
      renamed_count := u32 (renamed_count result + 1) |},
   renamed_old_paths ∪ {[old_path rename]},
   renamed_new_paths ∪ {[change_path rename]}).

Definition visit_new (old_files : gmap string FileEntry)
    (renamed_new_paths : gset string) (result : DiffResult)
    (kv : string * FileEntry) : DiffResult :=
  let '(p, new_entry) := kv in
  if bool_decide (p ∈ renamed_new_paths) then result
  else
    match old_files !! p with
    | None =>
        {| changes := changes result ++
             [{| type := ADDED; change_path := p; old_path := EmptyString;
                 old_hash := 0; new_hash := content_hash new_entry |}];
           added_count := u32 (added_count result + 1);
           modified_count := modified_count result;
           deleted_count := deleted_count result;
           renamed_count := renamed_count result |}
    | Some old_entry =>
        if negb (content_hash old_entry =? content_hash new_entry) then
          {| changes := changes result ++
               [{| type := MODIFIED; change_path := p; old_path := EmptyString;
                   old_hash := content_hash old_entry;
                   new_hash := content_hash new_entry |}];
             added_count := added_count result;
             modified_count := u32 (modified_count result + 1);
             deleted_count := deleted_count result;
             renamed_count := renamed_count result |}
        else result
    end.

Definition visit_old (new_files : gmap string FileEntry)
    (renamed_old_paths : gset string) (result : DiffResult)
    (kv : string * FileEntry) : DiffResult :=
  let '(p, old_entry) := kv in
  if bool_decide (p ∈ renamed_old_paths) then result
  else
    match new_files !! p with
    | None =>
        {| changes := changes result ++
             [{| type := DELETED; change_path := p; old_path := EmptyString;
                 old_hash := content_hash old_entry; new_hash := 0 |}];
           added_count := added_count result;
           modified_count := modified_count result;
           deleted_count := u32 (deleted_count result + 1);
           renamed_count := renamed_count result |}
    | Some _ => result
    end.

Definition no_changes : DiffResult :=
  {| changes := []; added_count := 0; modified_count := 0;
     deleted_count := 0; renamed_count := 0 |}.

(** [detect] is [config_.detect_renames]; the scans are given by their
    [files] vectors. *)
Definition diff (detect : bool) (old_scan new_scan : list FileEntry)
  : DiffResult :=
  let old_files := path_map old_scan in
  let new_files := path_map new_scan in
  let '(result, renamed_old_paths, renamed_new_paths) :=
    if detect then
      fold_left push_rename (detect_renames old_scan new_scan)
                (no_changes, ∅, ∅)
    else (no_changes, ∅, ∅) in
  let result :=
    fold_left (visit_new old_files renamed_new_paths)
              (entry_order (map_to_list new_files)) result in
  fold_left (visit_old new_files renamed_old_paths)
            (entry_order (map_to_list old_files)) result.

End Iteration.
(** *** Vocabulary of the diff properties *)

(** Paths of the entries with content hash [h], in list order. *)
Definition bucket (files : list FileEntry) (h : Z) : list string :=
  map path (List.filter (fun e => content_hash e =? h) files).

Definition has_path (files : list FileEntry) (p : string) : bool :=
  bool_decide (p ∈ map path files).

(** The candidates of a hash bucket: paths on one side only. *)
Definition old_only (old_files new_files : list FileEntry) (h : Z)
  : list string :=
  List.filter (fun p => negb (has_path new_files p)) (bucket old_files h).

Definition new_only (old_files new_files : list FileEntry) (h : Z)
  : list string :=
  List.filter (fun p => negb (has_path old_files p)) (bucket new_files h).

(** Every old-only path with every new-only path of the bucket, the old
    paths in their order and, for each, the new paths in theirs. *)
Definition bucket_pairs (old_files new_files : list FileEntry) (h : Z)
  : list FileChange :=
  if h =? 0 then []
  else
    flat_map
      (fun o => map (fun n => renamed o n h) (new_only old_files new_files h))
      (old_only old_files new_files h).

Definition is_rename_of (h : Z) (c : FileChange) : bool :=
  match type c with
  | RENAMED => old_hash c =? h
  | _ => false
  end.

Definition added_or_modified (renamed_new_paths : gset string)
    (c : FileChange) : Prop :=
  (type c = ADDED \/ type c = MODIFIED) /\
  change_path c ∉ renamed_new_paths.

Definition type_is (t : ChangeType) (c : FileChange) : bool :=
  match t, type c with
  | ADDED, ADDED | MODIFIED, MODIFIED | DELETED, DELETED
  | RENAMED, RENAMED => true
  | _, _ => false
  end.

(** The number of records of one type. *)
Definition count_of (t : ChangeType) (cs : list FileChange) : Z :=
  Z.of_nat (length (List.filter (type_is t) cs)).

(** The records of a result that are about the path [p]. *)
Definition records_about (p : string) (r : DiffResult) : list FileChange :=
  List.filter (fun c => String.eqb (change_path c) p) (changes r).

End Indexer.

(** ** boundaries.cpp: lexical boundary detection (JavaScript, TypeScript) *)

(** [std::regex] (ECMAScript grammar) applied with [match_continuous]: a
    backtracking matcher anchored at the start of the input, alternatives
    and greedy repetitions tried in priority order. *)
Module Regex.

Inductive regex : Type :=
  | Eps
  | Chr (p : ascii -> bool)
  | Seq (r1 r2 : regex)
  | Alt (r1 r2 : regex)
  | Star (r : regex)
  | Group (i : nat) (r : regex).

Definition Opt (r : regex) : regex := Alt r Eps.
Definition Plus (r : regex) : regex := Seq r (Star r).
Definition Lit (s : string) : regex :=
  fold_right (fun c r => Seq (Chr (Ascii.eqb c)) r) Eps (list_ascii_of_string s).
Definition OneOf (s : string) : ascii -> bool :=
  fun c => existsb (Ascii.eqb c) (list_ascii_of_string s).
Definition in_range (lo hi : ascii) : ascii -> bool :=
  fun c => (byte_val lo <=? byte_val c) && (byte_val c <=? byte_val hi).
Definition cls_space : ascii -> bool :=
  fun c => (byte_val c =? 32) || ((9 <=? byte_val c) && (byte_val c <=? 13)).

Definition captures : Type := gmap nat (list ascii).
Definition kont : Type := list ascii -> captures -> option (list ascii * captures).

Fixpoint rmatch (r : regex) (s : list ascii) (caps : captures) (k : kont)
  : option (list ascii * captures) :=
  match r with
  | Eps => k s caps
  | Chr p =>
      match s with
      | c :: s' => if p c then k s' caps else None
      | [] => None
      end
  | Seq r1 r2 => rmatch r1 s caps (fun s' caps' => rmatch r2 s' caps' k)
  | Alt r1 r2 =>
      match rmatch r1 s caps k with
      | Some m => Some m
      | None => rmatch r2 s caps k
      end
  | Star r1 =>
      (fix star (n : nat) (s : list ascii) (caps : captures) {struct n} :=
         match n with
         | O => k s caps
         | S n' =>
             match rmatch r1 s caps
                     (fun s' caps' =>
                        if (length s' <? length s)%nat then star n' s' caps'
                        else None) with
             | Some m => Some m
             | None => k s caps
             end
         end) (length s) s caps
  | Group i r1 =>
      rmatch r1 s caps
        (fun s' caps' =>
           k s' (<[i := take (length s - length s') s]> caps'))
  end.

Record smatch : Type := { match_length : nat; groups : captures }.

Definition regex_search_continuous (r : regex) (s : list ascii) : option smatch :=
  match rmatch r s ∅ (fun s' caps => Some (s', caps)) with
  | Some (s', caps) =>
      Some {| match_length := length s - length s'; groups := caps |}
  | None => None
  end.

Definition group_str (m : smatch) (i : nat) : string :=
  string_of_list_ascii (default [] (groups m !! i)).

(** *** Vocabulary of the matcher properties *)

(** The pattern matches the empty string. *)
Fixpoint nullable (r : regex) : bool :=
  match r with
  | Eps => true
  | Chr _ => false
  | Seq r1 r2 => nullable r1 && nullable r2
  | Alt r1 r2 => nullable r1 || nullable r2
  | Star _ => true
  | Group _ r1 => nullable r1
  end.

End Regex.
Module BoundaryDetector.
Import Regex.

(** common.h *)
Inductive ChunkType : Set :=
  | UNKNOWN | FUNCTION | CLASS | STRUCT | INTERFACE | ENUM | MODULE
  | IMPORT | EXPORT | COMMENT | BLOCK | STATEMENT.

Record SemanticBoundary : Type := {
  line : Z;
  column : Z;
  byte_offset : Z;
  type : ChunkType;
  name : string;
  scope_depth : Z;
  is_start : bool
}.

Definition dquote : ascii := "034"%char.

Definition offset_to_line_col (source : list ascii) (offset : nat) : Z * Z :=
  fold_left
    (fun '(line, col) c =>
       if Ascii.eqb c "010" then (u32 (line + 1), 1) else (line, u32 (col + 1)))
    (take offset source) (1, 1).

Fixpoint skip_whitespace (s : list ascii) : list ascii :=
  match s with
  | c :: r => if cls_space c then skip_whitespace r else s
  | [] => []
  end.

Fixpoint skip_to_eol (s : list ascii) : list ascii :=
  match s with
  | c :: r => if Ascii.eqb c "010" then s else skip_to_eol r
  | [] => []
  end.

(** [skip_string] after the opening quote. *)
Fixpoint skip_string_body (s : list ascii) (quote : ascii) : list ascii :=
  match s with
  | [] => []
  | c :: r =>
      match r with
      | e :: r' =>
          if Ascii.eqb c "\" then skip_string_body r' quote
          else if Ascii.eqb c quote then r
          else skip_string_body r quote
      | [] => if Ascii.eqb c quote then r else skip_string_body r quote
      end
  end.
Definition skip_string (s : list ascii) (quote : ascii) : list ascii :=
  skip_string_body (drop 1 s) quote.

(** [skip_template_string] after the opening backtick; [depth > 0] inside
    a dollar-brace expression. *)
Fixpoint skip_template_body (s : list ascii) (depth : Z) : list ascii :=
  match s with
  | [] => []
  | c :: r =>
      if 0 <? depth then
        let depth' :=
          if Ascii.eqb c "{" then depth + 1
          else if Ascii.eqb c "}" then depth - 1 else depth in
        skip_template_body r depth'
      else
        match r with
        | e :: r' =>
            if Ascii.eqb c "\" then skip_template_body r' 0
            else if Ascii.eqb c "$" && Ascii.eqb e "{" then skip_template_body r' 1
            else if Ascii.eqb c "`" then r
            else skip_template_body r 0
        | [] => if Ascii.eqb c "`" then r else skip_template_body r 0
        end
  end.
Definition skip_template_string (s : list ascii) : list ascii :=
  skip_template_body (drop 1 s) 0.

(** [skip_comment] after the two bytes that open a block comment. *)
Fixpoint skip_block_comment (s : list ascii) : list ascii :=
  match s with
  | c :: r =>
      match r with
      | e :: r' =>
          if Ascii.eqb c "*" && Ascii.eqb e "/" then r'
          else skip_block_comment r
      | [] => s
      end
  | [] => []
  end.

Definition skip_comment (s : list ascii) : list ascii :=
  match s with
  | c :: e :: r =>
      if Ascii.eqb c "/" && Ascii.eqb e "/" then skip_to_eol s
      else if Ascii.eqb c "/" && Ascii.eqb e "*" then skip_block_comment r
      else if Ascii.eqb c "#" then skip_to_eol s
      else s
  | _ => s
  end.

(** [while (pos < source.size() && source[pos] != stop) pos++] *)
Fixpoint skip_until (stop : ascii) (s : list ascii) : list ascii :=
  match s with
  | c :: r => if Ascii.eqb c stop then s else skip_until stop r
  | [] => []
  end.

(** The patterns of [detect_javascript] and [detect_typescript]. In the
    sources, with [ws] for the class of white space and [ident] for
    [[a-zA-Z_$]] followed by any number of [[a-zA-Z0-9_$]]:
    - func_regex: optional [async ws+], [function], [ws*], group 1 an
      optional star, [ws*], group 2 an optional [ident], [ws*], an opening
      parenthesis;
    - arrow_regex: [const], [let] or [var], [ws+], group 1 [ident], [ws*],
      [=], [ws*], optional [async ws+], a parenthesised run of bytes other
      than the closing parenthesis, [ws*], [=>];
    - class_regex, interface_regex, enum_regex: the keyword, [ws+], group 1
      [ident];
    - type_regex: [type], [ws+], group 1 [ident], [ws*], [=] (declared in
      [detect_typescript] and never applied there);
    - import_regex: [import ws+];
    - export_regex: [export ws+], optional [default ws+], optional
      [async ws+], one of [function], [class], [const], [let], [var]. *)
Definition ident_start : ascii -> bool :=
  fun c => in_range "a" "z" c || in_range "A" "Z" c || OneOf "_$" c.
Definition ident_char : ascii -> bool :=
  fun c => ident_start c || in_range "0" "9" c.
Definition ident : regex := Seq (Chr ident_start) (Star (Chr ident_char)).
Definition ws : regex := Chr cls_space.

Definition func_regex : regex :=
  Seq (Opt (Seq (Lit "async") (Plus ws)))
  (Seq (Lit "function") (Seq (Star ws)
  (Seq (Group 1 (Opt (Lit "*"))) (Seq (Star ws)
  (Seq (Opt (Group 2 ident)) (Seq (Star ws) (Lit "("))))))).
Definition arrow_regex : regex :=
  Seq (Alt (Lit "const") (Alt (Lit "let") (Lit "var")))
  (Seq (Plus ws) (Seq (Group 1 ident) (Seq (Star ws) (Seq (Lit "=")
  (Seq (Star ws) (Seq (Opt (Seq (Lit "async") (Plus ws)))
  (Seq (Lit "(") (Seq (Star (Chr (fun c => negb (Ascii.eqb c ")"))))
  (Seq (Lit ")") (Seq (Star ws) (Lit "=>"))))))))))).
Definition class_regex : regex :=
  Seq (Lit "class") (Seq (Plus ws) (Group 1 ident)).
Definition import_regex : regex := Seq (Lit "import") (Plus ws).
Definition export_regex : regex :=
  Seq (Lit "export") (Seq (Plus ws)
  (Seq (Opt (Seq (Lit "default") (Plus ws)))
  (Seq (Opt (Seq (Lit "async") (Plus ws)))
       (Alt (Lit "function") (Alt (Lit "class")
       (Alt (Lit "const") (Alt (Lit "let") (Lit "var")))))))).
Definition interface_regex : regex :=
  Seq (Lit "interface") (Seq (Plus ws) (Group 1 ident)).
Definition type_regex : regex :=
  Seq (Lit "type") (Seq (Plus ws) (Seq (Group 1 ident) (Seq (Star ws) (Lit "=")))).
Definition enum_regex : regex :=
  Seq (Lit "enum") (Seq (Plus ws) (Group 1 ident)).

Definition boundary_at (source : list ascii) (pos : nat) (t : ChunkType)
    (n : string) (depth : Z) (start : bool) : SemanticBoundary :=
  let '(l, c) := offset_to_line_col source pos in
  {| line := l; column := c; byte_offset := u32 (Z.of_nat pos); type := t;
     name := n; scope_depth := depth; is_start := start |}.

(** [std::sort] by [byte_offset] (the relative order of boundaries with
    equal offsets is left open by [std::sort]; this model keeps it). *)
Fixpoint sort_insert (x : SemanticBoundary) (l : list SemanticBoundary)
  : list SemanticBoundary :=
  match l with
  | [] => [x]
  | y :: l' =>
      if byte_offset x <? byte_offset y then x :: l else y :: sort_insert x l'
  end.
Definition sort_by_offset (l : list SemanticBoundary) : list SemanticBoundary :=
  fold_right sort_insert [] l.

Definition starts_with (c : ascii) (s : list ascii) : bool :=
  match s with
  | x :: _ => Ascii.eqb x c
  | [] => false
  end.

Fixpoint javascript_loop (fuel : nat) (source s : list ascii) (scope_depth : Z)
    (scope_stack : list (nat * ChunkType))
    (boundaries : list SemanticBoundary)
  : outcome (list SemanticBoundary) :=
  let s := skip_whitespace s in
  match s with
  | [] => Done boundaries
  | c :: r =>
      match fuel with
      | O => OutOfFuel
      | S fuel' =>
          let size := length source in
          let pos := (size - length s)%nat in
          let again := javascript_loop fuel' source in
          if Ascii.eqb c "/" && (starts_with "/" r || starts_with "*" r) then
            let s' := skip_comment s in
            let boundaries :=
              if (50 <? length s - length s')%nat then
                boundaries ++ [boundary_at source pos COMMENT EmptyString scope_depth true]
              else boundaries in
            again s' scope_depth scope_stack boundaries
          else if Ascii.eqb c dquote || Ascii.eqb c "'" then
            again (skip_string s c) scope_depth scope_stack boundaries
          else if Ascii.eqb c "`" then
            again (skip_template_string s) scope_depth scope_stack boundaries
          else
            let remaining_str := take 200 s in
            match regex_search_continuous import_regex remaining_str with
            | Some _ =>
                again (skip_to_eol s) scope_depth scope_stack
                  (boundaries ++ [boundary_at source pos IMPORT EmptyString scope_depth true])
            | None =>
            match regex_search_continuous export_regex remaining_str with
            | Some m =>
                again (drop (match_length m) s) scope_depth scope_stack
                  (boundaries ++ [boundary_at source pos EXPORT EmptyString scope_depth true])
            | None =>
            match regex_search_continuous class_regex remaining_str with
            | Some m =>
                let boundaries :=
                  boundaries ++
                  [boundary_at source pos CLASS (group_str m 1) scope_depth true] in
                let s' := skip_until "{" (drop (match_length m) s) in
                match s' with
                | _ :: r' =>
                    again r' (scope_depth + 1)
                      ((size - length s', CLASS)%nat :: scope_stack) boundaries
                | [] => again s' scope_depth scope_stack boundaries
                end
            | None =>
            match regex_search_continuous func_regex remaining_str with
            | Some m =>
                let name :=
                  if String.eqb (group_str m 2) EmptyString then "<anonymous>"%string
                  else group_str m 2 in
                let boundaries :=
                  boundaries ++
                  [boundary_at source pos FUNCTION name scope_depth true] in
                let s' := skip_until "{" (drop (match_length m) s) in
                match s' with
                | _ :: r' =>
                    again r' (scope_depth + 1)
                      ((size - length s', FUNCTION)%nat :: scope_stack) boundaries
                | [] => again s' scope_depth scope_stack boundaries
                end
            | None =>
            match regex_search_continuous arrow_regex remaining_str with
            | Some m =>
                let boundaries :=
                  boundaries ++
                  [boundary_at source pos FUNCTION (group_str m 1) scope_depth true] in
                let s1 := drop (match_length m) s in
                let temp := skip_whitespace s1 in
                match temp with
                | b :: r' =>
                    if Ascii.eqb b "{" then
                      again r' (scope_depth + 1)
                        ((size - length temp, FUNCTION)%nat :: scope_stack)
                        boundaries
                    else again s1 scope_depth scope_stack boundaries
                | [] => again s1 scope_depth scope_stack boundaries
                end
            | None =>
                if Ascii.eqb c "{" then
                  again r (scope_depth + 1) ((pos, BLOCK) :: scope_stack) boundaries
                else if Ascii.eqb c "}" then
                  match scope_stack with
                  | (start_pos, t) :: stack' =>
                      let scope_depth := scope_depth - 1 in
                      let boundaries :=
                        match t with
                        | FUNCTION | CLASS =>
                            boundaries ++
                            [boundary_at source pos t EmptyString scope_depth false]
                        | _ => boundaries
                        end in
                      again r scope_depth stack' boundaries
                  | [] => again r scope_depth scope_stack boundaries
                  end
                else again r scope_depth scope_stack boundaries
            end end end end end
      end
  end.

Definition detect_javascript (source : list ascii)
  : outcome (list SemanticBoundary) :=
  match javascript_loop (length source) source source 0 [] [] with
  | Done boundaries => Done (sort_by_offset boundaries)
  | Failed => Failed
  | OutOfFuel => OutOfFuel
  end.

(** The second pass of [detect_typescript]: every byte offset of the
    source is tried against the interface and enum patterns. *)
Fixpoint typescript_loop (fuel : nat) (source s : list ascii)
    (boundaries : list SemanticBoundary) : outcome (list SemanticBoundary) :=
  match s with
  | [] => Done boundaries
  | _ :: r =>
      match fuel with
      | O => OutOfFuel
      | S fuel' =>
          let pos := (length source - length s)%nat in
          let remaining_str := take 200 s in
          match regex_search_continuous interface_regex remaining_str with
          | Some m =>
              typescript_loop fuel' source (drop (match_length m) s)
                (boundaries ++
                 [boundary_at source pos INTERFACE (group_str m 1) 0 true])
          | None =>
          match regex_search_continuous enum_regex remaining_str with
          | Some m =>
              typescript_loop fuel' source (drop (match_length m) s)
                (boundaries ++
                 [boundary_at source pos ENUM (group_str m 1) 0 true])
          | None => typescript_loop fuel' source r boundaries
          end end
      end
  end.

Definition detect_typescript (source : list ascii)
  : outcome (list SemanticBoundary) :=
  match detect_javascript source with
  | Done boundaries =>
      match typescript_loop (length source) source source boundaries with
      | Done boundaries => Done (sort_by_offset boundaries)
      | Failed => Failed
      | OutOfFuel => OutOfFuel
      end
  | Failed => Failed
  | OutOfFuel => OutOfFuel
  end.

(** *** Vocabulary of the detector properties *)

(** The boundary points at a byte of the source. *)
Definition in_source (source : list ascii) (b : SemanticBoundary) : Prop :=
  0 <= byte_offset b < Z.of_nat (length source).

(** Boundaries in ascending order of byte offset. *)
Definition ascending (bs : list SemanticBoundary) : Prop :=
  Sorted.Sorted (fun a b => byte_offset a <= byte_offset b) bs.

End BoundaryDetector.

(** ** chunker.cpp: sliding-window chunks *)

Module Chunker.
Import Tokenizer.

Record ChunkerConfig : Type := {
  max_chunk_tokens : Z;
  min_chunk_tokens : Z;
  overlap_tokens : Z;
  respect_boundaries : bool;
  include_context : bool;
  preserve_imports : bool;
  language : Z
}.

(** The configuration a [Chunker] is constructed with by default. *)
Definition default_config : ChunkerConfig :=
  {| max_chunk_tokens := 512; min_chunk_tokens := 64; overlap_tokens := 50;
     respect_boundaries := true; include_context := true;
     preserve_imports := true; language := 0 |}.

Record SourceLocation : Type := {
  line_start : Z;
  line_end : Z;
  column_start : Z;
  column_end : Z;
  byte_offset : Z;
  byte_length : Z
}.

Record ChunkContext : Type := {
  parent_name : string;
  namespace_name : string;
  imports : list string
}.

Record CodeChunk : Type := {
  content : list ascii;
  token_count : Z;
  location : SourceLocation;
  type : BoundaryDetector.ChunkType;
  context : ChunkContext;
  chunk_index : Z;
  hash : string
}.

Definition newline : ascii := "010"%char.

(** [source.substr(pos, n)] for [pos <= source.size()]. *)
Definition substr (source : list ascii) (pos n : nat) : list ascii :=
  take n (drop pos source).

(** FNV-1a over the bytes, before the conversion to sixteen hexadecimal
    digits. *)
Definition fnv1a (data : list ascii) : Z :=
  fold_left (fun h c => u64 (Z.lxor h (byte_val c) * 1099511628211))
            data 14695981039346656037.

Definition count_lines (s : list ascii) : Z :=
  fold_left (fun lines c => if Ascii.eqb c newline then u32 (lines + 1)
                            else lines) s 1.

Definition offset_to_location (source : list ascii) (offset : nat) : Z * Z :=
  fold_left
    (fun lc c =>
       if Ascii.eqb c newline then (u32 (fst lc + 1), 1)
       else (fst lc, u32 (snd lc + 1)))
    (take offset source) (1, 1).

(** Bytes from the head of [s] up to the first newline. *)
Fixpoint line_rest (s : list ascii) : nat :=
  match s with
  | c :: r => if Ascii.eqb c newline then 0%nat else S (line_rest r)
  | [] => 0%nat
  end.

Definition find_line_end (source : list ascii) (offset : nat) : nat :=
  (offset + line_rest (drop offset source))%nat.

(** [find_line_end] followed by the step over the newline and the clamp
    to the size of the source, as it occurs twice in the loop. *)
Definition to_line_boundary (source : list ascii) (chunk_end : nat) : nat :=
  let chunk_end := find_line_end source chunk_end in
  let chunk_end :=
    if (chunk_end <? length source)%nat then S chunk_end else chunk_end in
  Nat.min chunk_end (length source).

Definition no_context : ChunkContext :=
  {| parent_name := EmptyString; namespace_name := EmptyString;
     imports := [] |}.

Fixpoint sliding_loop (fuel : nat) (config : ChunkerConfig)
    (source : list ascii) (pos overlap_bytes : nat) (chunk_index : Z)
    (chunks : list CodeChunk) : outcome (list CodeChunk) :=
  if (pos <? length source)%nat then
    match fuel with
    | O => OutOfFuel
    | S fuel' =>
        let chunk_start :=
          if (0 <? overlap_bytes)%nat && (0 <? pos)%nat
          then (pos - Nat.min overlap_bytes pos)%nat else pos in
        let remaining := drop chunk_start source in
        let chunk_byte_len :=
          find_token_boundary remaining (max_chunk_tokens config) in
        let chunk_end := (chunk_start + chunk_byte_len)%nat in
        let chunk_end :=
          if (chunk_end <? length source)%nat
          then to_line_boundary source chunk_end
          else Nat.min chunk_end (length source) in
        let chunk_content :=
          substr source chunk_start (chunk_end - chunk_start) in
        let chunk_tokens := count_tokens chunk_content in
        let chunk_end :=
          if (chunk_tokens <? min_chunk_tokens config)
             && (chunk_end <? length source)%nat
          then to_line_boundary source (chunk_end + 1)
          else chunk_end in
        let chunk_content :=
          substr source chunk_start (chunk_end - chunk_start) in
        let chunk_tokens := count_tokens chunk_content in
        let start_loc := offset_to_location source chunk_start in
        let end_loc := offset_to_location source chunk_end in
        let chunk :=
          {| content := chunk_content;
             token_count := chunk_tokens;
             location :=
               {| line_start := fst start_loc; line_end := fst end_loc;
                  column_start := snd start_loc; column_end := snd end_loc;
                  byte_offset := u32 (Z.of_nat chunk_start);
                  byte_length := u32 (Z.of_nat (chunk_end - chunk_start)) |};
             type := BoundaryDetector.BLOCK;
             context := no_context;
             chunk_index := chunk_index;
             hash := EmptyString |} in
        let chunks := chunks ++ [chunk] in
        let overlap_bytes :=
          find_token_boundary chunk_content (overlap_tokens config) in
        if (chunk_end <=? chunk_start)%nat then Done chunks
        else sliding_loop fuel' config source chunk_end overlap_bytes
               (u32 (chunk_index + 1)) chunks
    end
  else Done chunks.

Definition create_sliding_window_chunks (config : ChunkerConfig)
    (source : list ascii) : outcome (list CodeChunk) :=
  sliding_loop (length source) config source 0 0 0 [].

(** *** Vocabulary of the chunk properties *)

(** The byte span a chunk claims. *)
Definition span_start (c : CodeChunk) : nat :=
  Z.to_nat (byte_offset (location c)).
Definition span_end (c : CodeChunk) : nat :=
  Z.to_nat (byte_offset (location c) + byte_length (location c)).

(** A position just after a newline, or the end of the source. *)
Definition at_line_end (source : list ascii) (pos : nat) : Prop :=
  pos = length source \/
  exists before, pos = S before /\ source !! before = Some newline.

(** The chunks tile the source from [reach] on: each holds the bytes of
    its span, is not empty, ends at a line end, starts after the chunk
    before it started ([after]) and no later than that chunk ended
    ([reach]); the last one ends where the source ends. *)
Fixpoint tiles (source : list ascii) (after : option nat) (reach : nat)
    (chunks : list CodeChunk) : Prop :=
  match chunks with
  | [] => reach = length source
  | c :: chunks' =>
      content c = substr source (span_start c) (span_end c - span_start c) /\
      (span_start c < span_end c <= length source)%nat /\
      at_line_end source (span_end c) /\
      (span_start c <= reach)%nat /\
      match after with Some a => (a < span_start c)%nat | None => True end /\
      tiles source (Some (span_start c)) (span_end c) chunks'
  end.

End Chunker.

(** * Properties *)

(** ** Machine integers *)

Lemma u32_le x : 0 <= x -> 0 <= u32 x <= x.
Proof.
  intros H. unfold u32. split; [apply Z.mod_pos_bound; lia|].
  apply Z.mod_le; lia.
Qed.

Lemma u32_small x : 0 <= x < 2 ^ 32 -> u32 x = x.
Proof. intros H. unfold u32. apply Z.mod_small. exact H. Qed.

(** ** Tokenizer *)

Section TokenizerFacts.
Import Tokenizer.

Section Scan.
Variable hex : bool.
Variable ops : list string.

Lemma skip_while_length p s : (length (skip_while p s) <= length s)%nat.
Proof. induction s as [|c r IH]; simpl; [lia|]. destruct (p c); simpl; lia. Qed.

Lemma skip_while_head p c r :
  p c = true -> (length (skip_while p (c :: r)) <= length r)%nat.
Proof. intros H. simpl. rewrite H. apply skip_while_length. Qed.

Lemma ceil_div_bounds n d : 0 < d -> 1 <= n -> 1 <= ceil_div n d <= n.
Proof.
  intros Hd Hn. unfold ceil_div. split.
  - apply Z.div_le_lower_bound; lia.
  - apply Z.div_le_upper_bound; nia.
Qed.

Lemma word_tokens_bounds n : 1 <= n -> 0 <= word_tokens n <= n.
Proof.
  intros Hn. unfold word_tokens.
  repeat match goal with |- context [?a <=? ?b] => destruct (Z.leb_spec a b) end;
    try lia.
  pose proof (ceil_div_bounds n 4 ltac:(lia) Hn).
  pose proof (u32_le (ceil_div n 4) ltac:(lia)). lia.
Qed.

Lemma number_tokens_bounds n : 1 <= n -> 0 <= number_tokens n <= n.
Proof.
  intros Hn. unfold number_tokens.
  pose proof (ceil_div_bounds n 3 ltac:(lia) Hn).
  pose proof (u32_le (ceil_div n 3) ltac:(lia)). lia.
Qed.

Lemma is_cat_categorize k c : is_cat k c = true <-> categorize c = k.
Proof. unfold is_cat. destruct (categorize c), k; split; congruence. Qed.

(** A run is never empty and its credit never exceeds its length. *)
Lemma scan_run_bounds c r credit s' :
  scan_run hex ops (c :: r) = (credit, s') ->
  (length s' <= length r)%nat /\
  0 <= credit <= Z.of_nat (length (c :: r)) - Z.of_nat (length s').
Proof.
  unfold scan_run. destruct (categorize c) eqn:Hc.
  - intros [= <- <-].
    assert (H := skip_while_head (is_cat WHITESPACE) c r
                   (proj2 (is_cat_categorize _ _) Hc)).
    simpl length in *. lia.
  - intros [= <- <-].
    assert (Hw : is_word_char c = true).
    { unfold is_word_char. rewrite (proj2 (is_cat_categorize LETTER c) Hc). done. }
    assert (H := skip_while_head is_word_char c r Hw).
    split; [exact H|]. unfold run_len.
    pose proof (word_tokens_bounds
      (Z.of_nat (length (c :: r)) - Z.of_nat (length (skip_while is_word_char (c :: r))))).
    simpl length in *. lia.
  - intros [= <- <-].
    assert (Hw : is_number_char hex c = true).
    { unfold is_number_char. cbv zeta. unfold categorize in Hc. cbv zeta in Hc.
      repeat match type of Hc with
             | (if ?b then _ else _) = _ => destruct b eqn:?; try discriminate
             end.
      reflexivity. }
    assert (H := skip_while_head (is_number_char hex) c r Hw).
    split; [exact H|]. unfold run_len.
    pose proof (number_tokens_bounds
      (Z.of_nat (length (c :: r)) -
       Z.of_nat (length (skip_while (is_number_char hex) (c :: r))))).
    simpl length in *. lia.
  - destruct r as [|next r2]; [intros [= <- <-]; simpl; lia|].
    destruct (op_pair c next ops).
    + destruct r2 as [|e r3]; [intros [= <- <-]; simpl; lia|].
      destruct (Ascii.eqb e "="); intros [= <- <-]; simpl length; lia.
    + intros [= <- <-]; simpl length; lia.
  - intros [= <- <-]; simpl length; lia.
  - intros [= <- <-]; simpl length; lia.
Qed.

Lemma credits_bounds fuel s : 0 <= credits hex ops fuel s <= Z.of_nat (length s).
Proof.
  revert s. induction fuel as [|fuel IH]; intros s; simpl; [destruct s; simpl; lia|].
  destruct s as [|c r]; [simpl; lia|].
  destruct (scan_run hex ops (c :: r)) as [credit s'] eqn:E.
  apply scan_run_bounds in E. specialize (IH s'). simpl length in *. lia.
Qed.

Lemma credits_fuel fuel s :
  (length s <= fuel)%nat -> credits hex ops fuel s = tokens hex ops s.
Proof.
  unfold tokens. remember (length s) as n eqn:Hn.
  revert fuel s Hn. induction n as [n IH] using lt_wf_ind.
  intros fuel s Hn Hf. destruct s as [|c r].
  - subst n. simpl. destruct fuel; reflexivity.
  - destruct fuel as [|fuel]; [simpl in *; lia|].
    subst n. simpl length. cbn [credits].
    destruct (scan_run hex ops (c :: r)) as [credit s'] eqn:E.
    apply scan_run_bounds in E. destruct E as [E _].
    rewrite (IH (length s') ltac:(simpl; lia) fuel s' eq_refl ltac:(simpl in *; lia)).
    rewrite (IH (length s') ltac:(simpl; lia) (length r) s' eq_refl E).
    reflexivity.
Qed.

Lemma tokens_nil : tokens hex ops [] = 0.
Proof. reflexivity. Qed.

Lemma tokens_cons c r :
  tokens hex ops (c :: r) =
  fst (scan_run hex ops (c :: r)) + tokens hex ops (snd (scan_run hex ops (c :: r))).
Proof.
  unfold tokens at 1. simpl length. cbn [credits].
  destruct (scan_run hex ops (c :: r)) as [credit s'] eqn:E. simpl.
  apply scan_run_bounds in E. destruct E as [E _].
  rewrite (credits_fuel (length r) s' E). reflexivity.
Qed.

End Scan.

(** The 32-bit counter of [estimate_tokens] never wraps on a text shorter
    than 2^32 bytes. *)
Lemma estimate_loop_credits fuel s tc :
  0 <= tc -> tc + Z.of_nat (length s) < 2 ^ 32 ->
  estimate_loop fuel s tc = tc + credits true estimate_ops fuel s.
Proof.
  revert s tc. induction fuel as [|fuel IH]; intros s tc Htc Hlen; simpl.
  - destruct s; lia.
  - destruct s as [|c r]; [lia|].
    destruct (scan_run true estimate_ops (c :: r)) as [credit s'] eqn:E.
    apply scan_run_bounds in E. destruct E as [E1 E2].
    simpl length in *.
    rewrite u32_small by lia. rewrite IH by lia. lia.
Qed.

Lemma estimate_tokens_tokens text :
  Z.of_nat (length text) < 2 ^ 32 ->
  estimate_tokens text = tokens true estimate_ops text.
Proof.
  intros H. unfold estimate_tokens, tokens.
  rewrite estimate_loop_credits by lia. lia.
Qed.

Ltac each_byte x := destruct x as [[] [] [] [] [] [] [] []].

Lemma space_not_word x : isspace (byte_val x) = true -> is_word_char x = false.
Proof. each_byte x; vm_compute; congruence. Qed.

Lemma space_not_number hex x :
  isspace (byte_val x) = true -> is_number_char hex x = false.
Proof. destruct hex; each_byte x; vm_compute; congruence. Qed.

Lemma space_not_equals x : isspace (byte_val x) = true -> Ascii.eqb x "=" = false.
Proof. each_byte x; vm_compute; congruence. Qed.

Lemma space_category x :
  isspace (byte_val x) = true <->
  categorize x = WHITESPACE \/ categorize x = NEWLINE.
Proof.
  each_byte x; vm_compute; split; intros H; try reflexivity; try discriminate H;
    try (left; reflexivity); try (right; reflexivity);
    destruct H as [H|H]; discriminate H.
Qed.

Lemma op_pair_second c x ops :
  op_pair c x ops = true ->
  Exists (fun op => exists d, op = String d (String x EmptyString)) ops.
Proof.
  unfold op_pair. induction ops as [|op ops IH]; cbn [existsb]; [discriminate|].
  intros H. apply orb_true_iff in H. destruct H as [H|H].
  - left. apply String.eqb_eq in H. exists c. symmetry. exact H.
  - right. apply IH. exact H.
Qed.

Lemma estimate_ops_no_space c x :
  isspace (byte_val x) = true -> op_pair c x estimate_ops = false.
Proof.
  intros Hx. destruct (op_pair c x estimate_ops) eqn:E; [|reflexivity].
  apply op_pair_second in E. unfold estimate_ops in E.
  repeat match goal with
         | H : Exists _ (_ :: _) |- _ => apply Exists_cons in H; destruct H as [[d H]|H]
         | H : Exists _ [] |- _ => apply Exists_nil in H; destruct H
         | H : String _ _ = String _ _ |- _ => injection H as ? H'; subst x; vm_compute in Hx; discriminate Hx
         end.
Qed.

Lemma skip_while_app_inner p a b :
  skip_while p a <> [] -> skip_while p (a ++ b) = skip_while p a ++ b.
Proof.
  induction a as [|c r IH]; simpl; [congruence|].
  destruct (p c); [exact IH|reflexivity].
Qed.

Lemma skip_while_app_all p a b :
  skip_while p a = [] -> skip_while p (a ++ b) = skip_while p b.
Proof.
  induction a as [|c r IH]; simpl; [reflexivity|].
  destruct (p c); [exact IH|discriminate].
Qed.

Lemma skip_while_all p a :
  skip_while p a = [] -> forall c, last a = Some c -> p c = true.
Proof.
  induction a as [|c r IH]; simpl; [discriminate|].
  destruct (p c) eqn:Hc; [|discriminate].
  intros H d. destruct r as [|c' r'].
  - simpl. intros [= <-]. exact Hc.
  - intros Hl. apply IH; [exact H|]. exact Hl.
Qed.

Lemma skip_while_stop p b :
  match b with c :: _ => p c = false | [] => True end -> skip_while p b = b.
Proof. destruct b as [|c r]; simpl; [reflexivity|]. intros ->. reflexivity. Qed.

Lemma skip_while_suffix p a : exists pre, a = pre ++ skip_while p a.
Proof.
  induction a as [|c r [pre IH]]; simpl; [exists []; reflexivity|].
  destruct (p c); [exists (c :: pre); simpl; congruence|exists []; reflexivity].
Qed.

Lemma last_app_keep {A} (pre s : list A) : s <> [] -> last (pre ++ s) = last s.
Proof.
  intros Hs. induction pre as [|x pre IH]; simpl; [reflexivity|].
  destruct (pre ++ s) eqn:E; [|exact IH].
  apply app_eq_nil in E. destruct E. congruence.
Qed.

Lemma last_cons_some {A} (c : A) (r : list A) : exists d, last (c :: r) = Some d.
Proof.
  revert c. induction r as [|c' r IH]; intros c; [exists c; reflexivity|].
  destruct (IH c') as [d Hd]. exists d. exact Hd.
Qed.

Section Split.
Variable hex : bool.
Variable ops : list string.
Hypothesis ops_no_space :
  forall c x, isspace (byte_val x) = true -> op_pair c x ops = false.

Lemma scan_run_suffix c r :
  exists pre, c :: r = pre ++ snd (scan_run hex ops (c :: r)).
Proof.
  unfold scan_run. destruct (categorize c); cbn [snd];
    try apply skip_while_suffix; try (exists [c]; reflexivity).
  destruct r as [|next r2]; [exists [c]; reflexivity|].
  destruct (op_pair c next ops); [|exists [c]; reflexivity].
  destruct r2 as [|e r3]; [exists [c; next]; reflexivity|].
  destruct (Ascii.eqb e "=");
    [exists [c; next; e]; reflexivity|exists [c; next]; reflexivity].
Qed.

Lemma scan_run_app_inner a b credit a' :
  scan_run hex ops a = (credit, a') -> a' <> [] ->
  scan_run hex ops (a ++ b) = (credit, a' ++ b).
Proof.
  destruct a as [|c r]; [simpl; intros [= <- <-]; congruence|].
  cbn [app]. unfold scan_run. destruct (categorize c).
  - remember (skip_while (is_cat WHITESPACE) (c :: r)) as sw eqn:Hsw.
    intros [= <- <-] H. change (c :: r ++ b) with ((c :: r) ++ b).
    rewrite skip_while_app_inner by (rewrite <- Hsw; exact H).
    rewrite <- Hsw. reflexivity.
  - remember (skip_while is_word_char (c :: r)) as sw eqn:Hsw.
    intros [= <- <-] H. change (c :: r ++ b) with ((c :: r) ++ b).
    rewrite skip_while_app_inner by (rewrite <- Hsw; exact H).
    rewrite <- Hsw. unfold run_len. rewrite !length_app. do 2 f_equal. lia.
  - remember (skip_while (is_number_char hex) (c :: r)) as sw eqn:Hsw.
    intros [= <- <-] H. change (c :: r ++ b) with ((c :: r) ++ b).
    rewrite skip_while_app_inner by (rewrite <- Hsw; exact H).
    rewrite <- Hsw. unfold run_len. rewrite !length_app. do 2 f_equal. lia.
  - destruct r as [|next r2]; [intros [= <- <-]; congruence|].
    cbn [app]. destruct (op_pair c next ops); [|intros [= <- <-]; reflexivity].
    destruct r2 as [|e r3]; [intros [= <- <-]; congruence|].
    cbn [app]. destruct (Ascii.eqb e "="); intros [= <- <-]; reflexivity.
  - intros [= <- <-] H. reflexivity.
  - intros [= <- <-] H. reflexivity.
Qed.

Lemma not_space_split_right a b c :
  whitespace_split a b = true -> last a = Some c ->
  isspace (byte_val c) = false ->
  exists x b', b = x :: b' /\ isspace (byte_val x) = true.
Proof.
  unfold whitespace_split, ends_with_space, starts_with_space.
  intros H Hl Hc. rewrite Hl, Hc in H. simpl in H.
  destruct b as [|x b']; [discriminate|]. eauto.
Qed.

Lemma cat_not_space c k :
  categorize c = k -> k <> WHITESPACE -> k <> NEWLINE ->
  isspace (byte_val c) = false.
Proof.
  intros Hc H1 H2. destruct (isspace (byte_val c)) eqn:E; [|reflexivity].
  apply space_category in E. destruct E; congruence.
Qed.

Lemma run_continues_false_l a b c :
  last a = Some c -> categorize c <> WHITESPACE -> run_continues a b = false.
Proof.
  intros Hl Hc. unfold run_continues. rewrite Hl. destruct b; [reflexivity|].
  destruct (is_cat WHITESPACE c) eqn:E; [|reflexivity].
  apply is_cat_categorize in E. congruence.
Qed.

(** The last run of [a] in the scan of [a ++ b]. *)
Lemma scan_run_app_last a b credit :
  a <> [] -> scan_run hex ops a = (credit, []) ->
  whitespace_split a b = true ->
  scan_run hex ops (a ++ b) =
    (if run_continues a b then scan_run hex ops b else (credit, b)) /\
  (run_continues a b = true -> credit = 1 /\ b <> []).
Proof.
  destruct a as [|c r]; [congruence|]. intros _.
  cbn [app]. unfold scan_run at 1 2. destruct (categorize c) eqn:Hc.
  - (* WHITESPACE *)
    remember (skip_while (is_cat WHITESPACE) (c :: r)) as sw eqn:Hs.
    intros [= <- ->] Hsplit. symmetry in Hs.
    change (c :: r ++ b) with ((c :: r) ++ b).
    rewrite (skip_while_app_all _ _ b Hs).
    destruct (last_cons_some c r) as [d Hl].
    pose proof (skip_while_all _ _ Hs d Hl) as Hd.
    unfold run_continues. rewrite Hl, Hd. destruct b as [|x b'].
    + split; [reflexivity|discriminate].
    + cbn [andb]. destruct (is_cat WHITESPACE x) eqn:Hx.
      * split; [|intros _; split; congruence].
        unfold scan_run. rewrite (proj1 (is_cat_categorize _ _) Hx). reflexivity.
      * rewrite skip_while_stop by exact Hx. split; [reflexivity|discriminate].
  - (* LETTER *)
    remember (skip_while is_word_char (c :: r)) as sw eqn:Hs.
    intros [= <- ->] Hsplit. symmetry in Hs.
    destruct (last_cons_some c r) as [d Hl].
    pose proof (skip_while_all _ _ Hs d Hl) as Hd.
    assert (Hnd : isspace (byte_val d) = false).
    { destruct (isspace (byte_val d)) eqn:E; [|reflexivity].
      apply space_not_word in E. congruence. }
    destruct (not_space_split_right _ _ _ Hsplit Hl Hnd) as (x & b' & -> & Hx).
    rewrite (run_continues_false_l _ _ d Hl).
    2:{ intros E. rewrite (proj2 (space_category d) (or_introl E)) in Hnd. discriminate. }
    split; [|discriminate].
    change (c :: r ++ x :: b') with ((c :: r) ++ x :: b').
    rewrite (skip_while_app_all _ _ _ Hs).
    rewrite skip_while_stop by (apply space_not_word; exact Hx).
    unfold run_len. rewrite !length_app. do 2 f_equal. simpl. lia.
  - (* DIGIT *)
    remember (skip_while (is_number_char hex) (c :: r)) as sw eqn:Hs.
    intros [= <- ->] Hsplit. symmetry in Hs.
    destruct (last_cons_some c r) as [d Hl].
    pose proof (skip_while_all _ _ Hs d Hl) as Hd.
    assert (Hnd : isspace (byte_val d) = false).
    { destruct (isspace (byte_val d)) eqn:E; [|reflexivity].
      apply (space_not_number hex) in E. congruence. }
    destruct (not_space_split_right _ _ _ Hsplit Hl Hnd) as (x & b' & -> & Hx).
    rewrite (run_continues_false_l _ _ d Hl).
    2:{ intros E. rewrite (proj2 (space_category d) (or_introl E)) in Hnd. discriminate. }
    split; [|discriminate].
    change (c :: r ++ x :: b') with ((c :: r) ++ x :: b').
    rewrite (skip_while_app_all _ _ _ Hs).
    rewrite skip_while_stop by (apply space_not_number; exact Hx).
    unfold run_len. rewrite !length_app. do 2 f_equal. simpl. lia.
  - (* PUNCTUATION *)
    assert (Hnc : isspace (byte_val c) = false)
      by (apply (cat_not_space c PUNCTUATION); [exact Hc|discriminate|discriminate]).
    destruct r as [|next r2].
    + intros [= <-] Hsplit.
      rewrite (run_continues_false_l [c] b c eq_refl) by congruence.
      split; [|discriminate].
      destruct b as [|x b']; [reflexivity|].
      destruct (not_space_split_right _ _ _ Hsplit eq_refl Hnc) as (x' & b'' & [= <- <-] & Hx).
      cbn [app]. rewrite (ops_no_space c x Hx). reflexivity.
    + destruct (op_pair c next ops) eqn:Hop; [|intros [= <- ?]; discriminate].
      assert (Hnn : isspace (byte_val next) = false).
      { destruct (isspace (byte_val next)) eqn:E; [|reflexivity].
        rewrite (ops_no_space c next E) in Hop. discriminate. }
      destruct r2 as [|e r3].
      * intros [= <-] Hsplit. cbn [app]. rewrite Hop.
        rewrite (run_continues_false_l [c; next] b next eq_refl).
        2:{ intros E. rewrite (proj2 (space_category next) (or_introl E)) in Hnn. discriminate. }
        split; [|discriminate].
        destruct b as [|x b']; [reflexivity|].
        destruct (not_space_split_right [c; next] _ next Hsplit eq_refl Hnn)
          as (x' & b'' & [= <- <-] & Hx).
        rewrite (space_not_equals x Hx). reflexivity.
      * destruct (Ascii.eqb e "=") eqn:He; [|intros [= <- ?]; discriminate].
        intros [= <- ->] Hsplit. cbn [app]. rewrite Hop, He.
        rewrite (run_continues_false_l [c; next; e] b e eq_refl);
          [split; [reflexivity|discriminate]|].
        apply Ascii.eqb_eq in He. subst e. vm_compute. discriminate.
  - (* NEWLINE *)
    intros [= <- ->] Hsplit.
    rewrite (run_continues_false_l [c] b c eq_refl) by congruence.
    split; [reflexivity|discriminate].
  - (* OTHER *)
    intros [= <- ->] Hsplit.
    rewrite (run_continues_false_l [c] b c eq_refl) by congruence.
    split; [reflexivity|discriminate].
Qed.

Lemma tokens_app_split a b :
  whitespace_split a b = true ->
  tokens hex ops (a ++ b) =
  tokens hex ops a + tokens hex ops b - (if run_continues a b then 1 else 0).
Proof.
  remember (length a) as n eqn:Hn. revert a Hn.
  induction n as [n IH] using lt_wf_ind. intros a Hn Hsplit.
  destruct a as [|c r].
  - simpl. rewrite tokens_nil. unfold run_continues. simpl. lia.
  - destruct (scan_run hex ops (c :: r)) as [credit a'] eqn:E.
    pose proof (scan_run_bounds hex ops c r credit a' E) as [Hlen _].
    destruct (scan_run_suffix c r) as [pre Hpre]. rewrite E in Hpre. simpl in Hpre.
    rewrite (tokens_cons hex ops c r), E. cbn [fst snd].
    destruct a' as [|c' r'].
    + (* the last run of [a] *)
      pose proof (scan_run_app_last (c :: r) b credit ltac:(congruence) E Hsplit)
        as [H Hc].
      rewrite tokens_nil. cbn [app] in *.
      rewrite (tokens_cons hex ops c (r ++ b)), H.
      destruct (run_continues (c :: r) b).
      * destruct (Hc eq_refl) as [-> Hb]. destruct b as [|x b']; [congruence|].
        rewrite (tokens_cons hex ops x b'). lia.
      * cbn [fst snd]. lia.
    + (* an inner run *)
      pose proof (scan_run_app_inner (c :: r) b credit (c' :: r') E ltac:(congruence)) as H.
      cbn [app] in H. cbn [app]. rewrite (tokens_cons hex ops c (r ++ b)), H.
      cbn [fst snd].
      assert (Hlast : last (c :: r) = last (c' :: r')).
      { rewrite Hpre. apply last_app_keep. congruence. }
      change (c' :: r' ++ b) with ((c' :: r') ++ b).
      rewrite (IH (length (c' :: r')) ltac:(subst n; simpl in *; lia) (c' :: r') eq_refl).
      * unfold run_continues. rewrite Hlast. lia.
      * unfold whitespace_split, ends_with_space in *. rewrite <- Hlast. exact Hsplit.
Qed.

End Split.

Lemma find_loop_runs target len fuel s tc last_good_pos :
  (length s <= fuel)%nat -> (0 < length s <= len)%nat ->
  0 <= tc < target -> tc + Z.of_nat (length s) < 2 ^ 32 ->
  exists before credit after,
    runs_from false boundary_ops fuel len s =
      before ++ (find_loop fuel len s tc target last_good_pos, credit) :: after /\
    tc + sum_credits before < target /\
    (target <= tc + sum_credits before + credit \/ after = []) /\
    (find_loop fuel len s tc target last_good_pos < len)%nat.
Proof.
  revert s tc last_good_pos.
  induction fuel as [|fuel IH]; intros s tc lgp Hf Hs Htc Hw.
  - lia.
  - destruct s as [|c r]; [simpl in Hs; lia|].
    cbn [find_loop runs_from].
    destruct (Z.ltb_spec tc target) as [_|]; [|lia].
    destruct (scan_run false boundary_ops (c :: r)) as [credit s'] eqn:E.
    pose proof (scan_run_bounds _ _ _ _ _ _ E) as [Hlen Hcr].
    rewrite u32_small by (simpl length in *; lia).
    destruct (decide (s' <> [] /\ tc + credit < target)) as [[Hs' Hlt]|Hstop].
    + destruct (IH s' (tc + credit) (len - length (c :: r))%nat) as
        (before & cr & after & Hruns & Hsum & Hreach & Hpos).
      * simpl in *; lia.
      * destruct s'; [congruence|]. simpl in *; lia.
      * lia.
      * simpl length in *. lia.
      * exists (((len - length (c :: r))%nat, credit) :: before), cr, after.
        rewrite Hruns. simpl sum_credits. cbn [snd].
        split; [reflexivity|]. split; [lia|]. split; [|exact Hpos].
        destruct Hreach as [H|H]; [left; lia|right; exact H].
    + assert (Hret : find_loop fuel len s' (tc + credit) target
                       (len - length (c :: r))%nat = (len - length (c :: r))%nat).
      { destruct fuel as [|fuel']; [reflexivity|]. destruct s' as [|c' r']; [reflexivity|].
        cbn [find_loop]. destruct (Z.ltb_spec (tc + credit) target) as [Hlt|]; [|reflexivity].
        exfalso. apply Hstop. split; [congruence|exact Hlt]. }
      rewrite Hret.
      exists [], credit, (runs_from false boundary_ops fuel len s').
      split; [reflexivity|]. simpl sum_credits.
      split; [lia|]. split; [|simpl length in *; lia].
      destruct (decide (tc + credit < target)) as [Hlt|Hge]; [|left; lia].
      right. destruct s' as [|c' r'].
      * destruct fuel; reflexivity.
      * exfalso. apply Hstop. split; [congruence|exact Hlt].
Qed.

(** The fuel of [estimate_tokens] and [find_boundary] is the length of the
    text: both loops end on the text, not on the fuel. *)
Lemma estimate_loop_fuel fuel s tc :
  (length s <= fuel)%nat ->
  estimate_loop (S fuel) s tc = estimate_loop fuel s tc.
Proof.
  revert s tc. induction fuel as [|fuel IH]; intros s tc Hf.
  - destruct s; [reflexivity|simpl in Hf; lia].
  - destruct s as [|c r]; [reflexivity|].
    cbn [estimate_loop].
    destruct (scan_run true estimate_ops (c :: r)) as [credit s'] eqn:E.
    apply scan_run_bounds in E as [E _].
    apply IH. simpl in Hf. lia.
Qed.

Lemma find_loop_fuel fuel len s tc target last_good_pos :
  (length s <= fuel)%nat ->
  find_loop (S fuel) len s tc target last_good_pos =
  find_loop fuel len s tc target last_good_pos.
Proof.
  revert s tc last_good_pos. induction fuel as [|fuel IH]; intros s tc lgp Hf.
  - destruct s; [reflexivity|simpl in Hf; lia].
  - destruct s as [|c r]; [reflexivity|].
    cbn [find_loop]. destruct (tc <? target); [|reflexivity].
    destruct (scan_run false boundary_ops (c :: r)) as [credit s'] eqn:E.
    apply scan_run_bounds in E as [E _].
    apply IH. simpl in Hf. lia.
Qed.

(** C7, amended. For texts [a] and [b] whose split point falls at white
    space ([a] ends or [b] starts with a white-space byte) and whose
    concatenation is shorter than 2^32 bytes (the 32-bit token counter does
    not wrap),
    [count_tokens a + count_tokens b - 1 <= count_tokens (a ++ b)
     <= count_tokens a + count_tokens b + 1]. *)
Theorem count_tokens_split_additive (a b : list ascii) :
  Z.of_nat (length (a ++ b)) < 2 ^ 32 ->
  whitespace_split a b = true ->
  count_tokens a + count_tokens b - 1 <= count_tokens (a ++ b)
  <= count_tokens a + count_tokens b + 1.
Proof.
  intros Hlen Hsplit. rewrite length_app in Hlen. unfold count_tokens.
  rewrite !estimate_tokens_tokens by (rewrite ?length_app; lia).
  rewrite (tokens_app_split true estimate_ops estimate_ops_no_space a b Hsplit).
  destruct (run_continues a b); lia.
Qed.

Lemma count_tokens_split_additive_witness :
  count_tokens (str "return ") + count_tokens (str "x;") - 1
  <= count_tokens (str "return " ++ str "x;")
  <= count_tokens (str "return ") + count_tokens (str "x;") + 1.
Proof.
  apply (count_tokens_split_additive (str "return ") (str "x;")).
  - vm_compute. reflexivity.
  - reflexivity.
Defined.

(** Without white space at the split point the bound of C7 fails: a number
    run continues across the split. *)
Example count_tokens_number_split :
  count_tokens (str "1") = 1 /\
  count_tokens (str "+1+1+1+1") = 4 /\
  count_tokens (str "1" ++ str "+1+1+1+1") = 3.
Proof. vm_compute. auto. Qed.

Lemma u32_u32_add x y : u32 (u32 x + y) = u32 (x + y).
Proof. unfold u32. apply Zplus_mod_idemp_l. Qed.

(** A run of [n] newlines is counted one token each on the 32-bit counter,
    which wraps. *)
Lemma estimate_loop_newlines n rest fuel tc :
  estimate_loop (n + fuel) (repeat "010"%char n ++ rest) (u32 tc) =
  estimate_loop fuel rest (u32 (tc + Z.of_nat n)).
Proof.
  revert tc. induction n as [|n IH]; intros tc.
  - cbn [repeat Nat.add app]. rewrite Z.add_0_r. reflexivity.
  - change (estimate_loop (S n + fuel) (repeat "010"%char (S n) ++ rest)
              (u32 tc))
      with (estimate_loop (n + fuel) (repeat "010"%char n ++ rest)
              (u32 (u32 tc + 1))).
    rewrite u32_u32_add, IH. f_equal. f_equal. lia.
Qed.

Lemma count_tokens_newlines n rest :
  count_tokens (repeat "010"%char n ++ rest) =
  estimate_loop (length rest) rest (u32 (Z.of_nat n)).
Proof.
  unfold count_tokens, estimate_tokens.
  rewrite length_app, repeat_length.
  change 0 with (u32 0) at 1. rewrite estimate_loop_newlines. reflexivity.
Qed.

Lemma count_tokens_newlines_wrap n :
  Z.of_nat n = 2 ^ 32 - 1 ->
  whitespace_split (repeat "010"%char n) (str " x") = true /\
  count_tokens (repeat "010"%char n) = 2 ^ 32 - 1 /\
  count_tokens (str " x") = 2 /\
  count_tokens (repeat "010"%char n ++ str " x") = 1 /\
  ~ (count_tokens (repeat "010"%char n) + count_tokens (str " x") - 1
     <= count_tokens (repeat "010"%char n ++ str " x")
     <= count_tokens (repeat "010"%char n) + count_tokens (str " x") + 1).
Proof.
  intros Hn.
  generalize (count_tokens_newlines n []).
  generalize (count_tokens_newlines n (str " x")).
  rewrite app_nil_r, Hn.
  generalize (repeat "010"%char n). intros a Hab Ha.
  assert (Hb : count_tokens (str " x") = 2) by (vm_compute; reflexivity).
  assert (Ha' : count_tokens a = 2 ^ 32 - 1) by (rewrite Ha; reflexivity).
  assert (Hab' : count_tokens (a ++ str " x") = 1)
    by (rewrite Hab; vm_compute; reflexivity).
  split.
  - unfold whitespace_split. apply orb_true_iff. right. reflexivity.
  - split; [exact Ha'|]. split; [exact Hb|]. split; [exact Hab'|].
    rewrite Ha', Hb, Hab'. lia.
Qed.

Lemma wrap_length_nonneg : 0 <= 2 ^ 32 - 1.
Proof. lia. Qed.

(** C7 as stated (for all strings) fails on the code: [count_tokens]
    counts in a [uint32_t], which wraps. With [a] made of 2^32 - 1
    newlines and [b] a space and a letter, the split point is at white
    space, the counts of [a] and [b] are 2^32 - 1 and 2, and the count of
    [a ++ b] is 1. *)
Lemma count_tokens_split_wraps :
  whitespace_split (repeat "010"%char (Z.to_nat (2 ^ 32 - 1))) (str " x")
    = true /\
  count_tokens (repeat "010"%char (Z.to_nat (2 ^ 32 - 1))) = 2 ^ 32 - 1 /\
  count_tokens (str " x") = 2 /\
  count_tokens (repeat "010"%char (Z.to_nat (2 ^ 32 - 1)) ++ str " x") = 1 /\
  ~ (count_tokens (repeat "010"%char (Z.to_nat (2 ^ 32 - 1)))
     + count_tokens (str " x") - 1
     <= count_tokens (repeat "010"%char (Z.to_nat (2 ^ 32 - 1)) ++ str " x")
     <= count_tokens (repeat "010"%char (Z.to_nat (2 ^ 32 - 1)))
        + count_tokens (str " x") + 1).
Proof.
  exact (count_tokens_newlines_wrap (Z.to_nat (2 ^ 32 - 1))
           (Z2Nat.id (2 ^ 32 - 1) wrap_length_nonneg)).
Qed.

(** C2 fails on the code. For a text that fits within the target the
    boundary should be the size of the text; [find_token_boundary] returns
    the offset at which the last run of the text starts, because
    [last_good_pos] is set when a run begins and never after the last
    one: 0, not 1, for a one-letter text with its own token count as the
    target; 0, not 5, for [hello] (two tokens) with target 100; 2, not 3,
    for [a b] with its own token count. *)
Theorem find_boundary_fitting_text :
  (count_tokens (str "a") = 1 /\
   find_token_boundary (str "a") (count_tokens (str "a")) = 0%nat /\
   length (str "a") = 1%nat) /\
  (count_tokens (str "hello") = 2 /\
   find_token_boundary (str "hello") 100 = 0%nat /\
   length (str "hello") = 5%nat) /\
  (count_tokens (str "a b") = 3 /\
   find_token_boundary (str "a b") (count_tokens (str "a b")) = 2%nat /\
   length (str "a b") = 3%nat).
Proof. vm_compute. repeat split; reflexivity. Qed.

(** The same for every text and target: on a non-empty text shorter than
    2^32 bytes and a positive target, [find_token_boundary] returns the
    offset at which one of the runs of its scan starts: the running count
    before that run is below the target, and the run is the one that
    brings the count to the target or above or else the last run of the
    text. The offset is therefore smaller than the size of the text. *)
Theorem find_boundary_last_run (text : list ascii) (target : Z) :
  text <> [] -> 0 < target -> Z.of_nat (length text) < 2 ^ 32 ->
  exists before credit after,
    boundary_runs text =
      before ++ (find_token_boundary text target, credit) :: after /\
    sum_credits before < target /\
    (target <= sum_credits before + credit \/ after = []) /\
    (find_token_boundary text target < length text)%nat.
Proof.
  intros Hne Htarget Hlen. unfold find_token_boundary, find_boundary.
  destruct text as [|c r]; [congruence|].
  destruct (Z.eqb_spec target 0) as [|_]; [lia|].
  destruct (find_loop_runs target (length (c :: r)) (length (c :: r)) (c :: r)
              0 0%nat) as (before & credit & after & H1 & H2 & H3 & H4).
  - lia.
  - simpl. lia.
  - lia.
  - lia.
  - exists before, credit, after. unfold boundary_runs.
    split; [exact H1|]. split; [lia|]. split; [|exact H4].
    destruct H3 as [H3|H3]; [left; lia|right; exact H3].
Qed.

Lemma find_boundary_last_run_witness :
  exists before credit after,
    boundary_runs (str "hello == world") =
      before ++ (find_token_boundary (str "hello == world") 3, credit)
             :: after /\
    sum_credits before < 3 /\
    (3 <= sum_credits before + credit \/ after = []) /\
    (find_token_boundary (str "hello == world") 3
     < length (str "hello == world"))%nat.
Proof.
  apply (find_boundary_last_run (str "hello == world") 3).
  - discriminate.
  - lia.
  - vm_compute. reflexivity.
Defined.

(** C8 as stated fails on the code: the count is 7, not 5 (a word of five
    letters is credited two tokens). *)
Lemma hello_world_count_not_five :
  count_tokens (str "hello == world") = 7 /\ 7 <> 5.
Proof. split; [vm_compute; reflexivity|lia]. Qed.

(** C8, amended. [count_tokens "hello == world"] is 7 (the words [hello]
    and [world] two tokens each, the two white-space runs and the operator
    one each), and [find_token_boundary] for 3 tokens is 5, the offset of
    the space after [hello]. *)
Theorem hello_world_tokens :
  count_tokens (str "hello == world") = 7 /\
  find_token_boundary (str "hello == world") 3 = 5%nat /\
  take 5 (str "hello == world") = str "hello" /\
  str "hello == world" !! 5%nat = Some " "%char.
Proof. vm_compute. auto. Qed.

End TokenizerFacts.

(** ** Ordered maps *)

Section OrdMapFacts.
Context {V : Type}.
Implicit Types (k : string) (v : V) (m : list (string * V)).

Lemma compare_refl k : String.compare k k = Eq.
Proof.
  pose proof (String.compare_antisym k k) as H.
  destruct (String.compare k k); simpl in H; congruence.
Qed.

Lemma find_insert k v m : OrdMap.find k (OrdMap.insert k v m) = Some v.
Proof.
  induction m as [|[k' v'] m IH]; simpl.
  - rewrite compare_refl. reflexivity.
  - destruct (String.compare k k') eqn:E; simpl.
    + rewrite compare_refl. reflexivity.
    + rewrite compare_refl. reflexivity.
    + rewrite E. exact IH.
Qed.

Lemma insert_insert k v v' m :
  OrdMap.insert k v (OrdMap.insert k v' m) = OrdMap.insert k v m.
Proof.
  induction m as [|[k' w] m IH]; simpl.
  - rewrite compare_refl. reflexivity.
  - destruct (String.compare k k') eqn:E; simpl.
    + rewrite compare_refl. reflexivity.
    + rewrite compare_refl. reflexivity.
    + rewrite E, IH. reflexivity.
Qed.

Lemma erase_insert k v m :
  OrdMap.erase k (OrdMap.insert k v m) = OrdMap.erase k m.
Proof.
  induction m as [|[k' w] m IH]; simpl.
  - rewrite compare_refl. reflexivity.
  - destruct (String.compare k k') eqn:E; simpl.
    + rewrite compare_refl. reflexivity.
    + rewrite compare_refl. reflexivity.
    + rewrite E, IH. reflexivity.
Qed.

Lemma erase_absent k m : OrdMap.find k m = None -> OrdMap.erase k m = m.
Proof.
  induction m as [|[k' w] m IH]; simpl; [reflexivity|].
  destruct (String.compare k k'); [discriminate|reflexivity|].
  intros H. rewrite IH by exact H. reflexivity.
Qed.

Lemma insert_find k v m : OrdMap.find k m = Some v -> OrdMap.insert k v m = m.
Proof.
  induction m as [|[k' w] m IH]; simpl; [discriminate|].
  destruct (String.compare k k') eqn:E.
  - apply String.compare_eq_iff in E. subst k'. intros [= ->]. reflexivity.
  - discriminate.
  - intros H. rewrite IH by exact H. reflexivity.
Qed.

End OrdMapFacts.

(** ** Bytes, the Merkle tree and its serialization *)

#[local] Abbreviation serialize_children :=
  (flat_map (fun kc : string * Merkle.MerkleNode =>
               Merkle.serialize_node (snd kc))).

Section MerkleFacts.
Import Merkle.

Lemma remove_at_cons d rest n h f ch :
  rest <> [] ->
  remove_at (d :: rest) (Node n h f ch) =
  match OrdMap.find d ch with
  | None => (false, Node n h f ch)
  | Some child =>
      let '(erased, child') := remove_at rest child in
      (erased, Node n h f (OrdMap.insert d child' ch))
  end.
Proof. destruct rest; [congruence|reflexivity]. Qed.

Lemma add_remove_at dirs leaf h node parent :
  find_at dirs node = Some parent ->
  OrdMap.find leaf (children parent) = None ->
  snd (remove_at (dirs ++ [leaf])
         (update_at (dirs ++ [leaf]) (set_leaf h)
            (create_path (dirs ++ [leaf]) true node))) = node.
Proof.
  revert node. induction dirs as [|d dirs IH]; intros [n hh f ch] Hfind Habs.
  - simpl in Hfind. injection Hfind as <-. simpl in Habs.
    cbn [app create_path]. rewrite Habs, find_insert, insert_insert.
    cbn [update_at]. rewrite find_insert, insert_insert.
    cbn [remove_at snd]. rewrite erase_insert, erase_absent by exact Habs.
    reflexivity.
  - cbn [find_at children] in Hfind.
    destruct (OrdMap.find d ch) as [child|] eqn:Hd; [|discriminate].
    change ((d :: dirs) ++ [leaf]) with (d :: (dirs ++ [leaf])).
    cbn [create_path]. rewrite Hd, Hd.
    cbn [update_at]. rewrite find_insert, (insert_insert d).
    rewrite remove_at_cons by (destruct dirs; discriminate).
    rewrite find_insert.
    specialize (IH child Hfind Habs).
    destruct (remove_at (dirs ++ [leaf]) _) as [erased child'].
    cbn [snd] in *. subst child'.
    rewrite (insert_insert d), insert_find by exact Hd. reflexivity.
Qed.

Lemma compute_node_hash_stored node :
  hash (snd (compute_node_hash node)) = fst (compute_node_hash node).
Proof. destruct node as [n h [] ch]; reflexivity. Qed.

Lemma build_dirty ops : ops <> [] -> dirty (build ops) = true.
Proof.
  destruct ops as [|op ops _] using rev_ind; [congruence|]. intros _.
  unfold build. rewrite fold_left_app. simpl. destruct op; reflexivity.
Qed.

Lemma build_root_hash ops :
  fst (root_hash (build ops)) = fst (compute_node_hash (root (build ops))).
Proof.
  destruct ops as [|op ops]; [reflexivity|].
  unfold root_hash. rewrite build_dirty by discriminate.
  cbn [fst]. apply compute_node_hash_stored.
Qed.

Lemma add_remove_root p h t :
  fresh_in_existing_dir (split_path p) (root t) ->
  root (remove_file p (add_file p h t)) = root t.
Proof.
  intros (dirs & leaf & parent & Hp & Hfind & Habs).
  unfold remove_file, add_file, remove_node, get_or_create_node.
  cbn [root]. rewrite Hp. apply (add_remove_at dirs leaf h _ parent Hfind Habs).
Qed.


(** C3 as stated fails on the code: [add_file] creates the directory [d],
    [remove_file] leaves it in place, and the empty directory is folded
    into the root hash. *)
Lemma add_remove_new_dir :
  root (build [AddFile "d/a" 5; RemoveFile "d/a"]) =
    Node EmptyString 0 false [("d"%string, Node "d" 0 false [])] /\
  fst (root_hash (build [AddFile "d/a" 5; RemoveFile "d/a"])) = PRIME /\
  fst (root_hash (build [])) = 0.
Proof. vm_compute. auto. Qed.

(** C3, amended. For a tree built by a sequence of [add_file] and
    [remove_file] operations and a path whose directories all exist in the
    tree and which is itself absent from it (any new top-level file, for
    one), [add_file] followed by [remove_file] restores the root node, and
    the root hash equals that of the tree built without the two
    operations. *)
Theorem add_remove_in_existing_dir (ops : list tree_op) (p : string) (h : Z) :
  fresh_in_existing_dir (split_path p) (root (build ops)) ->
  root (build (ops ++ [AddFile p h; RemoveFile p])) = root (build ops) /\
  fst (root_hash (build (ops ++ [AddFile p h; RemoveFile p]))) =
  fst (root_hash (build ops)).
Proof.
  intros Hfresh.
  assert (Hroot : root (build (ops ++ [AddFile p h; RemoveFile p])) =
                  root (build ops)).
  { unfold build. rewrite fold_left_app. cbn [fold_left apply_op].
    apply add_remove_root. exact Hfresh. }
  split; [exact Hroot|]. rewrite !build_root_hash, Hroot. reflexivity.
Qed.

Lemma add_remove_in_existing_dir_witness :
  root (build ([AddFile "src/a.c" 1] ++
               [AddFile "src/b.c" 2; RemoveFile "src/b.c"])) =
    root (build [AddFile "src/a.c" 1]) /\
  fst (root_hash (build ([AddFile "src/a.c" 1] ++
                         [AddFile "src/b.c" 2; RemoveFile "src/b.c"]))) =
  fst (root_hash (build [AddFile "src/a.c" 1])).
Proof.
  apply (add_remove_in_existing_dir [AddFile "src/a.c" 1] "src/b.c" 2).
  exists ["src"%string], "b.c"%string,
         (Node "src" 0 false [("a.c"%string, Node "a.c" 1 true [])]).
  split; [reflexivity|]. split; reflexivity.
Defined.

(** Bytes and little-endian integers *)

Lemma byte_val_range c : 0 <= byte_val c < 256.
Proof.
  unfold byte_val. pose proof (N_ascii_bounded c) as H. lia.
Qed.

Lemma byte_val_of x : byte_val (byte_of x) = x mod 256.
Proof.
  unfold byte_val, byte_of. rewrite N_ascii_embedding.
  - rewrite Z2N.id; [reflexivity|]. apply Z.mod_pos_bound. lia.
  - pose proof (Z.mod_pos_bound x 256 ltac:(lia)). lia.
Qed.

Lemma length_write_le n x : length (write_le n x) = n.
Proof. revert x. induction n as [|n IH]; intros x; simpl; [reflexivity|]. rewrite IH. reflexivity. Qed.

Lemma read_write_le n x rest :
  read_le n (write_le n x ++ rest) = x mod 256 ^ Z.of_nat n.
Proof.
  revert x. induction n as [|n IH]; intros x.
  - simpl. rewrite Z.mod_1_r. reflexivity.
  - cbn [write_le app read_le]. rewrite byte_val_of, IH.
    rewrite Nat2Z.inj_succ, Z.pow_succ_r by lia.
    rewrite (Z.rem_mul_r x 256 (256 ^ Z.of_nat n)) by lia. reflexivity.
Qed.

Lemma read_le_app n p x :
  (n <= length p)%nat -> read_le n (p ++ x) = read_le n p.
Proof.
  revert p. induction n as [|n IH]; intros p Hn; [destruct p; reflexivity|].
  destruct p as [|c p]; [simpl in Hn; lia|].
  cbn [app read_le]. rewrite IH by (simpl in Hn; lia). reflexivity.
Qed.

Lemma length_list_ascii_of_string s :
  length (list_ascii_of_string s) = String.length s.
Proof. induction s as [|c s IH]; simpl; [reflexivity|]. rewrite IH. reflexivity. Qed.

#[local] Arguments read_le : simpl never.

Lemma deserialize_node_unfold fuel data :
  deserialize_node (S fuel) data =
  match parse_header data with
  | None => Failed
  | Some (name, hash, is_file, child_count, data') =>
      match children_loop (deserialize_node fuel) child_count fuel 0 data' [] with
      | Done (ch, rest) => Done (Node name hash is_file ch, rest)
      | Failed => Failed
      | OutOfFuel => OutOfFuel
      end
  end.
Proof.
  cbn [deserialize_node]. unfold parse_header.
  repeat match goal with
         | |- context [if ?b then _ else _] => destruct b; [reflexivity|]
         end.
  destruct (drop 8 _) as [|b rest]; [reflexivity|].
  destruct (length rest <? 4)%nat; reflexivity.
Qed.

Lemma parse_header_length data nm h f cc data' :
  parse_header data = Some (nm, h, f, cc, data') ->
  (length data' + 17 <= length data)%nat.
Proof.
  unfold parse_header.
  destruct (Nat.ltb_spec (length data) 4); [discriminate|].
  destruct (Nat.ltb_spec (length (drop 4 data)) (Z.to_nat (read_le 4 data)));
    [discriminate|].
  destruct (Nat.ltb_spec
    (length (drop (Z.to_nat (read_le 4 data)) (drop 4 data))) 8); [discriminate|].
  destruct (drop 8 _) as [|b rest] eqn:E; [discriminate|].
  destruct (Nat.ltb_spec (length rest) 4); [discriminate|].
  intros [= <- <- <- <- <-].
  apply (f_equal length) in E. rewrite !length_drop in *. simpl in E. lia.
Qed.


(** *** The fuel of [deserialize] always suffices *)

Lemma children_loop_total rec child_count bound k i data ch :
  (forall d, (length d < bound)%nat -> consumes d (rec d)) ->
  (length data < bound)%nat -> (length data < k)%nat ->
  match children_loop rec child_count k i data ch with
  | Done (_, rest) => (length rest <= length data)%nat
  | Failed => True
  | OutOfFuel => False
  end.
Proof.
  intros Hrec. revert i data ch.
  induction k as [|k IH]; intros i data ch Hb Hk; [lia|].
  cbn [children_loop]. destruct (i <? child_count); [|simpl; lia].
  specialize (Hrec data Hb). destruct (rec data) as [[child data']| |];
    simpl in Hrec; [|exact I|exact Hrec].
  specialize (IH (i + 1) data' (OrdMap.insert (name child) child ch)
                 ltac:(lia) ltac:(lia)).
  destruct (children_loop _ _ _ _ _ _) as [[ch' rest]| |]; [lia|exact I|exact IH].
Qed.

Lemma deserialize_node_total fuel data :
  (length data < fuel)%nat -> consumes data (deserialize_node fuel data).
Proof.
  revert data. induction fuel as [|fuel IH]; intros data Hf; [lia|].
  rewrite deserialize_node_unfold.
  destruct (parse_header data) as [[[[[nm h] f] cc] data']|] eqn:E; [|exact I].
  apply parse_header_length in E.
  pose proof (children_loop_total (deserialize_node fuel) cc fuel fuel 0 data' []
                IH ltac:(lia) ltac:(lia)) as H.
  destruct (children_loop _ _ _ _ _ _) as [[ch rest]| |]; simpl; [lia|exact I|exact H].
Qed.

(** *** More fuel does not change a result *)




(** *** Bytes after a record do not change how it is read *)



(** *** A serialized tree is read back *)


Lemma MerkleNode_nested_ind (P : MerkleNode -> Prop) :
  (forall n h f ch, Forall (fun kc => P (snd kc)) ch -> P (Node n h f ch)) ->
  forall node, P node.
Proof.
  intros H. fix IH 1. intros [n h f ch]. apply H.
  induction ch as [|[k c] ch IHch]; constructor; [apply IH|exact IHch].
Qed.

Lemma drop_write_le n x rest : drop n (write_le n x ++ rest) = rest.
Proof.
  rewrite <- (length_write_le n x) at 1. apply drop_app_length.
Qed.

Lemma serialize_node_length node : (17 <= length (serialize_node node))%nat.
Proof.
  destruct node as [n h f ch]. cbn [serialize_node].
  rewrite !length_app, !length_write_le. simpl. lia.
Qed.

Lemma parse_header_serialize n h f ch rest :
  encodable (Node n h f ch) = true ->
  parse_header (serialize_node (Node n h f ch) ++ rest) =
  Some (n, h, f, Z.of_nat (length ch),
        flat_map (fun kc : string * MerkleNode => serialize_node (snd kc)) ch
        ++ rest).
Proof.
  cbn [encodable]. rewrite !andb_true_iff.
  intros [[[[Hn Hh0] Hh1] Hc] _].
  apply Z.ltb_lt in Hn, Hh1, Hc. apply Z.leb_le in Hh0.
  cbn [serialize_node]. rewrite <- !app_assoc. unfold parse_header.
  set (body := flat_map _ ch ++ rest).
  rewrite length_app, length_write_le.
  change (4 + _ <? 4)%nat with false. cbv iota.
  rewrite read_write_le, drop_write_le.
  change (256 ^ Z.of_nat 4) with (2 ^ 32).
  rewrite (u32_small (Z.of_nat (String.length n))) by lia.
  rewrite (Z.mod_small (Z.of_nat (String.length n))) by lia.
  rewrite Nat2Z.id, <- length_list_ascii_of_string.
  rewrite take_app_length, drop_app_length, string_of_list_ascii_of_string.
  rewrite length_app, length_list_ascii_of_string.
  match goal with
  | |- context [(?a <? ?b)%nat] =>
      destruct (Nat.ltb_spec a b) as [H|_]; [lia|]
  end.
  rewrite length_app, length_write_le.
  change (8 + _ <? 8)%nat with false. cbv iota.
  rewrite read_write_le, drop_write_le.
  change (256 ^ Z.of_nat 8) with (2 ^ 64). rewrite Z.mod_small by lia.
  cbn [app]. rewrite length_app, length_write_le.
  change (4 + _ <? 4)%nat with false. cbv iota.
  rewrite read_write_le, drop_write_le.
  change (256 ^ Z.of_nat 4) with (2 ^ 32).
  rewrite (u32_small (Z.of_nat (length ch))) by lia.
  rewrite (Z.mod_small (Z.of_nat (length ch))) by lia.
  destruct f; reflexivity.
Qed.

Lemma children_loop_serialize fuel child_count cs :
  Forall (fun kc => reads_back (snd kc)) cs ->
  Forall (fun kc => (length (serialize_node (snd kc)) <= fuel)%nat) cs ->
  forall k i acc rest,
    (length cs <= k)%nat -> i + Z.of_nat (length cs) = child_count ->
    exists acc',
      children_loop (deserialize_node fuel) child_count k i
        (flat_map (fun kc : string * MerkleNode => serialize_node (snd kc)) cs
         ++ rest) acc = Done (acc', rest).
Proof.
  induction cs as [|[key c] cs IH]; intros Hrb Hlen k i acc rest Hk Hi.
  - simpl in Hi. destruct k; cbn [children_loop];
      (destruct (Z.ltb_spec i child_count); [lia|]); exists acc; reflexivity.
  - apply Forall_cons in Hrb as [Hc Hrb]. apply Forall_cons in Hlen as [Hlc Hlen].
    destruct k as [|k]; [simpl in Hk; lia|].
    cbn [children_loop flat_map snd]. simpl length in Hi.
    destruct (Z.ltb_spec i child_count); [|lia].
    rewrite <- app_assoc.
    cbn [snd] in Hc, Hlc.
    destruct (Hc fuel (serialize_children cs ++ rest) Hlc) as [ch' ->].
    apply IH; [exact Hrb|exact Hlen|simpl in Hk; lia|lia].
Qed.

Lemma flat_map_serialize_length cs :
  (length cs <= length (flat_map
     (fun kc : string * MerkleNode => serialize_node (snd kc)) cs))%nat /\
  Forall (fun kc =>
    (length (serialize_node (snd kc)) <=
     length (flat_map
       (fun kc : string * MerkleNode => serialize_node (snd kc)) cs))%nat) cs.
Proof.
  induction cs as [|kc cs [IH1 IH2]]; [split; [simpl; lia|constructor]|].
  cbn [flat_map]. rewrite length_app.
  pose proof (serialize_node_length (snd kc)).
  split; [simpl; lia|]. constructor; [lia|].
  eapply Forall_impl; [exact IH2|]. simpl. intros; lia.
Qed.

Lemma encodable_reads_back node : encodable node = true -> reads_back node.
Proof.
  induction node as [n h f ch IH] using MerkleNode_nested_ind.
  intros Henc fuel rest Hfuel.
  pose proof (parse_header_serialize n h f ch rest Henc) as Hhdr.
  cbn [encodable] in Henc. rewrite !andb_true_iff in Henc.
  destruct Henc as [[[[_ _] _] Hc] Hch]. apply Z.ltb_lt in Hc.
  rewrite forallb_forall in Hch.
  destruct fuel as [|fuel].
  { pose proof (serialize_node_length (Node n h f ch)). lia. }
  rewrite deserialize_node_unfold, Hhdr. cbn [name hash is_file].
  destruct (flat_map_serialize_length ch) as [L1 L2].
  assert (Hbody : (length (flat_map
     (fun kc : string * MerkleNode => serialize_node (snd kc)) ch) + 17
     <= S fuel)%nat).
  { cbn [serialize_node] in Hfuel.
    rewrite !length_app, !length_write_le in Hfuel. simpl in Hfuel. lia. }
  destruct (children_loop_serialize fuel (Z.of_nat (length ch)) ch) with
    (k := fuel) (i := 0) (acc := @nil (string * MerkleNode)) (rest := rest)
    as [acc' ->].
  - rewrite Forall_forall in IH |- *. intros kc Hin. apply IH; [exact Hin|].
    apply Hch. apply list_elem_of_In. exact Hin.
  - eapply Forall_impl; [exact L2|]. simpl. intros; lia.
  - lia.
  - lia.
  - exists acc'. reflexivity.
Qed.

(** *** A truncated record is refused *)


Lemma deserialize_total data t : deserialize data t <> OutOfFuel.
Proof.
  unfold deserialize.
  destruct (length data <? 8)%nat; [discriminate|].
  destruct (negb _); [discriminate|]. destruct (negb _); [discriminate|].
  pose proof (deserialize_node_total (S (length data)) (drop 8 data)) as H.
  rewrite length_drop in H. specialize (H ltac:(lia)).
  destruct (deserialize_node _ _) as [[r rest]| |]; [discriminate|discriminate|].
  destruct H.
Qed.

Lemma deserialize_failure_keeps data t t' :
  deserialize data t = Done (false, t') -> t' = t.
Proof.
  unfold deserialize.
  destruct (length data <? 8)%nat; [congruence|].
  destruct (negb _); [congruence|]. destruct (negb _); [congruence|].
  destruct (deserialize_node _ _) as [[r rest]| |]; congruence.
Qed.



(** A tree without pending recomputation is restored with its root hash. *)
Lemma roundtrip_clean_tree t t0 :
  dirty t = false -> encodable (root t) = true ->
  exists t',
    deserialize (serialize t) t0 = Done (true, t') /\
    fst (root_hash t') = fst (root_hash t).
Proof.
  intros Hd Henc. unfold deserialize, serialize.
  rewrite !length_app, !length_write_le.
  change (4 + (4 + _) <? 8)%nat with false. cbv iota.
  assert (Hd8 : drop 8 (write_le 4 MAGIC ++ write_le 4 VERSION ++
                          serialize_node (root t)) = serialize_node (root t))
    by (rewrite app_assoc; apply drop_app_length'; reflexivity).
  rewrite Hd8, read_write_le, drop_write_le, read_write_le.
  change (negb (MAGIC mod 256 ^ Z.of_nat 4 =? MAGIC)) with false.
  change (negb (VERSION mod 256 ^ Z.of_nat 4 =? VERSION)) with false.
  cbv iota.
  destruct (encodable_reads_back (root t) Henc
              (S (4 + (4 + length (serialize_node (root t))))) []) as [ch H];
    [lia|].
  rewrite app_nil_r in H. rewrite H.
  eexists. split; [reflexivity|].
  unfold root_hash. rewrite Hd. reflexivity.
Qed.


(** C4, evaluated on a tree with a pending recomputation. [serialize]
    writes the stored hash of the root, which [add_file] has not updated,
    and [deserialize] marks the tree as clean: the restored tree reports
    the stale hash 0, the original reports [PRIME + 5]. *)
Example roundtrip_pending_stale :
  let t := add_file "a" 5 empty_tree in
  dirty t = true /\
  deserialize (serialize t) empty_tree =
    Done (true, {| root := root t; dirty := false |}) /\
  fst (root_hash {| root := root t; dirty := false |}) = 0 /\
  fst (root_hash t) = PRIME + 5.
Proof. vm_compute. auto. Qed.

End MerkleFacts.

(** ** File index *)

Section FileIndexFacts.
Import Merkle FileIndex.

Lemma read_scalar_full n old bytes :
  (n <= length bytes)%nat ->
  read_scalar n old {| unread := bytes; good := true |} =
  (read_le n bytes, {| unread := drop n bytes; good := true |}).
Proof.
  intros H. unfold read_scalar, stream_read. cbn [good unread].
  apply Nat.leb_le in H. rewrite H. f_equal.
  apply Nat.leb_le in H.
  rewrite length_take, Nat.min_l by lia.
  rewrite drop_ge by (rewrite length_write_le; lia).
  rewrite app_nil_r. rewrite <- (take_drop n bytes) at 2.
  rewrite read_le_app; [reflexivity|]. rewrite length_take. lia.
Qed.





End FileIndexFacts.

(** ** Rename detection and scan diff *)

Section IndexerFacts.
Import FileIndex Indexer.

Lemma path_set_fold files (s : gset string) p :
  p ∈ fold_left (fun s e => s ∪ {[path e]}) files s <->
  p ∈ s \/ p ∈ map path files.
Proof.
  revert s. induction files as [|e files IH]; intros s; simpl.
  - rewrite elem_of_nil. tauto.
  - rewrite IH, elem_of_union, elem_of_singleton, elem_of_cons. tauto.
Qed.

Lemma path_set_spec files p : p ∈ path_set files <-> p ∈ map path files.
Proof.
  unfold path_set. rewrite path_set_fold, elem_of_empty. tauto.
Qed.

Lemma path_set_has_path files p :
  bool_decide (p ∈ path_set files) = has_path files p.
Proof. unfold has_path. apply bool_decide_ext, path_set_spec. Qed.

Lemma path_map_fold files (m : gmap string FileEntry) p :
  (fold_left (fun m e => <[path e := e]> m) files m !! p = None <->
   m !! p = None /\ p ∉ map path files) /\
  (forall e, fold_left (fun m e => <[path e := e]> m) files m !! p = Some e ->
             m !! p = Some e \/ path e = p).
Proof.
  revert m. induction files as [|e files IH]; intros m; simpl.
  - split; [|auto]. rewrite elem_of_nil. tauto.
  - destruct (IH (<[path e := e]> m)) as [IH1 IH2]. split.
    + rewrite IH1, not_elem_of_cons, lookup_insert_None.
      intuition congruence.
    + intros e' H. apply IH2 in H as [H|H]; [|auto].
      apply lookup_insert_Some in H as [[? ->]|[_ H]]; auto.
Qed.

Lemma path_map_None files p :
  path_map files !! p = None <-> has_path files p = false.
Proof.
  unfold path_map, has_path.
  rewrite (proj1 (path_map_fold files ∅ p)), lookup_empty, bool_decide_eq_false.
  tauto.
Qed.

Lemma path_map_Some files p e : path_map files !! p = Some e -> path e = p.
Proof.
  intros H. apply (proj2 (path_map_fold files ∅ p)) in H as [H|H]; [|exact H].
  rewrite lookup_empty in H. discriminate.
Qed.

Lemma hash_buckets_fold files (m : gmap Z (list string)) h :
  fold_left
    (fun m entry =>
       if content_hash entry =? 0 then m
       else <[content_hash entry :=
                default [] (m !! content_hash entry) ++ [path entry]]> m)
    files m !! h =
  if (h =? 0) || match bucket files h with [] => true | _ => false end
  then m !! h
  else Some (default [] (m !! h) ++ bucket files h).
Proof.
  revert m. induction files as [|e files IH]; intros m.
  - simpl. rewrite orb_true_r. reflexivity.
  - cbn [fold_left]. rewrite IH. unfold bucket. cbn [List.filter].
    destruct (Z.eqb_spec h 0) as [Hh0|Hh0]; cbn [orb].
    + destruct (Z.eqb_spec (content_hash e) 0) as [|He0]; [reflexivity|].
      rewrite lookup_insert_ne by congruence. reflexivity.
    + destruct (Z.eqb_spec (content_hash e) h) as [Heq|Hne].
      * destruct (Z.eqb_spec (content_hash e) 0) as [|_]; [congruence|].
        rewrite Heq, lookup_insert_eq. cbn [map default].
        destruct (map path (List.filter _ files)) as [|q qs].
        -- reflexivity.
        -- unfold id. rewrite <- app_assoc. reflexivity.
      * destruct (Z.eqb_spec (content_hash e) 0) as [|He0]; [reflexivity|].
        rewrite lookup_insert_ne by exact Hne. reflexivity.
Qed.

Lemma hash_buckets_lookup files h :
  hash_buckets files !! h =
  if (h =? 0) || match bucket files h with [] => true | _ => false end
  then None else Some (bucket files h).
Proof.
  unfold hash_buckets. rewrite hash_buckets_fold, lookup_empty. reflexivity.
Qed.

Lemma hash_buckets_Some files h ps :
  hash_buckets files !! h = Some ps -> h <> 0 /\ ps = bucket files h.
Proof.
  rewrite hash_buckets_lookup. destruct (Z.eqb_spec h 0); [discriminate|].
  cbn [orb]. destruct (bucket files h) eqn:E; [discriminate|].
  intros [= <-]. auto.
Qed.

Lemma hash_buckets_None files h :
  hash_buckets files !! h = None -> h = 0 \/ bucket files h = [].
Proof.
  rewrite hash_buckets_lookup. destruct (Z.eqb_spec h 0); [auto|].
  cbn [orb]. destruct (bucket files h) eqn:E; [auto|discriminate].
Qed.

Lemma bucket_paths files h p : p ∈ bucket files h -> p ∈ map path files.
Proof.
  unfold bucket. rewrite !list_elem_of_In, !in_map_iff.
  intros (e & He & Hin). apply filter_In in Hin as [Hin _]. eauto.
Qed.

Lemma flat_map_unless {A B} (p : A -> bool) (g : A -> list B) l :
  flat_map (fun x => if p x then [] else g x) l =
  flat_map g (List.filter (fun x => negb (p x)) l).
Proof.
  induction l as [|x l IH]; simpl; [reflexivity|].
  destruct (p x); simpl; rewrite IH; reflexivity.
Qed.

Lemma flat_map_single {A B} (f : A -> B) l :
  flat_map (fun x => [f x]) l = map f l.
Proof. induction l as [|x l IH]; simpl; [reflexivity|]. rewrite IH. reflexivity. Qed.

Lemma flat_map_nothing {A B} (l : list A) :
  flat_map (fun _ => @nil B) l = [].
Proof. induction l as [|x l IH]; simpl; [reflexivity|exact IH]. Qed.

Lemma flat_map_ext_in {A B} (f g : A -> list B) l :
  (forall x, x ∈ l -> f x = g x) -> flat_map f l = flat_map g l.
Proof.
  induction l as [|x l IH]; intros H; simpl; [reflexivity|].
  rewrite (H x) by (left). rewrite IH; [reflexivity|].
  intros y Hy. apply H. right. exact Hy.
Qed.

Lemma filter_flat_map {A B} (p : B -> bool) (f : A -> list B) l :
  List.filter p (flat_map f l) = flat_map (fun x => List.filter p (f x)) l.
Proof.
  induction l as [|x l IH]; simpl; [reflexivity|].
  rewrite List.filter_app, IH. reflexivity.
Qed.

Lemma filter_all {A} (p : A -> bool) l :
  (forall x, x ∈ l -> p x = true) -> List.filter p l = l.
Proof.
  induction l as [|x l IH]; intros H; simpl; [reflexivity|].
  rewrite (H x) by left. rewrite IH; [reflexivity|].
  intros y Hy. apply H. right. exact Hy.
Qed.

Lemma filter_none {A} (p : A -> bool) l :
  (forall x, x ∈ l -> p x = false) -> List.filter p l = [].
Proof.
  induction l as [|x l IH]; intros H; simpl; [reflexivity|].
  rewrite (H x) by left. apply IH. intros y Hy. apply H. right. exact Hy.
Qed.

(** The records pushed for the bucket of [h]. *)
Lemma rename_candidates_pairs old_files new_files h ps :
  hash_buckets old_files !! h = Some ps ->
  rename_candidates (hash_buckets new_files) (path_set old_files)
    (path_set new_files) (h, ps) = bucket_pairs old_files new_files h.
Proof.
  intros Hold. apply hash_buckets_Some in Hold as [Hh ->].
  unfold rename_candidates, bucket_pairs, old_only, new_only.
  destruct (Z.eqb_spec h 0) as [|_]; [contradiction|].
  destruct (hash_buckets new_files !! h) as [nps|] eqn:Hnew.
  - apply hash_buckets_Some in Hnew as [_ ->].
    rewrite (flat_map_ext_in _
      (fun o => if has_path new_files o then []
                else map (fun n => renamed o n h)
                       (List.filter (fun p => negb (has_path old_files p))
                                    (bucket new_files h)))).
    + apply flat_map_unless.
    + intros o _. rewrite path_set_has_path.
      destruct (has_path new_files o); [reflexivity|].
      rewrite (flat_map_ext_in _
        (fun n => if has_path old_files n then [] else [renamed o n h])).
      * rewrite flat_map_unless. apply flat_map_single.
      * intros n _. rewrite path_set_has_path. reflexivity.
  - apply hash_buckets_None in Hnew as [|Hnew]; [contradiction|].
    rewrite Hnew. simpl. rewrite flat_map_nothing. reflexivity.
Qed.

Lemma bucket_pairs_spec old_files new_files h c :
  c ∈ bucket_pairs old_files new_files h ->
  exists o n,
    c = renamed o n h /\ h <> 0 /\
    o ∈ bucket old_files h /\ has_path new_files o = false /\
    n ∈ bucket new_files h /\ has_path old_files n = false.
Proof.
  unfold bucket_pairs. destruct (Z.eqb_spec h 0) as [|Hh].
  { intros H. apply elem_of_nil in H. destruct H. }
  rewrite list_elem_of_In, in_flat_map. intros (o & Ho & Hc).
  apply in_map_iff in Hc as (n & <- & Hn).
  unfold old_only in Ho. unfold new_only in Hn.
  apply filter_In in Ho as [Ho Ho'], Hn as [Hn Hn'].
  apply negb_true_iff in Ho', Hn'.
  exists o, n. rewrite !list_elem_of_In. auto 10.
Qed.

Lemma filter_bucket_pairs old_files new_files h h' :
  List.filter (is_rename_of h) (bucket_pairs old_files new_files h') =
  if h' =? h then bucket_pairs old_files new_files h else [].
Proof.
  destruct (Z.eqb_spec h' h) as [->|Hne].
  - apply filter_all. intros c Hc.
    apply bucket_pairs_spec in Hc as (o & n & -> & _).
    unfold is_rename_of. simpl. apply Z.eqb_refl.
  - apply filter_none. intros c Hc.
    apply bucket_pairs_spec in Hc as (o & n & -> & _).
    unfold is_rename_of. simpl. apply Z.eqb_neq. exact Hne.
Qed.

Lemma flat_map_unique_key {V B} (h : Z) (g : list B) (l : list (Z * V)) :
  NoDup (l.*1) ->
  flat_map (fun x => if fst x =? h then g else []) l =
  if bool_decide (h ∈ l.*1) then g else [].
Proof.
  induction l as [|[k v] l IH]; intros Hnd; [reflexivity|].
  rewrite fmap_cons in Hnd. apply NoDup_cons in Hnd as [Hk Hnd].
  cbn [flat_map fst]. rewrite IH by exact Hnd. rewrite fmap_cons. cbn [fst].
  destruct (Z.eqb_spec k h) as [->|Hne].
  - rewrite (bool_decide_eq_false_2 _ Hk), app_nil_r.
    rewrite bool_decide_eq_true_2 by left. reflexivity.
  - cbn [app]. rewrite (bool_decide_ext (h ∈ k :: l.*1) (h ∈ l.*1)); [reflexivity|].
    rewrite elem_of_cons. intuition congruence.
Qed.

Lemma bucket_pairs_no_candidate old_files new_files h :
  old_only old_files new_files h = [] ->
  bucket_pairs old_files new_files h = [].
Proof.
  intros H. unfold bucket_pairs. rewrite H. destruct (h =? 0); reflexivity.
Qed.

Lemma fold_push_rename_changes rs st :
  changes (fold_left push_rename rs st).1.1 = changes st.1.1 ++ rs.
Proof.
  revert st. induction rs as [|r rs IH]; intros [[res so] sn]; simpl.
  - rewrite app_nil_r. reflexivity.
  - rewrite IH. simpl. rewrite <- app_assoc. reflexivity.
Qed.

Lemma fold_push_rename_old rs st p :
  p ∈ (fold_left push_rename rs st).1.2 <->
  p ∈ st.1.2 \/ p ∈ map old_path rs.
Proof.
  revert st. induction rs as [|r rs IH]; intros [[res so] sn]; simpl.
  - rewrite elem_of_nil. tauto.
  - rewrite IH. simpl. rewrite elem_of_union, elem_of_singleton, elem_of_cons.
    tauto.
Qed.

Lemma fold_push_rename_new rs st p :
  p ∈ (fold_left push_rename rs st).2 <->
  p ∈ st.2 \/ p ∈ map change_path rs.
Proof.
  revert st. induction rs as [|r rs IH]; intros [[res so] sn]; simpl.
  - rewrite elem_of_nil. tauto.
  - rewrite IH. simpl. rewrite elem_of_union, elem_of_singleton, elem_of_cons.
    tauto.
Qed.

Lemma fold_visit_new old_files rn l result :
  exists extra,
    changes (fold_left (visit_new old_files rn) l result) =
      changes result ++ extra /\
    Forall (fun c => added_or_modified rn c /\
                     exists e, (change_path c, e) ∈ l) extra.
Proof.
  revert result. induction l as [|[p e] l IH]; intros result.
  - exists []. simpl. rewrite app_nil_r. split; [reflexivity|constructor].
  - cbn [fold_left]. destruct (IH (visit_new old_files rn result (p, e)))
      as (extra & -> & Hall).
    assert (Hmore : Forall (fun c => added_or_modified rn c /\
                        exists e0, (change_path c, e0) ∈ ((p, e) :: l)) extra).
    { eapply Forall_impl; [exact Hall|]. intros c [Hc [e0 He0]].
      split; [exact Hc|]. exists e0. right. exact He0. }
    unfold visit_new. destruct (bool_decide (p ∈ rn)) eqn:Hrn.
    { exists extra. split; [reflexivity|exact Hmore]. }
    apply bool_decide_eq_false in Hrn.
    destruct (old_files !! p) as [old_entry|].
    + destruct (negb _).
      * eexists (_ :: extra). cbn [changes]. rewrite <- app_assoc.
        split; [reflexivity|]. constructor; [|exact Hmore].
        split; [split; [right; reflexivity|exact Hrn]|]. exists e. apply list_elem_of_here.
      * exists extra. split; [reflexivity|exact Hmore].
    + eexists (_ :: extra). cbn [changes]. rewrite <- app_assoc.
      split; [reflexivity|]. constructor; [|exact Hmore].
      split; [split; [left; reflexivity|exact Hrn]|]. exists e. apply list_elem_of_here.
Qed.

(** What the pass over the old files appends. *)
Lemma fold_visit_old new_files ro l result :
  exists extra,
    changes (fold_left (visit_old new_files ro) l result) =
      changes result ++ extra /\
    Forall (fun c => type c = DELETED /\ (change_path c ∉ ro) /\
                     new_files !! change_path c = None) extra.
Proof.
  revert result. induction l as [|[p e] l IH]; intros result.
  - exists []. simpl. rewrite app_nil_r. split; [reflexivity|constructor].
  - cbn [fold_left]. destruct (IH (visit_old new_files ro result (p, e)))
      as (extra & -> & Hall).
    unfold visit_old. destruct (bool_decide (p ∈ ro)) eqn:Hro.
    { exists extra. split; [reflexivity|exact Hall]. }
    apply bool_decide_eq_false in Hro.
    destruct (new_files !! p) as [new_entry|] eqn:Hnew.
    + exists extra. split; [reflexivity|exact Hall].
    + eexists (_ :: extra). cbn [changes]. rewrite <- app_assoc.
      split; [reflexivity|]. constructor; [|exact Hall]. auto.
Qed.

Lemma fold_left_fixed {A B} (f : A -> B -> A) l a :
  (forall x, x ∈ l -> f a x = a) -> fold_left f l a = a.
Proof.
  induction l as [|x l IH]; intros H; simpl; [reflexivity|].
  rewrite (H x) by left. apply IH. intros y Hy. apply H. right. exact Hy.
Qed.

Section Diff.
Variable bucket_order : iteration_order Z (list string).
Variable entry_order : iteration_order string FileEntry.
Hypothesis bucket_order_perm : forall l, bucket_order l ≡ₚ l.
Hypothesis entry_order_perm : forall l, entry_order l ≡ₚ l.

Lemma ordered_bucket_lookup files h ps :
  (h, ps) ∈ bucket_order (map_to_list (hash_buckets files)) <->
  hash_buckets files !! h = Some ps.
Proof. rewrite bucket_order_perm. apply elem_of_map_to_list. Qed.

Lemma ordered_entry_lookup (m : gmap string FileEntry) p e :
  (p, e) ∈ entry_order (map_to_list m) <-> m !! p = Some e.
Proof. rewrite entry_order_perm. apply elem_of_map_to_list. Qed.

Lemma detect_renames_pairs old_files new_files :
  detect_renames bucket_order old_files new_files =
  flat_map (fun b => bucket_pairs old_files new_files (fst b))
           (bucket_order (map_to_list (hash_buckets old_files))).
Proof.
  unfold detect_renames. apply flat_map_ext_in. intros [h ps] Hin.
  apply ordered_bucket_lookup in Hin.
  apply rename_candidates_pairs. exact Hin.
Qed.

Lemma detect_renames_elem old_files new_files c :
  c ∈ detect_renames bucket_order old_files new_files ->
  exists h, c ∈ bucket_pairs old_files new_files h.
Proof.
  rewrite detect_renames_pairs, list_elem_of_In, in_flat_map.
  intros ([h ps] & _ & Hc). exists h. apply list_elem_of_In. exact Hc.
Qed.

Lemma filter_detect_renames old_files new_files h :
  List.filter (is_rename_of h)
    (detect_renames bucket_order old_files new_files) =
  bucket_pairs old_files new_files h.
Proof.
  rewrite detect_renames_pairs, filter_flat_map.
  rewrite (flat_map_ext_in _
    (fun b => if fst b =? h then bucket_pairs old_files new_files h else []))
    by (intros b _; apply filter_bucket_pairs).
  rewrite flat_map_unique_key.
  2:{ rewrite bucket_order_perm. apply NoDup_fst_map_to_list. }
  destruct (bool_decide _) eqn:E; [reflexivity|].
  apply bool_decide_eq_false in E. symmetry.
  destruct (hash_buckets old_files !! h) as [ps|] eqn:Hl.
  - exfalso. apply E. apply list_elem_of_fmap. exists (h, ps).
    split; [reflexivity|]. apply ordered_bucket_lookup. exact Hl.
  - apply hash_buckets_None in Hl as [Hl|Hl].
    + unfold bucket_pairs. rewrite Hl. reflexivity.
    + apply bucket_pairs_no_candidate. unfold old_only. rewrite Hl. reflexivity.
Qed.

Lemma detect_renames_same files :
  detect_renames bucket_order files files = [].
Proof.
  rewrite detect_renames_pairs.
  rewrite (flat_map_ext_in _ (fun _ => [])); [apply flat_map_nothing|].
  intros [h ps] _. apply bucket_pairs_no_candidate. unfold old_only.
  apply filter_none. intros p Hp. apply negb_false_iff.
  unfold has_path. apply bool_decide_eq_true. eapply bucket_paths, Hp.
Qed.

Lemma diff_same detect scan :
  diff bucket_order entry_order detect scan scan = no_changes.
Proof.
  unfold diff.
  assert (Hst : (if detect
                 then fold_left push_rename
                        (detect_renames bucket_order scan scan)
                        (no_changes, ∅, ∅)
                 else (no_changes, ∅, ∅)) = (no_changes, ∅, ∅)).
  { destruct detect; [|reflexivity]. rewrite detect_renames_same. reflexivity. }
  rewrite Hst.
  rewrite (fold_left_fixed (visit_new (path_map scan) ∅)).
  - apply fold_left_fixed. intros [p e] Hin.
    apply ordered_entry_lookup in Hin. unfold visit_old.
    rewrite bool_decide_eq_false_2 by apply not_elem_of_empty.
    rewrite Hin. reflexivity.
  - intros [p e] Hin. apply ordered_entry_lookup in Hin. unfold visit_new.
    rewrite bool_decide_eq_false_2 by apply not_elem_of_empty.
    rewrite Hin, Z.eqb_refl. reflexivity.
Qed.

Lemma diff_changes old_scan new_scan :
  exists am del,
    changes (diff bucket_order entry_order true old_scan new_scan) =
      detect_renames bucket_order old_scan new_scan ++ am ++ del /\
    Forall (fun c =>
      (type c = ADDED \/ type c = MODIFIED) /\
      (change_path c ∉ map change_path
                         (detect_renames bucket_order old_scan new_scan)) /\
      has_path new_scan (change_path c) = true) am /\
    Forall (fun c =>
      type c = DELETED /\
      (change_path c ∉ map old_path
                         (detect_renames bucket_order old_scan new_scan)) /\
      has_path new_scan (change_path c) = false) del.
Proof.
  unfold diff.
  set (rs := detect_renames bucket_order old_scan new_scan).
  pose proof (fold_push_rename_changes rs (no_changes, ∅, ∅)) as Hch.
  pose proof (fold_push_rename_old rs (no_changes, ∅, ∅)) as Hold.
  pose proof (fold_push_rename_new rs (no_changes, ∅, ∅)) as Hnew.
  destruct (fold_left push_rename rs (no_changes, ∅, ∅)) as [[res ro] rn].
  cbn [fst snd changes no_changes app] in Hch, Hold, Hnew.
  destruct (fold_visit_new (path_map old_scan) rn
              (entry_order (map_to_list (path_map new_scan))) res)
    as (am & Ham & Hamall).
  destruct (fold_visit_old (path_map new_scan) ro
              (entry_order (map_to_list (path_map old_scan)))
              (fold_left (visit_new (path_map old_scan) rn)
                 (entry_order (map_to_list (path_map new_scan))) res))
    as (del & Hdel & Hdelall).
  exists am, del. rewrite Hdel, Ham, Hch, <- app_assoc.
  split; [reflexivity|]. split.
  - eapply Forall_impl; [exact Hamall|]. intros c [[Ht Hrn] [e He]].
    split; [exact Ht|]. split.
    + intros Hin. apply Hrn, Hnew. right. exact Hin.
    + apply ordered_entry_lookup in He.
      destruct (has_path new_scan (change_path c)) eqn:Hp; [reflexivity|].
      apply path_map_None in Hp. congruence.
  - eapply Forall_impl; [exact Hdelall|]. intros c (Ht & Hro & Hnone).
    split; [exact Ht|]. split.
    + intros Hin. apply Hro, Hold. right. exact Hin.
    + apply path_map_None. exact Hnone.
Qed.

(** C10. For every scan, [diff] of the scan against itself reports no
    change and leaves every counter at zero, with rename detection on or
    off and whatever order the hash maps are iterated in. *)
Theorem diff_same_scan (detect : bool) (scan : list FileEntry) :
  diff bucket_order entry_order detect scan scan = no_changes.
Proof. apply diff_same. Qed.

(** C1, amended. With rename detection on, the Renamed records of a diff
    for a content hash [h] are, in this order, every old-only path of the
    bucket of [h] paired with every new-only path of that bucket, old paths
    in the order of the old list and, for each, new paths in the order of
    the new list (a path is paired once for each candidate on the other
    side, so only once when that side has a single candidate; the hash 0
    is never bucketed and yields no record); and no Added, Modified or
    Deleted record carries a path that a Renamed record carries as its old
    or new path. *)
Theorem rename_pairing_bucket_product (old_scan new_scan : list FileEntry) :
  let result := diff bucket_order entry_order true old_scan new_scan in
  (forall h,
     List.filter (is_rename_of h) (changes result) =
     bucket_pairs old_scan new_scan h) /\
  (forall c r,
     c ∈ changes result -> r ∈ changes result ->
     type c <> RENAMED -> type r = RENAMED ->
     change_path c <> change_path r /\ change_path c <> old_path r).
Proof.
  cbv zeta.
  destruct (diff_changes old_scan new_scan) as (am & del & -> & Ham & Hdel).
  set (rs := detect_renames bucket_order old_scan new_scan) in *.
  assert (Ham' : forall c, c ∈ am -> type c <> RENAMED) by
    (intros c Hc; rewrite Forall_forall in Ham;
     destruct (Ham c Hc) as [[H|H] _]; rewrite H; discriminate).
  assert (Hdel' : forall c, c ∈ del -> type c <> RENAMED) by
    (intros c Hc; rewrite Forall_forall in Hdel;
     destruct (Hdel c Hc) as [H _]; rewrite H; discriminate).
  split.
  - intros h. rewrite !List.filter_app.
    rewrite (filter_none (is_rename_of h) am), (filter_none (is_rename_of h) del).
    + rewrite !app_nil_r. apply filter_detect_renames.
    + intros c Hc. apply Hdel' in Hc. unfold is_rename_of.
      destruct (type c); congruence.
    + intros c Hc. apply Ham' in Hc. unfold is_rename_of.
      destruct (type c); congruence.
  - intros c r Hc Hr Htc Htr.
    assert (Hrs : r ∈ rs).
    { rewrite !elem_of_app in Hr. destruct Hr as [Hr|[Hr|Hr]]; [exact Hr| |].
      - apply Ham' in Hr. contradiction.
      - apply Hdel' in Hr. contradiction. }
    destruct (detect_renames_elem _ _ _ Hrs) as [h Hpair].
    apply bucket_pairs_spec in Hpair
      as (o & n & Hreq & _ & _ & Ho & Hn & _).
    assert (Hnp : has_path new_scan n = true).
    { unfold has_path. apply bool_decide_eq_true. eapply bucket_paths, Hn. }
    rewrite !elem_of_app in Hc. destruct Hc as [Hc|[Hc|Hc]].
    + exfalso. apply detect_renames_elem in Hc as [h' Hc].
      apply bucket_pairs_spec in Hc as (? & ? & -> & _). apply Htc. reflexivity.
    + rewrite Forall_forall in Ham.
      destruct (Ham c Hc) as (_ & Hnot & Hin). split.
      * intros E. apply Hnot. rewrite E. apply list_elem_of_In, in_map.
        apply list_elem_of_In. exact Hrs.
      * intros E. subst r. cbn [old_path renamed] in E. congruence.
    + rewrite Forall_forall in Hdel.
      destruct (Hdel c Hc) as (_ & Hnot & Hout). split.
      * intros E. subst r. cbn [change_path renamed] in E. congruence.
      * intros E. apply Hnot. rewrite E. apply list_elem_of_In, in_map.
        apply list_elem_of_In. exact Hrs.
Qed.

End Diff.

Lemma diff_same_scan_witness :
  diff id id true
    [scanned "a.py" 17; scanned "dir/b.py" 42; scanned "empty" 0]
    [scanned "a.py" 17; scanned "dir/b.py" 42; scanned "empty" 0] =
  no_changes.
Proof.
  apply (diff_same_scan id id (fun l => Permutation_refl l)
           (fun l => Permutation_refl l) true).
Defined.

(** C1 as stated fails on the code: with two old-only and two new-only
    paths of one content hash, every pair is reported, so each path occurs
    in two Renamed records. *)
Lemma rename_pairing_reuses_paths :
  map (fun c => (type c, old_path c, change_path c))
      (changes (diff id id true
                  [scanned "a" 7; scanned "b" 7]
                  [scanned "c" 7; scanned "d" 7])) =
  [(RENAMED, "a", "c"); (RENAMED, "a", "d");
   (RENAMED, "b", "c"); (RENAMED, "b", "d")]%string.
Proof. vm_compute. reflexivity. Qed.

Lemma rename_pairing_bucket_product_witness :
  (forall h,
     List.filter (is_rename_of h)
       (changes (diff id id true
                   [scanned "a.py" 1; scanned "dir/b.py" 2]
                   [scanned "a.py" 1; scanned "dir/c.py" 2;
                    scanned "new.py" 3])) =
     bucket_pairs [scanned "a.py" 1; scanned "dir/b.py" 2]
                  [scanned "a.py" 1; scanned "dir/c.py" 2;
                   scanned "new.py" 3] h) /\
  (forall c r,
     c ∈ changes (diff id id true
                    [scanned "a.py" 1; scanned "dir/b.py" 2]
                    [scanned "a.py" 1; scanned "dir/c.py" 2;
                     scanned "new.py" 3]) ->
     r ∈ changes (diff id id true
                    [scanned "a.py" 1; scanned "dir/b.py" 2]
                    [scanned "a.py" 1; scanned "dir/c.py" 2;
                     scanned "new.py" 3]) ->
     type c <> RENAMED -> type r = RENAMED ->
     change_path c <> change_path r /\ change_path c <> old_path r).
Proof.
  exact (rename_pairing_bucket_product id id
           (fun l => Permutation_refl l) (fun l => Permutation_refl l)
           [scanned "a.py" 1; scanned "dir/b.py" 2]
           [scanned "a.py" 1; scanned "dir/c.py" 2; scanned "new.py" 3]).
Defined.

(** The scenario of the specification: one rename, one addition. *)
Example diff_rename_and_add :
  diff id id true
    [scanned "a.py" 1; scanned "dir/b.py" 2]
    [scanned "a.py" 1; scanned "dir/c.py" 2; scanned "new.py" 3] =
  {| changes :=
       [renamed "dir/b.py" "dir/c.py" 2;
        {| type := ADDED; change_path := "new.py"; old_path := EmptyString;
           old_hash := 0; new_hash := 3 |}];
     added_count := 1; modified_count := 0; deleted_count := 0;
     renamed_count := 1 |}.
Proof. vm_compute. reflexivity. Qed.

End IndexerFacts.

(** ** xxHash64 *)

Section HasherFacts.
Import XXHash64 FileHasher.

(** The loops of [hash] are run with the input length as fuel; that is
    enough for each of them to reach its own exit test. *)
Lemma tail8_remainder fuel p h :
  (length p <= fuel)%nat -> (length (snd (tail8 fuel p h)) < 8)%nat.
Proof.
  revert p h. induction fuel as [|fuel IH]; intros p h Hlen.
  - cbn. lia.
  - cbn [tail8]. destruct (Nat.leb_spec 8 (length p)) as [H8|H8].
    + apply IH. rewrite length_drop. lia.
    + cbn. exact H8.
Qed.

Lemma tail8_shrinks fuel p h :
  (length (snd (tail8 fuel p h)) <= length p)%nat.
Proof.
  revert p h. induction fuel as [|fuel IH]; intros p h; [reflexivity|].
  cbn [tail8]. destruct (8 <=? length p)%nat; [|reflexivity].
  etransitivity; [apply IH|]. rewrite length_drop. lia.
Qed.

Lemma tail4_remainder fuel p h :
  (length p <= fuel)%nat -> (length (snd (tail4 fuel p h)) < 4)%nat.
Proof.
  revert p h. induction fuel as [|fuel IH]; intros p h Hlen.
  - cbn. lia.
  - cbn [tail4]. destruct (Nat.leb_spec 4 (length p)) as [H4|H4].
    + apply IH. rewrite length_drop. lia.
    + cbn. exact H4.
Qed.

Lemma stripes_remainder fuel p v1 v2 v3 v4 :
  (32 <= length p <= fuel)%nat ->
  (length (snd (stripes fuel p v1 v2 v3 v4)) < 32)%nat.
Proof.
  revert p v1 v2 v3 v4.
  induction fuel as [|fuel IH]; intros p v1 v2 v3 v4 Hlen; [lia|].
  cbn [stripes]. cbv zeta.
  assert (Hd : length (drop 8 (drop 8 (drop 8 (drop 8 p)))) =
               (length p - 32)%nat) by (rewrite !length_drop; lia).
  destruct (Nat.leb_spec 32 (length (drop 8 (drop 8 (drop 8 (drop 8 p))))))
    as [H32|H32].
  - apply IH. lia.
  - cbn. exact H32.
Qed.

(** The bytes left to [tail1] are fewer than four: every larger group has
    been consumed by the loops before it. *)
Lemma hash_fuel_suffices fuel p h :
  (length p <= fuel)%nat ->
  let '(h8, p8) := tail8 fuel p h in
  let '(h4, p4) := tail4 fuel p8 h8 in
  (length p4 < 4)%nat.
Proof.
  intros Hlen.
  pose proof (tail8_shrinks fuel p h) as Hle.
  destruct (tail8 fuel p h) as [h8 p8]. cbn [snd] in Hle.
  assert (Hle' : (length p8 <= fuel)%nat) by lia.
  pose proof (tail4_remainder fuel p8 h8 Hle') as H4.
  destruct (tail4 fuel p8 h8) as [h4 p4]. exact H4.
Qed.

(** C6. The hasher uses the five xxHash64 primes, and [XXHash64::hash]
    returns the published xxHash64 values on inputs that between them go
    through every loop of the function, some of them more than once, with
    seed 0 and with another seed: EF46DB3751D8E999 for the empty input and
    44BC2CF5AD770999 (nonzero) for the three bytes of abc with seed 0, as
    [hash_string] gives them; inputs that end in one to three single
    bytes, in a 4-byte group, in one and in three 8-byte groups; inputs of
    one and of three 32-byte stripes; and the vectors of the self-test of
    the reference implementation, with seed 0 and seed 2654435761. *)
Theorem xxhash64_vectors :
  (PRIME64_1 = 11400714785074694791 /\
   PRIME64_2 = 14029467366897019727 /\
   PRIME64_3 = 1609587929392839161 /\
   PRIME64_4 = 9650029242287828579 /\
   PRIME64_5 = 2870177450012600261) /\
  hash_string [] = 0xEF46DB3751D8E999 /\
  hash_string (str "abc") = 0x44BC2CF5AD770999 /\
  hash_string (str "abc") <> 0 /\
  hash_string (str "a") = 0xD24EC4F1A98C6E5B /\
  hash_string (str "as") = 0x1C330FB2D66BE179 /\
  hash_string (str "asd") = 0x631C37CE72A97393 /\
  hash_string (str "asdf") = 0x415872F599CEA71E /\
  hash_string (str "xxhash") = 0x32DD38952C4BC720 /\
  hash_string (str "Nobody inspects the spammish repetition") =
    0xFBCEA83C8A378BF1 /\
  hash_string (str "The quick brown fox jumps over the lazy dog") =
    0x0B242D361FDA71BC /\
  hash_string
    (str "Call me Ishmael. Some years ago--never mind how long precisely-")
    = 0x02A2E85470D6FD96 /\
  hash [] 2654435761 = 0xAC75FDA2929B17EF /\
  hash (sanity_buffer 1) 0 = 0x4FCE394CC88952D8 /\
  hash (sanity_buffer 1) 2654435761 = 0x739840CB819FA723 /\
  hash (sanity_buffer 14) 0 = 0xCFFA8DB881BC3A3D /\
  hash (sanity_buffer 14) 2654435761 = 0x5B9611585EFCC9CB /\
  hash (sanity_buffer 101) 0 = 0x0EAB543384F878AD /\
  hash (sanity_buffer 101) 2654435761 = 0xCAA65939306F1E21.
Proof. vm_compute. repeat split; try reflexivity; discriminate. Qed.

End HasherFacts.

(** ** Boundary detection *)

Section BoundaryFacts.
Import Regex BoundaryDetector.

(** The JavaScript pass steps over a line comment as a whole. *)
Example javascript_pass_skips_comment :
  detect_javascript (str "// interface Foo") = Done [].
Proof. vm_compute. reflexivity. Qed.

(** C9 fails on the code. The TypeScript source is one line comment, which
    [skip_comment] consumes to its end (16 bytes); [detect_typescript]
    reports an Interface boundary named Foo at byte offset 3, inside the
    comment. *)
Theorem typescript_pass_matches_in_comment :
  skip_comment (str "// interface Foo") = [] /\
  length (str "// interface Foo") = 16%nat /\
  detect_typescript (str "// interface Foo") =
    Done [ {| line := 1; column := 4; byte_offset := 3; type := INTERFACE;
              name := "Foo"; scope_depth := 0; is_start := true |} ].
Proof. vm_compute. repeat split; reflexivity. Qed.

(** The same inside a string literal: the literal starts at offset 10 and
    [skip_string] consumes it up to the closing quote at offset 21; an Enum
    boundary is reported at offset 11. *)
Example typescript_pass_matches_in_string :
  let source := str "const s = " ++ dquote :: str "enum Color" ++ [dquote; ";"%char] in
  skip_string (drop 10 source) dquote = [";"%char] /\
  detect_typescript source =
    Done [ {| line := 1; column := 12; byte_offset := 11; type := ENUM;
              name := "Color"; scope_depth := 0; is_start := true |} ].
Proof. vm_compute. split; reflexivity. Qed.

End BoundaryFacts.

(** ** Streaming xxHash64 and file hashing *)

Section StreamFacts.
Import XXHash64 XXHash64Stream.

Lemma read_le_take n p : read_le n (take n p) = read_le n p.
Proof.
  revert p. induction n as [|n IH]; intros [|c p]; cbn; try reflexivity.
  rewrite IH. reflexivity.
Qed.

Lemma read_le_prefix n p q :
  take n p = take n q -> read_le n p = read_le n q.
Proof. intros H. rewrite <- (read_le_take n p), H. apply read_le_take. Qed.

Lemma round4_prefix v p q : take 32 p = take 32 q -> round4 v p = round4 v q.
Proof.
  intros H. destruct v as [[[v1 v2] v3] v4]. unfold round4, read64.
  assert (H8 : forall k, (k + 8 <= 32)%nat ->
            read_le 8 (drop k p) = read_le 8 (drop k q)).
  { intros k Hk. apply read_le_prefix.
    rewrite !take_drop_commute.
    replace (take (k + 8) p) with (take (k + 8) (take 32 p))
      by (rewrite take_take; f_equal; lia).
    replace (take (k + 8) q) with (take (k + 8) (take 32 q))
      by (rewrite take_take; f_equal; lia).
    rewrite H. reflexivity. }
  pose proof (H8 0%nat ltac:(lia)) as H0. rewrite !drop_0 in H0.
  rewrite H0, (H8 8%nat), (H8 16%nat), (H8 24%nat) by lia.
  reflexivity.
Qed.

Lemma consume_prefix n p x v :
  (32 * n <= length p)%nat -> consume n (p ++ x) v = consume n p v.
Proof.
  revert p v. induction n as [|n IH]; intros p v Hlen; [reflexivity|].
  cbn [consume].
  rewrite (round4_prefix v (p ++ x) p)
    by (rewrite take_app_le by lia; reflexivity).
  rewrite drop_app_le by lia. apply IH. rewrite length_drop. lia.
Qed.

Lemma consume_app k n a b v :
  length a = (32 * k)%nat ->
  consume (k + n) (a ++ b) v = consume n b (consume k a v).
Proof.
  revert a v. induction k as [|k IH]; intros a v Hlen.
  - destruct a; [reflexivity|discriminate].
  - cbn [Nat.add consume].
    rewrite (round4_prefix v (a ++ b) a)
      by (rewrite take_app_le by lia; reflexivity).
    rewrite drop_app_le by lia. apply IH. rewrite length_drop. lia.
Qed.

(** The do-while loop of the block phase, given enough fuel, is [consume]
    over the whole blocks and leaves the bytes after them. *)
Lemma stripes_consume fuel p v1 v2 v3 v4 :
  (32 <= length p)%nat -> (length p / 32 <= fuel)%nat ->
  stripes fuel p v1 v2 v3 v4 =
  (consume (length p / 32) p (v1, v2, v3, v4),
   drop (32 * (length p / 32)) p).
Proof.
  revert p v1 v2 v3 v4.
  induction fuel as [|fuel IH]; intros p v1 v2 v3 v4 H32 Hfuel.
  - assert (1 <= length p / 32)%nat by (apply Nat.div_le_lower_bound; lia).
    lia.
  - cbn [stripes]. cbv zeta. rewrite !drop_drop.
    change (8 + 8)%nat with 16%nat. change (8 + 16)%nat with 24%nat.
    change (8 + 24)%nat with 32%nat.
    assert (Hq : (length p / 32 = S (length (drop 32 p) / 32))%nat).
    { rewrite length_drop.
      replace (length p) with ((length p - 32) + 1 * 32)%nat at 1 by lia.
      rewrite Nat.div_add by lia. lia. }
    destruct (Nat.leb_spec 32 (length (drop 32 p))) as [Hmore|Hless].
    + rewrite IH by lia. rewrite Hq. cbn [consume round4].
      rewrite drop_drop. repeat f_equal. lia.
    + rewrite Hq. rewrite (Nat.div_small (length (drop 32 p))) by lia.
      cbn [consume round4]. rewrite Nat.mul_1_r. reflexivity.
Qed.


Lemma update_blocks_absorbed seed d p s :
  seed_ s = seed ->
  total_len_ s = Z.of_nat (length (d ++ p)) ->
  (v1_ s, v2_ s, v3_ s, v4_ s) = consume (length d / 32) d (init seed) ->
  mem_size_ s = 0%nat ->
  (length d mod 32 = 0)%nat ->
  length (mem_ s) = 32%nat ->
  absorbed seed (d ++ p) (update_blocks p s).
Proof.
  intros Hseed Htotal Hv Hsize Hmod Hmem.
  assert (Hd : length d = (32 * (length d / 32))%nat).
  { pose proof (Nat.div_mod_eq (length d) 32). lia. }
  set (k := (length d / 32)%nat) in *.
  assert (Hq : (length (d ++ p) / 32 = k + length p / 32)%nat).
  { rewrite length_app, Hd, Nat.mul_comm, Nat.div_add_l by lia. reflexivity. }
  assert (Hr : (length (d ++ p) mod 32 = length p mod 32)%nat).
  { rewrite length_app, Hd, Nat.add_comm, Nat.mul_comm, Nat.Div0.mod_add.
    reflexivity. }
  assert (Hv' : exists rest,
    (if (32 <=? length p)%nat
     then stripes (length p) p (v1_ s) (v2_ s) (v3_ s) (v4_ s)
     else (v1_ s, v2_ s, v3_ s, v4_ s, p)) =
    (consume (length (d ++ p) / 32) (d ++ p) (init seed), rest) /\
    rest = drop (32 * (length (d ++ p) / 32)) (d ++ p) /\
    length rest = (length p mod 32)%nat).
  { rewrite Hq, (consume_app k (length p / 32) d p) by exact Hd.
    rewrite <- Hv.
    assert (Hdrop : drop (32 * (k + length p / 32)) (d ++ p) =
                    drop (32 * (length p / 32)) p).
    { rewrite Nat.mul_add_distr_l, <- Hd. apply drop_app_add'. reflexivity. }
    rewrite Hdrop.
    assert (Hlen : length (drop (32 * (length p / 32)) p) =
                   (length p mod 32)%nat).
    { rewrite length_drop. pose proof (Nat.div_mod_eq (length p) 32). lia. }
    destruct (Nat.leb_spec 32 (length p)) as [H32|H32].
    - eexists. split; [|split; [reflexivity|exact Hlen]].
      apply stripes_consume; [exact H32|].
      apply Nat.Div0.div_le_upper_bound. lia.
    - rewrite (Nat.div_small (length p)) in * by lia.
      eexists. split; [reflexivity|]. split; [reflexivity|exact Hlen]. }
  destruct Hv' as (rest & Hst & Hrest & Hlen).
  unfold absorbed, update_blocks. rewrite Hst.
  destruct (consume (length (d ++ p) / 32) (d ++ p) (init seed))
    as [[[w1 w2] w3] w4].
  pose proof (Nat.mod_upper_bound (length p) 32 ltac:(lia)) as Hlt.
  cbn [seed_ total_len_ v1_ v2_ v3_ v4_ mem_ mem_size_].
  split; [exact Hseed|]. split; [exact Htotal|]. split; [reflexivity|].
  rewrite Hr, <- Hrest.
  destruct (Nat.ltb_spec 0 (length rest)) as [Hpos|Hzero].
  - split; [exact Hlen|]. unfold memcpy_at. rewrite take_0. cbn [Nat.add app].
    split.
    + rewrite take_app_length. reflexivity.
    + rewrite length_app, length_drop. lia.
  - assert (E : rest = []) by (destruct rest; [reflexivity|cbn in Hzero; lia]).
    rewrite Hsize. split; [lia|]. split; [|exact Hmem].
    rewrite E. reflexivity.
Qed.

Lemma update_absorbed seed d c s :
  absorbed seed d s ->
  Z.of_nat (length (d ++ c)) < 2 ^ 64 ->
  absorbed seed (d ++ c) (update c s).
Proof.
  intros (Hseed & Htotal & Hv & Hsize & Hbuf & Hmem) Hbound.
  assert (Htot : u64 (total_len_ s + Z.of_nat (length c)) =
                 Z.of_nat (length (d ++ c))).
  { rewrite Htotal, length_app, Nat2Z.inj_add. unfold u64.
    apply Z.mod_small. rewrite length_app in Hbound. lia. }
  pose proof (Nat.div_mod_eq (length d) 32) as Hdm.
  pose proof (Nat.mod_upper_bound (length d) 32 ltac:(lia)) as Hlt.
  set (k := (length d / 32)%nat) in *.
  set (m := (length d mod 32)%nat) in *.
  unfold update. rewrite Htot.
  destruct (Nat.ltb_spec 0 (mem_size_ s)) as [Hpos|Hzero].
  - destruct (Nat.ltb_spec (length c) (32 - mem_size_ s)) as [Hshort|Hfill].
    + (* the chunk fits into the buffer *)
      unfold absorbed.
      cbn [seed_ total_len_ v1_ v2_ v3_ v4_ mem_ mem_size_].
      assert (Hq : (length (d ++ c) / 32 = k)%nat).
      { rewrite length_app. symmetry.
        apply (Nat.div_unique _ 32 k (m + length c)); lia. }
      assert (Hr : (length (d ++ c) mod 32 = m + length c)%nat).
      { rewrite length_app. symmetry.
        apply (Nat.mod_unique _ 32 k (m + length c)); lia. }
      split; [exact Hseed|]. split; [reflexivity|].
      rewrite Hq, Hr, Hsize.
      split; [rewrite consume_prefix by lia; exact Hv|].
      split; [reflexivity|].
      unfold memcpy_at. split.
      * rewrite drop_app_le by lia. rewrite <- Hbuf, Hsize.
        rewrite app_assoc, take_app_le
          by (rewrite length_app, length_take; lia).
        rewrite take_ge by (rewrite length_app, length_take; lia).
        reflexivity.
      * rewrite !length_app, length_take, length_drop. lia.
    + (* the buffer is completed and goes through the accumulators *)
      set (to_fill := (32 - mem_size_ s)%nat) in *.
      set (mem := memcpy_at (mem_ s) (mem_size_ s) (take to_fill c)).
      rewrite <- (take_drop to_fill c) at 1.
      rewrite app_assoc.
      assert (Hlen' : length (d ++ take to_fill c) = (32 * S k)%nat).
      { rewrite length_app, length_take. lia. }
      apply update_blocks_absorbed;
        cbn [seed_ total_len_ v1_ v2_ v3_ v4_ mem_ mem_size_].
      * exact Hseed.
      * rewrite <- app_assoc, take_drop. reflexivity.
      * rewrite Hlen', Nat.mul_comm, Nat.div_mul by lia.
        rewrite <- (take_drop (32 * k) d) at 1.
        rewrite <- app_assoc.
        replace (S k) with (k + 1)%nat by lia.
        rewrite consume_app by (rewrite length_take; lia).
        rewrite <- (consume_prefix k (take (32 * k) d) (drop (32 * k) d))
          by (rewrite length_take; lia).
        rewrite take_drop, <- Hv. cbn [consume].
        change (round (v1_ s) (read64 mem), round (v2_ s) (read64 (drop 8 mem)),
                round (v3_ s) (read64 (drop 16 mem)),
                round (v4_ s) (read64 (drop 24 mem)))
          with (round4 (v1_ s, v2_ s, v3_ s, v4_ s) mem).
        apply round4_prefix. unfold mem, memcpy_at.
        rewrite Hbuf. rewrite app_assoc.
        rewrite take_app_le
          by (rewrite length_app, length_drop, length_take; lia).
        reflexivity.
      * reflexivity.
      * rewrite Hlen', Nat.mul_comm. apply Nat.Div0.mod_mul.
      * unfold mem, memcpy_at.
        rewrite !length_app, !length_take, length_drop. lia.
  - apply update_blocks_absorbed;
      cbn [seed_ total_len_ v1_ v2_ v3_ v4_ mem_ mem_size_].
    + exact Hseed.
    + reflexivity.
    + exact Hv.
    + lia.
    + lia.
    + exact Hmem.
Qed.


Lemma make_absorbed uninit seed :
  length uninit = 32%nat -> absorbed seed [] (make uninit seed).
Proof.
  intros Hlen. unfold absorbed, make, reset.
  cbn [seed_ total_len_ v1_ v2_ v3_ v4_ mem_ mem_size_].
  repeat split; try reflexivity. exact Hlen.
Qed.

Lemma feed_absorbed seed chunks d s :
  absorbed seed d s ->
  Z.of_nat (length (d ++ concat chunks)) < 2 ^ 64 ->
  absorbed seed (d ++ concat chunks) (feed chunks s).
Proof.
  revert d s. induction chunks as [|c chunks IH]; intros d s Hs Hbound.
  - cbn. rewrite app_nil_r. exact Hs.
  - cbn [concat feed fold_left] in *. rewrite app_assoc in *.
    apply IH; [|exact Hbound]. apply update_absorbed; [exact Hs|].
    rewrite length_app in Hbound. lia.
Qed.

Lemma tail8_fuel fuel fuel' p h :
  (length p <= fuel)%nat -> (length p <= fuel')%nat ->
  tail8 fuel p h = tail8 fuel' p h.
Proof.
  revert fuel' p h. induction fuel as [|fuel IH]; intros fuel' p h Hf Hf'.
  - destruct p; [|cbn in Hf; lia]. destruct fuel'; reflexivity.
  - destruct fuel' as [|fuel'].
    + destruct p; [reflexivity|cbn in Hf'; lia].
    + cbn [tail8]. destruct (Nat.leb_spec 8 (length p)); [|reflexivity].
      apply IH; rewrite length_drop; lia.
Qed.

Lemma tail4_fuel fuel fuel' p h :
  (length p <= fuel)%nat -> (length p <= fuel')%nat ->
  tail4 fuel p h = tail4 fuel' p h.
Proof.
  revert fuel' p h. induction fuel as [|fuel IH]; intros fuel' p h Hf Hf'.
  - destruct p; [|cbn in Hf; lia]. destruct fuel'; reflexivity.
  - destruct fuel' as [|fuel'].
    + destruct p; [reflexivity|cbn in Hf'; lia].
    + cbn [tail4]. destruct (Nat.leb_spec 4 (length p)); [|reflexivity].
      apply IH; rewrite length_drop; lia.
Qed.

Lemma tail8_length fuel p h :
  (length (snd (tail8 fuel p h)) <= length p)%nat.
Proof.
  revert p h. induction fuel as [|fuel IH]; intros p h; [reflexivity|].
  cbn [tail8]. destruct (8 <=? length p)%nat; [|reflexivity].
  etransitivity; [apply IH|]. rewrite length_drop. lia.
Qed.

Lemma finalize_absorbed seed d s :
  absorbed seed d s -> Z.of_nat (length d) < 2 ^ 64 ->
  finalize s = hash d seed.
Proof.
  intros (Hseed & Htotal & Hv & Hsize & Hbuf & Hmem) Hbound.
  pose proof (Nat.div_mod_eq (length d) 32) as Hdm.
  pose proof (Nat.mod_upper_bound (length d) 32 ltac:(lia)) as Hlt.
  unfold finalize, hash. rewrite Htotal, Hseed, Hbuf.
  assert (Hrest : (length (drop (32 * (length d / 32)) d) = length d mod 32)%nat)
    by (rewrite length_drop; lia).
  assert (Hcmp : (32 <=? Z.of_nat (length d)) = (32 <=? length d)%nat).
  { destruct (Nat.leb_spec 32 (length d)); [apply Z.leb_le|apply Z.leb_gt]; lia. }
  rewrite Hcmp.
  destruct (Nat.leb_spec 32 (length d)) as [H32|H32].
  - rewrite stripes_consume
      by (try exact H32; apply Nat.Div0.div_le_upper_bound; lia).
    fold (init seed). rewrite <- Hv.
    rewrite (tail8_fuel (mem_size_ s) (length d)) by lia.
    match goal with
    | |- context [tail8 ?f ?p ?h] =>
        pose proof (tail8_length f p h) as Hl8;
        destruct (tail8 f p h) as [h8 p8]
    end.
    cbn [snd] in Hl8.
    rewrite (tail4_fuel (mem_size_ s) (length d)) by lia.
    reflexivity.
  - rewrite (Nat.div_small (length d)) in * by lia.
    rewrite Nat.mul_0_r, drop_0 in *.
    rewrite (tail8_fuel (mem_size_ s) (length d)) by lia.
    match goal with
    | |- context [tail8 ?f ?p ?h] =>
        pose proof (tail8_length f p h) as Hl8;
        destruct (tail8 f p h) as [h8 p8]
    end.
    cbn [snd] in Hl8.
    rewrite (tail4_fuel (mem_size_ s) (length d)) by lia.
    reflexivity.
Qed.

(** X1. Feeding a stream hasher any sequence of chunks and finalising gives
    the one-shot hash of the concatenated bytes. *)
Theorem stream_hash_is_one_shot_hash
    (uninit : list ascii) (seed : Z) (chunks : list (list ascii)) :
  length uninit = 32%nat ->
  Z.of_nat (length (concat chunks)) < 2 ^ 64 ->
  finalize (feed chunks (make uninit seed)) = hash (concat chunks) seed.
Proof.
  intros Hmem Hbound.
  apply finalize_absorbed; [|exact Hbound].
  apply (feed_absorbed seed chunks [] (make uninit seed));
    [apply make_absorbed; exact Hmem|exact Hbound].
Qed.

Lemma stream_hash_is_one_shot_hash_witness :
  finalize (feed [str "Nobody inspects"; []; str " the spammish repetition ";
                  str "of thirty-two byte blocks, twice over."]
              (make (replicate 32 "x"%char) 7)) =
  hash (concat [str "Nobody inspects"; []; str " the spammish repetition ";
                str "of thirty-two byte blocks, twice over."]) 7.
Proof.
  apply (stream_hash_is_one_shot_hash (replicate 32 "x"%char) 7).
  - reflexivity.
  - vm_compute. reflexivity.
Defined.


Section HashFile.
Import FileHasher.

Lemma BUFFER_SIZE_pos : (0 < BUFFER_SIZE)%nat.
Proof. unfold BUFFER_SIZE. lia. Qed.

Lemma read_loop_absorbed seed fuel unread d s :
  absorbed seed d s ->
  (length unread < fuel)%nat ->
  Z.of_nat (length (d ++ unread)) < 2 ^ 64 ->
  exists s', read_loop fuel unread s = Done s' /\
             absorbed seed (d ++ unread) s'.
Proof.
  pose proof BUFFER_SIZE_pos as Hpos.
  revert unread d s. induction fuel as [|fuel IH]; intros unread d s Hs Hf Hb;
    [lia|].
  cbn [read_loop].
  destruct (Nat.leb_spec BUFFER_SIZE (length unread)) as [Hfull|Hshort].
  - replace (d ++ unread)
      with ((d ++ take BUFFER_SIZE unread) ++ drop BUFFER_SIZE unread)
      by (rewrite <- app_assoc, take_drop; reflexivity).
    apply IH.
    + apply update_absorbed; [exact Hs|].
      rewrite length_app, length_take. rewrite length_app in Hb. lia.
    + rewrite length_drop. lia.
    + rewrite <- app_assoc, take_drop. exact Hb.
  - destruct (Nat.ltb_spec 0 (length unread)) as [Hsome|Hnone].
    + eexists. split; [reflexivity|]. apply update_absorbed; assumption.
    + destruct unread; [|cbn in Hnone; lia].
      eexists. split; [reflexivity|]. rewrite app_nil_r. exact Hs.
Qed.

(** X2. [hash_file] on a file that can be read: the one-shot xxHash64 (seed 0)
    of the content, whether the file is mapped or streamed through the
    64 KiB buffer; except that a mapped empty file gives 0. A file that
    cannot be opened gives 0. *)
Theorem hash_file_is_content_hash
    (uninit content : list ascii) (stream : option (list ascii)) :
  length uninit = 32%nat ->
  Z.of_nat (length content) < 2 ^ 64 ->
  hash_file_impl uninit None (Some content) = Done (hash_string content) /\
  hash_file_impl uninit (Some content) stream =
    Done (if (length content =? 0)%nat then 0 else hash_string content) /\
  hash_file_impl uninit None None = Done 0.
Proof.
  intros Hmem Hbound. split; [|split].
  - unfold hash_file_impl.
    destruct (read_loop_absorbed 0 (S (length content)) content []
                (make uninit 0)) as (s' & -> & Hs').
    + apply make_absorbed. exact Hmem.
    + lia.
    + exact Hbound.
    + f_equal. apply finalize_absorbed; assumption.
  - unfold hash_file_impl, hash_string.
    destruct (length content =? 0)%nat; reflexivity.
  - reflexivity.
Qed.

Lemma hash_file_is_content_hash_witness :
  hash_file_impl (replicate 32 zero_byte) None (Some (str "abc")) =
    Done (hash_string (str "abc")) /\
  hash_file_impl (replicate 32 zero_byte) (Some (str "abc")) None =
    Done (if (length (str "abc") =? 0)%nat then 0
          else hash_string (str "abc")) /\
  hash_file_impl (replicate 32 zero_byte) None None = Done 0.
Proof.
  apply (hash_file_is_content_hash (replicate 32 zero_byte) (str "abc") None).
  - reflexivity.
  - vm_compute. reflexivity.
Defined.

End HashFile.

End StreamFacts.

(** ** Token counts, token ids and boundaries *)

Section TokenizerMore.
Import Tokenizer.

Lemma scan_run_credit_pos hex ops c r credit s' :
  scan_run hex ops (c :: r) = (credit, s') ->
  Z.of_nat (length (c :: r)) < 2 ^ 32 ->
  1 <= credit.
Proof.
  intros E Hlen. unfold scan_run in E.
  destruct (categorize c) eqn:Hc.
  - injection E as <- _. lia.
  - assert (Hw : is_word_char c = true)
      by (unfold is_word_char; rewrite (proj2 (is_cat_categorize LETTER c) Hc);
          reflexivity).
    pose proof (skip_while_head is_word_char c r Hw) as Hs.
    remember (skip_while is_word_char (c :: r)) as sw eqn:Hsw.
    injection E as <- _.
    unfold run_len, word_tokens.
    set (n := Z.of_nat (length (c :: r)) - Z.of_nat (length sw)) in *.
    assert (Hn : 1 <= n < 2 ^ 32) by (unfold n; cbn [length] in *; lia).
    pose proof (ceil_div_bounds n 4 ltac:(lia) ltac:(lia)).
    repeat destruct (_ <=? _); try lia.
    rewrite u32_small; lia.
  - assert (Hw : is_number_char hex c = true).
    { unfold is_number_char. unfold categorize in Hc.
      destruct ((byte_val c =? 10) || (byte_val c =? 13)); [discriminate|].
      destruct (isspace (byte_val c)); [discriminate|].
      destruct (isalpha (byte_val c) || (byte_val c =? 95) || (128 <=? byte_val c));
        [discriminate|].
      destruct (isdigit (byte_val c)); [reflexivity|].
      destruct (ispunct (byte_val c)); discriminate. }
    pose proof (skip_while_head (is_number_char hex) c r Hw) as Hs.
    remember (skip_while (is_number_char hex) (c :: r)) as sw eqn:Hsw.
    injection E as <- _.
    unfold run_len, number_tokens.
    set (n := Z.of_nat (length (c :: r)) - Z.of_nat (length sw)) in *.
    assert (Hn : 1 <= n < 2 ^ 32) by (unfold n; cbn [length] in *; lia).
    pose proof (ceil_div_bounds n 3 ltac:(lia) ltac:(lia)).
    rewrite u32_small; lia.
  - destruct r as [|next r2]; [injection E as <- _; lia|].
    destruct (op_pair c next ops); [|injection E as <- _; lia].
    destruct r2 as [|e r3]; [injection E as <- _; lia|].
    destruct (Ascii.eqb e "="); injection E as <- _; lia.
  - injection E as <- _. lia.
  - injection E as <- _. lia.
Qed.

Lemma credits_pos hex ops fuel c r :
  Z.of_nat (length (c :: r)) < 2 ^ 32 ->
  1 <= credits hex ops (S fuel) (c :: r).
Proof.
  intros Hlen. cbn [credits].
  destruct (scan_run hex ops (c :: r)) as [credit s'] eqn:E.
  pose proof (scan_run_credit_pos _ _ _ _ _ _ E Hlen).
  pose proof (credits_bounds hex ops fuel s'). lia.
Qed.

(** X3. [count_tokens]: 0 for the empty text; otherwise at least one token and
    at most one token per byte. *)
Theorem count_tokens_bounds (text : list ascii) :
  Z.of_nat (length text) < 2 ^ 32 ->
  (if text is [] then 0 else 1) <= count_tokens text <= Z.of_nat (length text).
Proof.
  intros Hlen. unfold count_tokens.
  rewrite estimate_tokens_tokens by exact Hlen. unfold tokens.
  pose proof (credits_bounds true estimate_ops (length text) text) as Hb.
  destruct text as [|c r]; [exact Hb|].
  pose proof (credits_pos true estimate_ops (length r) c r Hlen) as Hp.
  cbn [length] in *. lia.
Qed.

Lemma count_tokens_bounds_witness :
  (if str "x = 1" is [] then 0 else 1) <= count_tokens (str "x = 1")
  <= Z.of_nat (length (str "x = 1")).
Proof.
  apply (count_tokens_bounds (str "x = 1")). vm_compute. reflexivity.
Defined.


Lemma encode_run_scan s :
  Z.of_nat (length s) < 2 ^ 32 -> encode_run s = scan_run true encode_ops s.
Proof.
  intros Hlen. destruct s as [|c r]; [reflexivity|].
  unfold encode_run, scan_run. destruct (categorize c); try reflexivity.
  - pose proof (skip_while_length is_word_char (c :: r)) as Hs.
    remember (skip_while is_word_char (c :: r)) as sw eqn:Hsw.
    f_equal. unfold word_subtokens, word_tokens, run_len.
    set (n := Z.of_nat (length (c :: r)) - Z.of_nat (length sw)) in *.
    assert (Hn : 0 <= n < 2 ^ 32) by (unfold n; lia).
    destruct (n <=? 4); [reflexivity|]. destruct (n <=? 8); [reflexivity|].
    destruct (Z.leb_spec n 12); [reflexivity|].
    pose proof (ceil_div_bounds n 4 ltac:(lia) ltac:(lia)).
    unfold u64. rewrite u32_small by lia. apply Z.mod_small. lia.
  - pose proof (skip_while_length (is_number_char true) (c :: r)) as Hs.
    remember (skip_while (is_number_char true) (c :: r)) as sw eqn:Hsw.
    f_equal. unfold number_subtokens, number_tokens, run_len.
    set (n := Z.of_nat (length (c :: r)) - Z.of_nat (length sw)) in *.
    assert (Hn : 0 <= n < 2 ^ 32) by (unfold n; lia).
    destruct (Z.eq_dec n 0) as [->|Hne]; [reflexivity|].
    pose proof (ceil_div_bounds n 3 ltac:(lia) ltac:(lia)).
    unfold u64. rewrite u32_small by lia. apply Z.mod_small. lia.
Qed.

Lemma push_ids_seq n tokens (i0 : nat) :
  Z.of_nat (i0 + n) < 2 ^ 32 ->
  push_ids n tokens (Z.of_nat i0) =
  (tokens ++ map Z.of_nat (seq i0 n), Z.of_nat (i0 + n)).
Proof.
  revert tokens i0. induction n as [|n IH]; intros tokens i0 Hb.
  - cbn. rewrite app_nil_r, Nat.add_0_r. reflexivity.
  - cbn [push_ids seq map].
    replace (u32 (Z.of_nat i0 + 1)) with (Z.of_nat (S i0))
      by (rewrite u32_small; lia).
    rewrite IH by lia. rewrite <- app_assoc. cbn [app].
    f_equal. lia.
Qed.

Lemma encode_loop_seq fuel s tokens (i0 : nat) :
  Z.of_nat i0 + Z.of_nat (length s) < 2 ^ 32 ->
  encode_loop fuel s tokens (Z.of_nat i0) =
  tokens ++ map Z.of_nat
              (seq i0 (Z.to_nat (credits true encode_ops fuel s))).
Proof.
  revert s tokens i0. induction fuel as [|fuel IH]; intros s tokens i0 Hb.
  - destruct s; cbn; rewrite app_nil_r; reflexivity.
  - destruct s as [|c r]; [cbn; rewrite app_nil_r; reflexivity|].
    cbn [encode_loop credits]. rewrite encode_run_scan by lia.
    destruct (scan_run true encode_ops (c :: r)) as [credit s'] eqn:E.
    destruct (scan_run_bounds true encode_ops c r credit s' E) as [Hs Hc].
    pose proof (credits_bounds true encode_ops fuel s') as Hrest.
    rewrite <- (Z2Nat.id credit) at 1 by lia.
    rewrite Nat2Z.id.
    rewrite push_ids_seq by (cbn [length] in *; lia).
    rewrite IH by (cbn [length] in *; lia).
    rewrite Z2Nat.inj_add by lia.
    rewrite seq_app, map_app, <- app_assoc. reflexivity.
Qed.

(** X4. [encode] returns the ids 0, 1, ..., n-1 in this order, whatever the
    text says; there is at least one id for a non-empty text and at most
    one id per byte. *)
Theorem encode_consecutive_ids (text : list ascii) :
  Z.of_nat (length text) < 2 ^ 32 ->
  encode text = map Z.of_nat (seq 0 (length (encode text))) /\
  ((if text is [] then 0 else 1) <= length (encode text) <= length text)%nat.
Proof.
  intros Hlen. unfold encode, encode_precise.
  change 0 with (Z.of_nat 0).
  rewrite encode_loop_seq by (cbn; lia). cbn [app].
  rewrite length_map, length_seq. split; [reflexivity|].
  pose proof (credits_bounds true encode_ops (length text) text) as Hb.
  destruct text as [|c r]; [cbn in *; lia|].
  pose proof (credits_pos true encode_ops (length r) c r Hlen) as Hp.
  cbn [length] in *. lia.
Qed.

Lemma encode_consecutive_ids_witness :
  encode (str "a += 10") =
    map Z.of_nat (seq 0 (length (encode (str "a += 10")))) /\
  ((if str "a += 10" is [] then 0 else 1)
   <= length (encode (str "a += 10")) <= length (str "a += 10"))%nat.
Proof.
  apply (encode_consecutive_ids (str "a += 10")). vm_compute. reflexivity.
Defined.

(** *** The boundary grows with the target *)

Lemma find_loop_ge fuel len s tc target lgp :
  (lgp <= len - length s)%nat ->
  (lgp <= find_loop fuel len s tc target lgp)%nat.
Proof.
  revert s tc lgp. induction fuel as [|fuel IH]; intros s tc lgp Hl.
  - destruct s; cbn; lia.
  - destruct s as [|c r]; [cbn; lia|].
    cbn [find_loop]. destruct (tc <? target); [|lia].
    destruct (scan_run false boundary_ops (c :: r)) as [credit s'] eqn:E.
    destruct (scan_run_bounds _ _ _ _ _ _ E) as [Hs _].
    etransitivity; [|apply IH]; cbn [length] in *; lia.
Qed.

Lemma find_loop_mono fuel len s tc t1 t2 lgp :
  t1 <= t2 -> (lgp <= len - length s)%nat ->
  (find_loop fuel len s tc t1 lgp <= find_loop fuel len s tc t2 lgp)%nat.
Proof.
  intros Ht. revert s tc lgp.
  induction fuel as [|fuel IH]; intros s tc lgp Hl.
  - destruct s; cbn; lia.
  - destruct s as [|c r]; [cbn; lia|].
    cbn [find_loop].
    destruct (Z.ltb_spec tc t1) as [H1|H1].
    + destruct (Z.ltb_spec tc t2) as [_|H2]; [|lia].
      destruct (scan_run false boundary_ops (c :: r)) as [credit s'] eqn:E.
      destruct (scan_run_bounds _ _ _ _ _ _ E) as [Hs _].
      apply IH. cbn [length] in *. lia.
    + destruct (Z.ltb_spec tc t2) as [H2|_]; [|lia].
      destruct (scan_run false boundary_ops (c :: r)) as [credit s'] eqn:E.
      destruct (scan_run_bounds _ _ _ _ _ _ E) as [Hs _].
      etransitivity; [|apply find_loop_ge]; cbn [length] in *; lia.
Qed.

Lemma find_loop_lt fuel len s tc target lgp :
  (length s <= len)%nat -> (lgp < len)%nat ->
  (find_loop fuel len s tc target lgp < len)%nat.
Proof.
  revert s tc lgp. induction fuel as [|fuel IH]; intros s tc lgp Hs Hl.
  - destruct s; cbn; lia.
  - destruct s as [|c r]; [cbn; lia|].
    cbn [find_loop]. destruct (tc <? target); [|lia].
    destruct (scan_run false boundary_ops (c :: r)) as [credit s'] eqn:E.
    destruct (scan_run_bounds _ _ _ _ _ _ E) as [Hs' _].
    apply IH; cbn [length] in *; lia.
Qed.

Lemma find_token_boundary_lt text target :
  text <> [] -> (find_token_boundary text target < length text)%nat.
Proof.
  intros Hne. unfold find_token_boundary, find_boundary.
  destruct text as [|c r]; [congruence|].
  destruct (target =? 0); [cbn; lia|].
  apply find_loop_lt; cbn; lia.
Qed.

(** X5. A larger token target never gives a smaller boundary. *)
Theorem find_token_boundary_monotone (text : list ascii) (t1 t2 : Z) :
  0 <= t1 <= t2 ->
  (find_token_boundary text t1 <= find_token_boundary text t2)%nat.
Proof.
  intros [H0 H12]. unfold find_token_boundary, find_boundary.
  destruct text as [|c r]; [lia|].
  destruct (Z.eqb_spec t1 0) as [->|H1]; [lia|].
  destruct (Z.eqb_spec t2 0) as [->|H2]; [lia|].
  apply find_loop_mono; [exact H12|lia].
Qed.

Lemma find_token_boundary_monotone_witness :
  (find_token_boundary (str "hello == world") 3
   <= find_token_boundary (str "hello == world") 4)%nat.
Proof.
  apply (find_token_boundary_monotone (str "hello == world") 3 4). lia.
Defined.

End TokenizerMore.

(** ** Tree comparison, tree shape and the record format *)

Section MerkleDiffFacts.
Import Merkle.

Lemma find_In {V} k (m : list (string * V)) v :
  OrdMap.find k m = Some v -> In (k, v) m.
Proof.
  induction m as [|[k' v'] m IH]; cbn [OrdMap.find]; [discriminate|].
  destruct (String.compare k k') eqn:E.
  - apply String.compare_eq_iff in E. subst k'. intros [= ->]. left. reflexivity.
  - discriminate.
  - intros H. right. apply IH. exact H.
Qed.

Lemma height_child n h f ch k c :
  In (k, c) ch -> (height c < height (Node n h f ch))%nat.
Proof.
  cbn [height]. induction ch as [|[k' c'] ch IH]; [intros []|].
  intros [[= -> ->]|Hin]; cbn [map fold_right snd].
  - lia.
  - specialize (IH Hin). lia.
Qed.

Lemma diff_children_same rec node names path acc :
  (forall name c p a,
     child_of (Some node) name = Some c -> rec (Some c) (Some c) p a = Done a) ->
  (forall p a, rec None None p a = Done a) ->
  diff_children rec (Some node) (Some node) path names acc = Done acc.
Proof.
  intros Hsome Hnone. revert acc.
  induction names as [|name names IH]; intros acc; [reflexivity|].
  cbn [diff_children].
  destruct (child_of (Some node) name) as [c|] eqn:E.
  - rewrite (Hsome name c _ _ E). apply IH.
  - rewrite Hnone. apply IH.
Qed.

Lemma collect_diff_same fuel node path acc :
  (height node <= fuel)%nat ->
  collect_diff fuel (Some node) (Some node) path acc = Done acc.
Proof.
  revert node path acc. induction fuel as [|fuel IH]; intros node path acc Hh.
  - destruct node. cbn [height] in Hh. lia.
  - cbn [collect_diff]. rewrite Z.eqb_refl. cbn [negb andb].
    apply diff_children_same.
    + intros name c p a Hc. apply IH. cbn [child_of] in Hc.
      apply find_In in Hc. destruct node as [n h f ch]. cbn [children] in Hc.
      pose proof (height_child n h f ch name c Hc). lia.
    + intros p a. destruct fuel; reflexivity.
Qed.

(** X6. [diff] of a tree against itself reports no path, whatever state the
    stored hashes are in. *)
Theorem diff_same_tree (t : MerkleTree) : diff t t = Done [].
Proof. unfold diff. apply collect_diff_same. lia. Qed.

End MerkleDiffFacts.

Section OrdMapSorted.
Import Merkle.
Context {V : Type}.
Implicit Types (m : list (string * V)) (k : string) (v : V).

Lemma compare_lt_trans a b c :
  String.compare a b = Lt -> String.compare b c = Lt -> String.compare a c = Lt.
Proof.
  intros H1 H2.
  apply OrderedTypeEx.String_as_OT.cmp_lt in H1, H2.
  apply OrderedTypeEx.String_as_OT.cmp_lt.
  eapply OrderedTypeEx.String_as_OT.lt_trans; eassumption.
Qed.

Lemma compare_gt_lt a b : String.compare a b = Gt <-> String.compare b a = Lt.
Proof.
  rewrite (String.compare_antisym b a).
  destruct (String.compare a b); cbn; split; congruence.
Qed.

Lemma ltb_compare a b : String.ltb a b = true <-> String.compare a b = Lt.
Proof. unfold String.ltb. destruct (String.compare a b); split; congruence. Qed.

(** Every key of [m] is above [k]. *)
#[local] Abbreviation above k m :=
  (Forall (fun kv : string * V => String.compare k (fst kv) = Lt) m).

Lemma sorted_cons k v m :
  sorted_keys ((k, v) :: m) = true <-> above k m /\ sorted_keys m = true.
Proof.
  revert k v. induction m as [|[k' v'] m IH]; intros k v.
  - cbn. split; [intros _; split; [constructor|reflexivity]|reflexivity].
  - change (sorted_keys ((k, v) :: (k', v') :: m))
      with (String.ltb k k' && sorted_keys ((k', v') :: m)).
    rewrite andb_true_iff, ltb_compare. split.
    + intros [Hlt Hs]. split; [|exact Hs]. constructor; [exact Hlt|].
      apply IH in Hs as [Ha _]. eapply Forall_impl; [exact Ha|].
      cbn. intros kv Hkv. eapply compare_lt_trans; eassumption.
    + intros [Ha Hs]. split; [|exact Hs]. apply Forall_cons in Ha as [Ha _].
      exact Ha.
Qed.

Lemma find_above k m : above k m -> OrdMap.find k m = None.
Proof.
  destruct m as [|[k' v'] m]; [reflexivity|].
  intros Ha. apply Forall_cons in Ha as [Ha _]. cbn in Ha.
  cbn [OrdMap.find]. rewrite Ha. reflexivity.
Qed.

Lemma above_insert k k' v m :
  String.compare k k' = Lt -> above k m -> above k (OrdMap.insert k' v m).
Proof.
  intros Hlt. induction m as [|[k2 v2] m IH]; intros Ha.
  - constructor; [exact Hlt|constructor].
  - apply Forall_cons in Ha as [H2 Ha]. cbn [OrdMap.insert].
    destruct (String.compare k' k2).
    + constructor; [exact Hlt|exact Ha].
    + constructor; [exact Hlt|]. constructor; assumption.
    + constructor; [exact H2|]. apply IH. exact Ha.
Qed.

Lemma above_erase k k' m : above k m -> above k (OrdMap.erase k' m).
Proof.
  induction m as [|[k2 v2] m IH]; intros Ha; [constructor|].
  apply Forall_cons in Ha as [H2 Ha]. cbn [OrdMap.erase].
  destruct (String.compare k' k2).
  - exact Ha.
  - constructor; assumption.
  - constructor; [exact H2|]. apply IH. exact Ha.
Qed.

Lemma sorted_insert k v m :
  sorted_keys m = true -> sorted_keys (OrdMap.insert k v m) = true.
Proof.
  induction m as [|[k' v'] m IH]; intros Hs; [reflexivity|].
  cbn [OrdMap.insert]. apply sorted_cons in Hs as [Ha Hs].
  destruct (String.compare k k') eqn:E.
  - apply String.compare_eq_iff in E. subst k'.
    apply sorted_cons. split; assumption.
  - apply sorted_cons. split.
    + constructor; [exact E|]. eapply Forall_impl; [exact Ha|].
      cbn. intros kv Hkv. eapply compare_lt_trans; eassumption.
    + apply sorted_cons. split; assumption.
  - apply sorted_cons. split; [|apply IH; exact Hs].
    apply above_insert; [|exact Ha]. apply compare_gt_lt. exact E.
Qed.

Lemma sorted_erase k m :
  sorted_keys m = true -> sorted_keys (OrdMap.erase k m) = true.
Proof.
  induction m as [|[k' v'] m IH]; intros Hs; [reflexivity|].
  cbn [OrdMap.erase]. pose proof Hs as Hs'. apply sorted_cons in Hs as [Ha Hs].
  destruct (String.compare k k'); [exact Hs|exact Hs'|].
  apply sorted_cons. split; [apply above_erase; exact Ha|apply IH; exact Hs].
Qed.

Lemma find_erase k m :
  sorted_keys m = true -> OrdMap.find k (OrdMap.erase k m) = None.
Proof.
  induction m as [|[k' v'] m IH]; intros Hs; [reflexivity|].
  cbn [OrdMap.erase]. apply sorted_cons in Hs as [Ha Hs].
  destruct (String.compare k k') eqn:E.
  - apply String.compare_eq_iff in E. subst k'. apply find_above. exact Ha.
  - cbn [OrdMap.find]. rewrite E. reflexivity.
  - cbn [OrdMap.find]. rewrite E. apply IH. exact Hs.
Qed.

(** Looking up another key is not disturbed by an insertion or an
    erasure. *)
Lemma find_insert_ne k k' v m :
  k <> k' -> OrdMap.find k' (OrdMap.insert k v m) = OrdMap.find k' m.
Proof.
  intros Hne. induction m as [|[k2 v2] m IH]; cbn [OrdMap.insert OrdMap.find].
  - destruct (String.compare k' k) eqn:E; try reflexivity.
    apply String.compare_eq_iff in E. congruence.
  - destruct (String.compare k k2) eqn:E.
    + apply String.compare_eq_iff in E. subst k2. cbn [OrdMap.find].
      destruct (String.compare k' k) eqn:E'; try reflexivity.
      apply String.compare_eq_iff in E'. congruence.
    + cbn [OrdMap.find].
      destruct (String.compare k' k) eqn:E1.
      * apply String.compare_eq_iff in E1. congruence.
      * rewrite (compare_lt_trans _ _ _ E1 E). reflexivity.
      * reflexivity.
    + cbn [OrdMap.find]. rewrite IH. reflexivity.
Qed.

Lemma find_erase_ne k k' m :
  sorted_keys m = true -> k <> k' ->
  OrdMap.find k' (OrdMap.erase k m) = OrdMap.find k' m.
Proof.
  intros Hs Hne. induction m as [|[k2 v2] m IH]; [reflexivity|].
  cbn [OrdMap.erase]. apply sorted_cons in Hs as [Ha Hs].
  destruct (String.compare k k2) eqn:E.
  - apply String.compare_eq_iff in E. subst k2. cbn [OrdMap.find].
    destruct (String.compare k' k) eqn:E'.
    + apply String.compare_eq_iff in E'. congruence.
    + symmetry. destruct m as [|[k3 v3] m]; [reflexivity|].
      apply Forall_cons in Ha as [H3 _]. cbn in H3. cbn [OrdMap.find].
      rewrite (compare_lt_trans _ _ _ E' H3). reflexivity.
    + reflexivity.
  - reflexivity.
  - cbn [OrdMap.find]. rewrite IH by exact Hs. reflexivity.
Qed.

(** A key above all keys goes to the end. *)
Lemma insert_last k v m :
  Forall (fun kv => String.compare (fst kv) k = Lt) m ->
  OrdMap.insert k v m = m ++ [(k, v)].
Proof.
  induction m as [|[k' v'] m IH]; intros Hb; [reflexivity|].
  apply Forall_cons in Hb as [H1 Hb]. cbn in H1. cbn [OrdMap.insert].
  rewrite (proj2 (compare_gt_lt k k') H1). rewrite IH by exact Hb. reflexivity.
Qed.

Lemma sorted_app_last m k v :
  sorted_keys (m ++ [(k, v)]) = true ->
  Forall (fun kv => String.compare (fst kv) k = Lt) m.
Proof.
  induction m as [|[k' v'] m IH]; intros Hs; [constructor|].
  cbn [app] in Hs. apply sorted_cons in Hs as [Ha Hs].
  constructor; [|apply IH; exact Hs].
  cbn. rewrite Forall_app in Ha. destruct Ha as [_ Ha].
  apply Forall_cons in Ha as [Ha _]. exact Ha.
Qed.

End OrdMapSorted.

Section WellFormed.
Import Merkle.

#[local] Abbreviation child_ok :=
  (fun kc : string * MerkleNode =>
     fst kc = name (snd kc) /\ well_formed (snd kc) = true).

Lemma well_formed_node n h f ch :
  well_formed (Node n h f ch) = true <->
  sorted_keys ch = true /\ Forall child_ok ch.
Proof.
  cbn [well_formed]. rewrite andb_true_iff, forallb_forall, Forall_forall.
  split; intros [Hs Hc]; (split; [exact Hs|]); intros kc Hin.
  - apply list_elem_of_In in Hin. specialize (Hc kc Hin).
    apply andb_true_iff in Hc as [Hk Hw]. apply String.eqb_eq in Hk.
    split; assumption.
  - apply list_elem_of_In in Hin. destruct (Hc kc Hin) as [Hk Hw].
    apply andb_true_iff. split; [apply String.eqb_eq; exact Hk|exact Hw].
Qed.

Lemma Forall_ord_insert {V} (P : string * V -> Prop) k v m :
  P (k, v) -> Forall P m -> Forall P (OrdMap.insert k v m).
Proof.
  intros Hp. induction m as [|[k' v'] m IH]; intros Hm.
  - constructor; [exact Hp|constructor].
  - apply Forall_cons in Hm as [H1 Hm]. cbn [OrdMap.insert].
    destruct (String.compare k k').
    + constructor; assumption.
    + constructor; [exact Hp|]. constructor; assumption.
    + constructor; [exact H1|]. apply IH. exact Hm.
Qed.

Lemma Forall_ord_erase {V} (P : string * V -> Prop) k m :
  Forall P m -> Forall P (OrdMap.erase k m).
Proof.
  induction m as [|[k' v'] m IH]; intros Hm; [constructor|].
  apply Forall_cons in Hm as [H1 Hm]. cbn [OrdMap.erase].
  destruct (String.compare k k').
  - exact Hm.
  - constructor; assumption.
  - constructor; [exact H1|]. apply IH. exact Hm.
Qed.

Lemma Forall_ord_find {V} (P : string * V -> Prop) k v m :
  Forall P m -> OrdMap.find k m = Some v -> P (k, v).
Proof.
  intros Hm Hf. apply find_In in Hf. rewrite Forall_forall in Hm.
  apply Hm. apply list_elem_of_In. exact Hf.
Qed.

Lemma create_path_name comps fl node :
  name (create_path comps fl node) = name node.
Proof.
  destruct comps as [|comp rest]; [reflexivity|].
  destruct node as [n h f ch]. cbn [create_path].
  destruct (OrdMap.find comp
              match OrdMap.find comp ch with
              | Some _ => ch
              | None => OrdMap.insert comp
                          (Node comp 0 (match rest with [] => true | _ :: _ => false end && fl) [])
                          ch
              end); reflexivity.
Qed.

Lemma create_path_well_formed comps fl node :
  well_formed node = true -> well_formed (create_path comps fl node) = true.
Proof.
  revert node. induction comps as [|comp rest IH]; intros node Hw; [exact Hw|].
  destruct node as [n h f ch]. apply well_formed_node in Hw as [Hs Hc].
  cbn [create_path].
  set (fresh := Node comp 0
                  (match rest with [] => true | _ :: _ => false end && fl) []).
  set (ch' := match OrdMap.find comp ch with
              | Some _ => ch
              | None => OrdMap.insert comp fresh ch
              end).
  assert (Hs' : sorted_keys ch' = true).
  { unfold ch'. destruct (OrdMap.find comp ch); [exact Hs|].
    apply sorted_insert. exact Hs. }
  assert (Hc' : Forall child_ok ch').
  { unfold ch'. destruct (OrdMap.find comp ch); [exact Hc|].
    apply Forall_ord_insert; [|exact Hc]. split; reflexivity. }
  destruct (OrdMap.find comp ch') as [child|] eqn:E.
  - apply well_formed_node. split; [apply sorted_insert; exact Hs'|].
    destruct (Forall_ord_find _ _ _ _ Hc' E) as [Hk Hwc]. cbn [fst snd] in *.
    apply Forall_ord_insert; [|exact Hc']. cbn [fst snd]. split.
    + rewrite create_path_name. exact Hk.
    + apply IH. exact Hwc.
  - apply well_formed_node. split; assumption.
Qed.

Lemma update_at_well_formed comps g node :
  (forall x, find_at comps node = Some x -> well_formed x = true ->
             name (g x) = name x /\ well_formed (g x) = true) ->
  well_formed node = true ->
  name (update_at comps g node) = name node /\
  well_formed (update_at comps g node) = true.
Proof.
  revert node. induction comps as [|comp rest IH]; intros node Hg Hw.
  - cbn [update_at]. apply Hg; [reflexivity|exact Hw].
  - destruct node as [n h f ch]. cbn [update_at].
    cbn [find_at children] in Hg.
    destruct (OrdMap.find comp ch) as [child|] eqn:E;
      [|split; [reflexivity|exact Hw]].
    split; [reflexivity|].
    apply well_formed_node in Hw as [Hs Hc].
    destruct (Forall_ord_find _ _ _ _ Hc E) as [Hk Hwc]. cbn [fst snd] in *.
    destruct (IH child Hg Hwc) as [Hn Hw'].
    apply well_formed_node. split; [apply sorted_insert; exact Hs|].
    apply Forall_ord_insert; [|exact Hc]. cbn [fst snd].
    split; [rewrite Hn; exact Hk|exact Hw'].
Qed.

Lemma find_at_well_formed comps node x :
  find_at comps node = Some x -> well_formed node = true ->
  well_formed x = true.
Proof.
  revert node. induction comps as [|comp rest IH]; intros node Hf Hw.
  - injection Hf as <-. exact Hw.
  - destruct node as [n h f ch]. cbn [find_at children] in Hf.
    destruct (OrdMap.find comp ch) as [child|] eqn:E; [|discriminate].
    apply well_formed_node in Hw as [_ Hc].
    destruct (Forall_ord_find _ _ _ _ Hc E) as [_ Hwc].
    apply (IH child Hf Hwc).
Qed.

Lemma remove_at_well_formed comps node :
  well_formed node = true ->
  name (snd (remove_at comps node)) = name node /\
  well_formed (snd (remove_at comps node)) = true.
Proof.
  revert node. induction comps as [|comp rest IH]; intros node Hw.
  - split; [reflexivity|exact Hw].
  - destruct node as [n h f ch]. pose proof Hw as Hw0.
    apply well_formed_node in Hw as [Hs Hc].
    destruct rest as [|c2 rest].
    + cbn [remove_at snd]. split; [reflexivity|].
      apply well_formed_node. split;
        [apply sorted_erase; exact Hs|apply Forall_ord_erase; exact Hc].
    + rewrite remove_at_cons by discriminate.
      destruct (OrdMap.find comp ch) as [child|] eqn:E;
        [|split; [reflexivity|exact Hw0]].
      destruct (Forall_ord_find _ _ _ _ Hc E) as [Hk Hwc]. cbn [fst snd] in *.
      destruct (IH child Hwc) as [Hn Hw'].
      destruct (remove_at (c2 :: rest) child) as [erased child'].
      cbn [snd] in *. split; [reflexivity|].
      apply well_formed_node. split; [apply sorted_insert; exact Hs|].
      apply Forall_ord_insert; [|exact Hc]. cbn [fst snd].
      split; [rewrite Hn; exact Hk|exact Hw'].
Qed.

Lemma sorted_keys_map {V W} (g : string * V -> W) (m : list (string * V)) :
  sorted_keys (map (fun kv => (fst kv, g kv)) m) = sorted_keys m.
Proof.
  induction m as [|[k v] m IH]; [reflexivity|].
  destruct m as [|[k' v'] m]; [reflexivity|].
  change (String.ltb k k' &&
          sorted_keys (map (fun kv => (fst kv, g kv)) ((k', v') :: m)) =
          String.ltb k k' && sorted_keys ((k', v') :: m)).
  rewrite IH. reflexivity.
Qed.

Lemma compute_node_hash_children n h ch :
  snd (compute_node_hash (Node n h false ch)) =
  Node n (fst (compute_node_hash (Node n h false ch))) false
    (map (fun kc => (fst kc, snd (compute_node_hash (snd kc)))) ch).
Proof.
  cbn [compute_node_hash snd fst]. f_equal.
  rewrite map_map. reflexivity.
Qed.

Lemma compute_node_hash_well_formed node :
  well_formed node = true ->
  name (snd (compute_node_hash node)) = name node /\
  well_formed (snd (compute_node_hash node)) = true.
Proof.
  induction node as [n h f ch IH] using MerkleNode_nested_ind. intros Hw.
  destruct f; [split; [reflexivity|exact Hw]|].
  rewrite compute_node_hash_children. split; [reflexivity|].
  apply well_formed_node in Hw as [Hs Hc]. apply well_formed_node.
  split; [rewrite sorted_keys_map; exact Hs|].
  rewrite Forall_map. rewrite Forall_forall in IH, Hc |- *.
  intros kc Hin. cbn [fst snd]. destruct (Hc kc Hin) as [Hk Hwc].
  destruct (IH kc Hin Hwc) as [Hn Hw']. split; [rewrite Hn; exact Hk|exact Hw'].
Qed.


Lemma sorted_app_l {V} (a b : list (string * V)) :
  sorted_keys (a ++ b) = true -> sorted_keys a = true.
Proof.
  induction a as [|[k v] a IH]; intros Hs; [reflexivity|].
  cbn [app] in Hs. apply sorted_cons in Hs as [Ha Hs].
  apply sorted_cons. split; [|apply IH; exact Hs].
  rewrite Forall_app in Ha. apply Ha.
Qed.

Lemma children_loop_well_formed rec child_count k i data acc ch rest :
  (forall d n r, rec d = Done (n, r) -> well_formed n = true) ->
  sorted_keys acc = true -> Forall child_ok acc ->
  children_loop rec child_count k i data acc = Done (ch, rest) ->
  sorted_keys ch = true /\ Forall child_ok ch.
Proof.
  intros Hrec. revert i data acc.
  induction k as [|k IH]; intros i data acc Hs Hc; cbn [children_loop];
    destruct (i <? child_count); try discriminate;
    try (intros [= <- <-]; split; assumption).
  destruct (rec data) as [[child data']| |] eqn:E; try discriminate.
  apply IH.
  - apply sorted_insert. exact Hs.
  - apply Forall_ord_insert; [|exact Hc]. split; [reflexivity|].
    eapply Hrec. exact E.
Qed.

Lemma deserialize_node_well_formed fuel data n rest :
  deserialize_node fuel data = Done (n, rest) -> well_formed n = true.
Proof.
  revert data n rest. induction fuel as [|fuel IH]; intros data n rest;
    [discriminate|].
  rewrite deserialize_node_unfold.
  destruct (parse_header data) as [[[[[nm h] f] cc] data']|]; [|discriminate].
  destruct (children_loop (deserialize_node fuel) cc fuel 0 data' [])
    as [[ch r]| |] eqn:E; try discriminate.
  intros [= <- <-].
  apply (children_loop_well_formed _ _ _ _ _ _ _ _ IH) in E as [Hs Hc];
    [|reflexivity|constructor].
  apply well_formed_node. split; assumption.
Qed.

(** Every tree a client can hold keeps its children maps in name order
    with each child under its own name. *)
Lemma reachable_well_formed t : reachable t -> well_formed (root t) = true.
Proof.
  induction 1 as [|p h t _ IH|p t _ IH|d t _ IH|t _ IH|t _ IH
                  |data t ok t' _ IH Hd].
  - reflexivity.
  - cbn [add_file root]. unfold get_or_create_node.
    apply update_at_well_formed.
    + intros [n x f ch] _ Hw. split; [reflexivity|exact Hw].
    + apply create_path_well_formed. exact IH.
  - cbn [remove_file root]. unfold remove_node.
    apply remove_at_well_formed. exact IH.
  - unfold compute_hash, find_node.
    destruct (find_at (split_path d) (root t)) as [node|] eqn:E; [|exact IH].
    destruct (compute_node_hash node) as [hh node'] eqn:Ec.
    cbn [snd root]. apply update_at_well_formed; [|exact IH].
    intros x Hx Hw. rewrite E in Hx. injection Hx as <-.
    replace node' with (snd (compute_node_hash node)) by (rewrite Ec; reflexivity).
    apply compute_node_hash_well_formed. exact Hw.
  - unfold root_hash. destruct (dirty t); [|exact IH].
    cbn [snd root]. apply compute_node_hash_well_formed. exact IH.
  - reflexivity.
  - unfold deserialize in Hd.
    destruct (length data <? 8)%nat; [injection Hd as _ <-; exact IH|].
    destruct (negb (read_le 4 data =? MAGIC));
      [injection Hd as _ <-; exact IH|].
    destruct (negb (read_le 4 (drop 4 data) =? VERSION));
      [injection Hd as _ <-; exact IH|].
    destruct (deserialize_node (S (length data)) (drop 8 data))
      as [[r rest]| |] eqn:E; try discriminate.
    + injection Hd as _ <-. cbn [root].
      eapply deserialize_node_well_formed. exact E.
    + injection Hd as _ <-. exact IH.
Qed.


(** *** The record format restores the tree itself *)

#[local] Abbreviation records cs :=
  (flat_map (fun kc : string * MerkleNode => serialize_node (snd kc)) cs).

#[local] Abbreviation restores node :=
  (forall fuel rest, Nat.le (length (serialize_node node)) fuel ->
     deserialize_node fuel (serialize_node node ++ rest) = Done (node, rest)).

Lemma children_loop_restores fuel child_count cs :
  Forall (fun kc => restores (snd kc)) cs ->
  Forall (fun kc => (length (serialize_node (snd kc)) <= fuel)%nat) cs ->
  Forall (fun kc : string * MerkleNode => fst kc = name (snd kc)) cs ->
  forall k i acc rest,
    (length cs <= k)%nat -> i + Z.of_nat (length cs) = child_count ->
    sorted_keys (acc ++ cs) = true ->
    children_loop (deserialize_node fuel) child_count k i
      (records cs ++ rest) acc = Done (acc ++ cs, rest).
Proof.
  induction cs as [|[key c] cs IH]; intros Hrb Hlen Hkey k i acc rest Hk Hi Hs.
  - simpl in Hi. rewrite app_nil_r.
    destruct k; cbn [children_loop];
      (destruct (Z.ltb_spec i child_count); [lia|]); reflexivity.
  - apply Forall_cons in Hrb as [Hc Hrb]. apply Forall_cons in Hlen as [Hlc Hlen].
    apply Forall_cons in Hkey as [Hkc Hkey]. cbn [fst snd] in Hc, Hlc, Hkc.
    destruct k as [|k]; [simpl in Hk; lia|].
    cbn [children_loop flat_map snd]. simpl length in Hi.
    destruct (Z.ltb_spec i child_count); [|lia].
    rewrite <- app_assoc. rewrite (Hc fuel (records cs ++ rest) Hlc).
    assert (Hins : OrdMap.insert (name c) c acc = acc ++ [(key, c)]).
    { rewrite <- Hkc. apply insert_last. apply (sorted_app_last acc key c).
      apply (sorted_app_l _ cs). rewrite <- app_assoc. exact Hs. }
    rewrite Hins.
    replace (acc ++ (key, c) :: cs) with ((acc ++ [(key, c)]) ++ cs)
      by (rewrite <- app_assoc; reflexivity).
    apply IH; [exact Hrb|exact Hlen|exact Hkey|simpl in Hk; lia|lia|].
    rewrite <- app_assoc. exact Hs.
Qed.

Lemma well_formed_restores node :
  encodable node = true -> well_formed node = true -> restores node.
Proof.
  induction node as [n h f ch IH] using MerkleNode_nested_ind.
  intros Henc Hw fuel rest Hfuel.
  pose proof (parse_header_serialize n h f ch rest Henc) as Hhdr.
  cbn [encodable] in Henc. rewrite !andb_true_iff in Henc.
  destruct Henc as [[[[_ _] _] Hc] Hch]. apply Z.ltb_lt in Hc.
  rewrite forallb_forall in Hch.
  apply well_formed_node in Hw as [Hs Hok].
  destruct fuel as [|fuel].
  { pose proof (serialize_node_length (Node n h f ch)). lia. }
  rewrite deserialize_node_unfold, Hhdr.
  destruct (flat_map_serialize_length ch) as [L1 L2].
  assert (Hbody : (length (records ch) + 17 <= S fuel)%nat).
  { cbn [serialize_node] in Hfuel.
    rewrite !length_app, !length_write_le in Hfuel. simpl in Hfuel. lia. }
  rewrite (children_loop_restores fuel (Z.of_nat (length ch)) ch)
    with (k := fuel) (i := 0) (acc := @nil (string * MerkleNode)) (rest := rest).
  - reflexivity.
  - pose proof Hok as Hok'. rewrite Forall_forall in IH, Hok' |- *.
    intros kc Hin. apply IH; [exact Hin| |apply (Hok' kc Hin)].
    apply Hch, list_elem_of_In. exact Hin.
  - eapply Forall_impl; [exact L2|]. simpl. intros; lia.
  - eapply Forall_impl; [exact Hok|]. intros kc [Hk _]. exact Hk.
  - lia.
  - lia.
  - exact Hs.
Qed.

Lemma deserialize_serialize t t0 :
  reachable t -> encodable (root t) = true ->
  deserialize (serialize t) t0 =
  Done (true, {| root := root t; dirty := false |}).
Proof.
  intros Hr Henc. unfold deserialize, serialize.
  rewrite !length_app, !length_write_le.
  change (4 + (4 + _) <? 8)%nat with false. cbv iota.
  assert (Hd8 : drop 8 (write_le 4 MAGIC ++ write_le 4 VERSION ++
                          serialize_node (root t)) = serialize_node (root t))
    by (rewrite app_assoc; apply drop_app_length'; reflexivity).
  rewrite Hd8, read_write_le, drop_write_le, read_write_le.
  change (negb (MAGIC mod 256 ^ Z.of_nat 4 =? MAGIC)) with false.
  change (negb (VERSION mod 256 ^ Z.of_nat 4 =? VERSION)) with false.
  cbv iota.
  pose proof (well_formed_restores (root t) Henc (reachable_well_formed t Hr)
                (S (4 + (4 + length (serialize_node (root t))))) []
                ltac:(lia)) as H.
  rewrite app_nil_r in H. rewrite H. reflexivity.
Qed.

(** X7. [deserialize] of [serialize] gives back the tree node for node: names,
    stored hashes, file flags and children, with the dirty flag cleared;
    for every tree a client can hold whose fields fit the format. *)
Theorem serialize_deserialize_restores_tree (t t0 : MerkleTree) :
  reachable t -> encodable (root t) = true ->
  deserialize (serialize t) t0 =
  Done (true, {| root := root t; dirty := false |}).
Proof. apply deserialize_serialize. Qed.

Lemma serialize_deserialize_restores_tree_witness :
  deserialize
    (serialize (remove_file "src/b.c"
                  (add_file "src/b.c" 2
                     (add_file "src/a.c" 1
                        (add_file "README" 9 empty_tree)))))
    empty_tree =
  Done (true,
        {| root := root (remove_file "src/b.c"
                           (add_file "src/b.c" 2
                              (add_file "src/a.c" 1
                                 (add_file "README" 9 empty_tree))));
           dirty := false |}).
Proof.
  apply serialize_deserialize_restores_tree.
  - repeat constructor.
  - vm_compute. reflexivity.
Defined.

End WellFormed.

(** ** Adding and removing files *)

Section AddRemoveFacts.
Import Merkle.

(** The tree after [add_file], one path component at a time. *)
#[local] Abbreviation add_at cs hv nd :=
  (update_at cs (set_leaf hv) (create_path cs true nd)).

#[local] Abbreviation child_or_new cn cs chn :=
  (match OrdMap.find cn chn with
   | Some child => child
   | None => Node cn 0 (match cs with [] => true | _ :: _ => false end && true) []
   end).

Lemma add_at_cons c rest h n x f ch :
  add_at (c :: rest) h (Node n x f ch) =
  Node n x f (OrdMap.insert c (add_at rest h (child_or_new c rest ch)) ch).
Proof.
  cbn [create_path].
  destruct (OrdMap.find c ch) as [child|] eqn:E.
  - rewrite E. cbn [update_at]. rewrite find_insert, insert_insert.
    reflexivity.
  - rewrite find_insert. cbn [update_at].
    rewrite find_insert, !insert_insert. reflexivity.
Qed.

Lemma add_at_find comps h node :
  exists x, find_at comps (add_at comps h node) = Some x /\
            hash x = h /\ is_file x = true.
Proof.
  revert node. induction comps as [|c rest IH]; intros node.
  - destruct node as [n x f ch]. eexists. split; [reflexivity|].
    split; reflexivity.
  - destruct node as [n x f ch]. rewrite add_at_cons.
    cbn [find_at children]. rewrite find_insert. apply IH.
Qed.


Lemma add_at_frame p q h node :
  ~ q `prefix_of` p -> find_at q (add_at p h node) = find_at q node.
Proof.
  revert q node. induction p as [|c rest IH]; intros q node Hq.
  - destruct q as [|d q']; [exfalso; apply Hq; apply prefix_nil|].
    destruct node as [n x f ch]. reflexivity.
  - destruct q as [|d q']; [exfalso; apply Hq; apply prefix_nil|].
    destruct node as [n x f ch]. rewrite add_at_cons.
    cbn [find_at children].
    destruct (String.eqb_spec c d) as [<-|Hne].
    + rewrite find_insert.
      assert (Hq' : ~ q' `prefix_of` rest)
        by (intros Hp; apply Hq; apply prefix_cons; exact Hp).
      rewrite IH by exact Hq'.
      destruct (OrdMap.find c ch) as [child|]; [reflexivity|].
      destruct q' as [|e q'']; [exfalso; apply Hq'; apply prefix_nil|].
      reflexivity.
    + rewrite find_insert_ne by exact Hne. reflexivity.
Qed.

(** X8. [add_file] then [find_node]: the path leads to a file node with the
    given hash, and the node found at any path that is not an ancestor of
    the added one is the same as before. *)
Theorem add_file_find_node (p : string) (h : Z) (t : MerkleTree) :
  (exists x, find_node p (root (add_file p h t)) = Some x /\
             hash x = h /\ is_file x = true) /\
  (forall q, ~ split_path q `prefix_of` split_path p ->
             find_node q (root (add_file p h t)) = find_node q (root t)).
Proof.
  unfold find_node, add_file, get_or_create_node. cbn [root]. split.
  - apply add_at_find.
  - intros q Hq. apply add_at_frame. exact Hq.
Qed.

Lemma remove_at_find p node :
  p <> [] -> well_formed node = true ->
  find_at p (snd (remove_at p node)) = None.
Proof.
  revert node. induction p as [|c rest IH]; intros node Hne Hw; [congruence|].
  destruct node as [n x f ch]. apply well_formed_node in Hw as [Hs Hc].
  destruct rest as [|c2 rest].
  - cbn [remove_at snd find_at children]. rewrite find_erase by exact Hs.
    reflexivity.
  - rewrite remove_at_cons by discriminate.
    destruct (OrdMap.find c ch) as [child|] eqn:E.
    + destruct (Forall_ord_find _ _ _ _ Hc E) as [_ Hwc]. cbn [snd] in Hwc.
      specialize (IH child ltac:(discriminate) Hwc).
      destruct (remove_at (c2 :: rest) child) as [erased child'].
      cbn [snd] in *. cbn [find_at children]. rewrite find_insert.
      exact IH.
    + cbn [snd find_at children]. rewrite E. reflexivity.
Qed.

Lemma remove_at_frame p q node :
  well_formed node = true ->
  ~ q `prefix_of` p -> ~ p `prefix_of` q ->
  find_at q (snd (remove_at p node)) = find_at q node.
Proof.
  revert q node. induction p as [|c rest IH]; intros q node Hw Hq Hp;
    [reflexivity|].
  destruct q as [|d q']; [exfalso; apply Hq; apply prefix_nil|].
  destruct node as [n x f ch]. pose proof Hw as Hw0.
  apply well_formed_node in Hw as [Hs Hc].
  destruct rest as [|c2 rest].
  - cbn [remove_at snd find_at children].
    destruct (String.eqb_spec c d) as [<-|Hne].
    + exfalso. apply Hp. apply prefix_cons, prefix_nil.
    + rewrite find_erase_ne by assumption. reflexivity.
  - rewrite remove_at_cons by discriminate.
    destruct (OrdMap.find c ch) as [child|] eqn:E; [|reflexivity].
    destruct (Forall_ord_find _ _ _ _ Hc E) as [_ Hwc]. cbn [snd] in Hwc.
    specialize (IH q' child Hwc).
    destruct (remove_at (c2 :: rest) child) as [erased child'].
    cbn [snd] in *. cbn [find_at children].
    destruct (String.eqb_spec c d) as [<-|Hne].
    + rewrite find_insert, E. apply IH.
      * intros H. apply Hq. apply prefix_cons. exact H.
      * intros H. apply Hp. apply prefix_cons. exact H.
    + rewrite find_insert_ne by exact Hne. reflexivity.
Qed.

Lemma remove_at_absent p node :
  find_at p node = None -> snd (remove_at p node) = node.
Proof.
  revert node. induction p as [|c rest IH]; intros node Hf; [reflexivity|].
  destruct node as [n x f ch]. cbn [find_at children] in Hf.
  destruct rest as [|c2 rest].
  - cbn [remove_at snd].
    destruct (OrdMap.find c ch) eqn:E; [discriminate|].
    rewrite erase_absent by exact E. reflexivity.
  - rewrite remove_at_cons by discriminate.
    destruct (OrdMap.find c ch) as [child|] eqn:E; [|reflexivity].
    specialize (IH child Hf).
    destruct (remove_at (c2 :: rest) child) as [erased child'].
    cbn [snd] in *. subst child'. rewrite insert_find by exact E. reflexivity.
Qed.

(** X9. [remove_file] then [find_node]: a path with at least one component
    leads nowhere afterwards (a path without components names the root,
    which stays); removing a path that is absent leaves every node as it
    was; and the node found at any path that is neither above nor below
    the removed one is the same as before. *)
Theorem remove_file_find_node (p : string) (t : MerkleTree) :
  reachable t ->
  find_node p (root (remove_file p t)) =
    (if split_path p is [] then Some (root t) else None) /\
  (find_node p (root t) = None -> root (remove_file p t) = root t) /\
  (forall q, ~ split_path q `prefix_of` split_path p ->
             ~ split_path p `prefix_of` split_path q ->
             find_node q (root (remove_file p t)) = find_node q (root t)).
Proof.
  intros Hr. pose proof (reachable_well_formed t Hr) as Hw.
  unfold find_node, remove_file, remove_node. cbn [root].
  split; [|split].
  - destruct (split_path p) as [|c rest] eqn:E; [reflexivity|].
    apply remove_at_find; [discriminate|exact Hw].
  - apply remove_at_absent.
  - intros q Hq Hp. apply remove_at_frame; assumption.
Qed.

Lemma remove_file_find_node_witness :
  find_node "src/a.c"
    (root (remove_file "src/a.c" (add_file "src/a.c" 1 empty_tree))) =
    (if split_path "src/a.c" is []
     then Some (root (add_file "src/a.c" 1 empty_tree)) else None) /\
  (find_node "src/a.c" (root (add_file "src/a.c" 1 empty_tree)) = None ->
   root (remove_file "src/a.c" (add_file "src/a.c" 1 empty_tree)) =
   root (add_file "src/a.c" 1 empty_tree)) /\
  (forall q, ~ split_path q `prefix_of` split_path "src/a.c" ->
             ~ split_path "src/a.c" `prefix_of` split_path q ->
             find_node q
               (root (remove_file "src/a.c" (add_file "src/a.c" 1 empty_tree))) =
             find_node q (root (add_file "src/a.c" 1 empty_tree))).
Proof.
  apply (remove_file_find_node "src/a.c" (add_file "src/a.c" 1 empty_tree)).
  repeat constructor.
Defined.


(** *** The order of additions *)

Lemma insert_comm {V} k1 k2 (v1 v2 : V) m :
  k1 <> k2 -> sorted_keys m = true ->
  OrdMap.insert k1 v1 (OrdMap.insert k2 v2 m) =
  OrdMap.insert k2 v2 (OrdMap.insert k1 v1 m).
Proof.
  intros Hne.
  assert (H12 : String.compare k1 k2 = Lt /\ String.compare k2 k1 = Gt \/
                String.compare k1 k2 = Gt /\ String.compare k2 k1 = Lt).
  { destruct (String.compare k1 k2) eqn:E.
    - apply String.compare_eq_iff in E. congruence.
    - left. split; [reflexivity|]. apply compare_gt_lt. exact E.
    - right. split; [reflexivity|]. apply compare_gt_lt. exact E. }
  induction m as [|[k v] m IH]; intros Hs.
  - cbn [OrdMap.insert]. destruct H12 as [[-> ->]|[-> ->]]; reflexivity.
  - apply sorted_cons in Hs as [Ha Hs]. specialize (IH Hs).
    cbn [OrdMap.insert].
    destruct (String.compare k2 k) eqn:E2; destruct (String.compare k1 k) eqn:E1.
    all: try (apply String.compare_eq_iff in E1; subst k).
    all: try (apply String.compare_eq_iff in E2; subst).
    all: try congruence.
    all: cbn [OrdMap.insert]; rewrite ?E1, ?E2, ?compare_refl.
    all: try reflexivity.
    all: destruct H12 as [[Ha12 Hb12]|[Ha12 Hb12]];
      rewrite ?Ha12, ?Hb12 in *; try discriminate; try reflexivity.
    all: try (rewrite IH; reflexivity).
    + pose proof (compare_lt_trans _ _ _ Ha12 E2). congruence.
    + pose proof (compare_lt_trans _ _ _ Hb12 E1). congruence.
Qed.


Lemma set_leaf_add_at c rest h1 h2 node :
  set_leaf h1 (add_at (c :: rest) h2 node) =
  add_at (c :: rest) h2 (set_leaf h1 node).
Proof.
  destruct node as [n x f ch]. cbn [set_leaf]. rewrite !add_at_cons.
  reflexivity.
Qed.

Lemma add_at_comm p1 p2 h1 h2 node :
  p1 <> p2 -> well_formed node = true ->
  add_at p1 h1 (add_at p2 h2 node) = add_at p2 h2 (add_at p1 h1 node).
Proof.
  revert p2 node. induction p1 as [|c1 r1 IH]; intros p2 node Hne Hw.
  - destruct p2 as [|c2 r2]; [congruence|].
    cbn [create_path update_at]. apply set_leaf_add_at.
  - destruct p2 as [|c2 r2].
    + cbn [create_path update_at]. symmetry. apply set_leaf_add_at.
    + destruct node as [n x f ch]. apply well_formed_node in Hw as [Hs Hc].
      rewrite !add_at_cons.
      destruct (String.eqb_spec c1 c2) as [<-|Hc12].
      * rewrite !find_insert, !insert_insert. do 2 f_equal.
        assert (Hr : r1 <> r2) by congruence.
        destruct (OrdMap.find c1 ch) as [child|] eqn:E.
        -- apply IH; [exact Hr|].
           destruct (Forall_ord_find _ _ _ _ Hc E) as [_ Hwc]. exact Hwc.
        -- destruct r1 as [|d1 r1]; destruct r2 as [|d2 r2]; [congruence| | |].
           ++ change (set_leaf h1 (add_at (d2 :: r2) h2 (Node c1 0 false [])) =
                      add_at (d2 :: r2) h2 (set_leaf h1 (Node c1 0 true []))).
              rewrite set_leaf_add_at. reflexivity.
           ++ change (add_at (d1 :: r1) h1 (set_leaf h2 (Node c1 0 true [])) =
                      set_leaf h2 (add_at (d1 :: r1) h1 (Node c1 0 false []))).
              rewrite set_leaf_add_at. reflexivity.
           ++ apply IH; [exact Hr|reflexivity].
      * rewrite !find_insert_ne by congruence.
        f_equal. apply insert_comm; [exact Hc12|exact Hs].
Qed.

Lemma add_files_reachable files t : reachable t -> reachable (add_files files t).
Proof.
  revert t. induction files as [|[p h] files IH]; intros t Hr; [exact Hr|].
  apply IH. constructor. exact Hr.
Qed.

(** X10. The tree after adding a list of files does not depend on the order
    of the list, when no two of its paths have the same components: the
    nodes are the same, and so is the root hash. *)
Theorem add_files_order (files files' : list (string * Z)) (t : MerkleTree) :
  reachable t ->
  NoDup (map (fun f => split_path (fst f)) files) ->
  files ≡ₚ files' ->
  add_files files t = add_files files' t /\
  fst (root_hash (add_files files t)) = fst (root_hash (add_files files' t)).
Proof.
  intros Hr Hnd Hp.
  assert (E : add_files files t = add_files files' t);
    [|split; [exact E|rewrite E; reflexivity]].
  revert t Hr Hnd.
  induction Hp as [|[p h] l l' Hp IH|[p1 h1] [p2 h2] l|l l' l'' Hp1 IH1 Hp2 IH2];
    intros t Hr Hnd.
  - reflexivity.
  - cbn [add_files fold_left fst snd]. cbn [map] in Hnd.
    apply NoDup_cons in Hnd as [_ Hnd].
    apply IH; [constructor; exact Hr|exact Hnd].
  - cbn [add_files fold_left fst snd]. f_equal.
    cbn [map fst] in Hnd. apply NoDup_cons in Hnd as [Hnot _].
    assert (Hne : split_path p2 <> split_path p1).
    { intros E. apply Hnot. rewrite E. apply list_elem_of_here. }
    unfold add_file, get_or_create_node. cbn [root]. f_equal.
    apply add_at_comm; [congruence|apply reachable_well_formed; exact Hr].
  - rewrite IH1 by assumption. apply IH2; [exact Hr|].
    eapply NoDup_Permutation_proper; [|exact Hnd].
    symmetry. apply Permutation_map. exact Hp1.
Qed.

Lemma add_files_order_witness :
  add_files [("src/a.c", 1); ("README", 9); ("src/b.c", 2)]%string empty_tree =
  add_files [("src/b.c", 2); ("src/a.c", 1); ("README", 9)]%string empty_tree /\
  fst (root_hash (add_files [("src/a.c", 1); ("README", 9); ("src/b.c", 2)]%string
                    empty_tree)) =
  fst (root_hash (add_files [("src/b.c", 2); ("src/a.c", 1); ("README", 9)]%string
                    empty_tree)).
Proof.
  apply add_files_order.
  - constructor.
  - apply (bool_decide_unpack _). vm_compute. reflexivity.
  - symmetry. apply (Permutation_cons_append [(_, _); (_, _)] (_, _)).
Defined.

End AddRemoveFacts.

(** ** Saving and loading the file index *)

Section IndexFileFacts.
Import FileIndex.

#[local] Abbreviation at_start bytes := {| unread := bytes; good := true |}.

Lemma read_scalar_written n old x rest :
  read_scalar n old (at_start (write_le n x ++ rest)) =
  (x mod 256 ^ Z.of_nat n, at_start rest).
Proof.
  rewrite read_scalar_full by (rewrite length_app, length_write_le; lia).
  rewrite read_write_le, drop_write_le. reflexivity.
Qed.

Lemma read_buffer_written bs rest :
  read_buffer (length bs) (at_start (bs ++ rest)) = (bs, at_start rest).
Proof.
  unfold read_buffer, stream_read. cbn [good unread].
  rewrite length_app.
  destruct (Nat.leb_spec (length bs) (length bs + length rest)); [|lia].
  rewrite take_app_length, drop_app_length, Nat.sub_diag. cbn [replicate].
  rewrite app_nil_r. reflexivity.
Qed.

Lemma string_of_list_ascii_of_string_id s :
  string_of_list_ascii (list_ascii_of_string s) = s.
Proof. apply string_of_list_ascii_of_string. Qed.

Lemma load_entry_saved uninit k e rest count i es :
  storable e ->
  load_entries (S count) i uninit (at_start (save_entry (k, e) ++ rest)) es =
  load_entries count (S i) uninit (at_start rest) (<[path e := e]> es).
Proof.
  intros (Hp & Hh & Hs & Hm & Hl).
  unfold save_entry. cbn [snd load_entries].
  rewrite <- !app_assoc.
  rewrite read_scalar_written.
  rewrite (u32_small (Z.of_nat (String.length (path e)))) by lia.
  rewrite (Z.mod_small (Z.of_nat (String.length (path e)))) by (cbn; lia).
  rewrite Nat2Z.id.
  rewrite take_ge by (rewrite length_list_ascii_of_string; lia).
  rewrite <- (length_list_ascii_of_string (path e)).
  rewrite read_buffer_written.
  rewrite !read_scalar_written.
  rewrite string_of_list_ascii_of_string_id.
  rewrite !Z.mod_small by (cbn; try lia; destruct (is_indexed e); lia).
  replace (negb ((if is_indexed e then 1 else 0) =? 0)) with (is_indexed e)
    by (destruct (is_indexed e); reflexivity).
  destruct e; reflexivity.
Qed.

Lemma load_entries_saved uninit kvs rest i es :
  Forall (fun kv => storable (snd kv)) kvs ->
  load_entries (length kvs) i uninit
    (at_start (flat_map save_entry kvs ++ rest)) es =
  (fold_left (fun es kv => <[path (snd kv) := snd kv]> es) kvs es, at_start rest).
Proof.
  revert i es. induction kvs as [|[k e] kvs IH]; intros i es Hok;
    [reflexivity|].
  apply Forall_cons in Hok as [He Hok]. cbn [length flat_map fold_left snd].
  rewrite <- app_assoc, load_entry_saved by exact He. apply IH. exact Hok.
Qed.


Lemma fold_insert_list_to_map (kvs : list (string * FileEntry))
    (acc : gmap string FileEntry) :
  NoDup kvs.*1 ->
  fold_left (fun es kv => <[fst kv := snd kv]> es) kvs acc =
  list_to_map kvs ∪ acc.
Proof.
  revert acc. induction kvs as [|[k e] kvs IH]; intros acc Hnd.
  - cbn. rewrite (left_id_L ∅ (∪)). reflexivity.
  - cbn [fmap list_fmap fst] in Hnd. apply NoDup_cons in Hnd as [Hk Hnd].
    cbn [fold_left fst snd list_to_map foldr]. rewrite IH by exact Hnd.
    rewrite <- insert_union_l. symmetry.
    apply insert_union_r.
    apply not_elem_of_list_to_map_1. exact Hk.
Qed.

Lemma fold_insert_paths (kvs : list (string * FileEntry))
    (acc : gmap string FileEntry) :
  Forall (fun kv => path (snd kv) = fst kv) kvs ->
  fold_left (fun es kv => <[path (snd kv) := snd kv]> es) kvs acc =
  fold_left (fun es kv => <[fst kv := snd kv]> es) kvs acc.
Proof.
  revert acc. induction kvs as [|kv kvs IH]; intros acc Hk; [reflexivity|].
  apply Forall_cons in Hk as [H1 Hk]. cbn [fold_left]. rewrite H1.
  apply IH. exact Hk.
Qed.

(** Every index a client can hold files each entry under the entry's own
    path and holds a tree a client can hold. *)
Lemma reachable_keys idx :
  reachable idx ->
  map_Forall (fun k e => path e = k) (entries idx) /\
  Merkle.reachable (merkle idx).
Proof.
  induction 1 as [|e idx _ [IHk IHm]|p idx _ [IHk IHm]|idx _ [IHk IHm]
                  |idx _ [IHk IHm]|uninit file idx ok idx' _ [IHk IHm] Hl].
  - split; [apply map_Forall_empty|constructor].
  - split; [|constructor; exact IHm].
    apply map_Forall_insert_2; [reflexivity|exact IHk].
  - split; [|constructor; exact IHm].
    apply map_Forall_delete. exact IHk.
  - split; [apply map_Forall_empty|constructor; exact IHm].
  - unfold merkle_hash.
    destruct (Merkle.root_hash (merkle idx)) as [h m] eqn:E.
    cbn [snd entries merkle]. split; [exact IHk|].
    replace m with (snd (Merkle.root_hash (merkle idx))) by (rewrite E; reflexivity).
    constructor. exact IHm.
  - unfold load in Hl. destruct file as [bytes|]; [|injection Hl as _ <-; split; assumption].
    destruct (read_scalar 4 (uninit magic_local) (at_start bytes))
      as [magic f1].
    destruct (read_scalar 4 (uninit version_local) f1) as [version f2].
    destruct (negb (magic =? MAGIC) || negb (version =? VERSION));
      [injection Hl as _ <-; split; assumption|].
    destruct (read_scalar 4 (uninit count_local) f2) as [count f3].
    destruct (load_entries (Z.to_nat count) 0 uninit f3 ∅) as [es f4] eqn:Ees.
    destruct (read_scalar 4 (uninit merkle_size_local) f4)
      as [merkle_size f5].
    destruct (read_buffer (Z.to_nat merkle_size) f5) as [merkle_data f6].
    destruct (Merkle.deserialize merkle_data (merkle idx)) as [[b m]| |] eqn:Ed;
      try discriminate.
    injection Hl as _ <-. cbn [entries merkle]. split.
    + clear -Ees.
      assert (Hgen : forall n i f acc es' f',
                map_Forall (fun k e => path e = k) acc ->
                load_entries n i uninit f acc = (es', f') ->
                map_Forall (fun k e => path e = k) es').
      { induction n as [|n IHn]; intros i f acc es' f' Hacc Hle.
        - injection Hle as <- _. exact Hacc.
        - cbn [load_entries] in Hle.
          destruct (read_scalar 4 (uninit (path_len_local i)) f) as [a1 g1].
          destruct (read_buffer (Z.to_nat a1) g1) as [a2 g2].
          destruct (read_scalar 8 (uninit (content_hash_local i)) g2)
            as [a3 g3].
          destruct (read_scalar 8 (uninit (size_local i)) g3) as [a4 g4].
          destruct (read_scalar 8 (uninit (mtime_local i)) g4) as [a5 g5].
          destruct (read_scalar 1 (uninit (lang_local i)) g5) as [a6 g6].
          destruct (read_scalar 1 (uninit (indexed_local i)) g6) as [a7 g7].
          eapply IHn; [|exact Hle].
          apply map_Forall_insert_2; [reflexivity|exact Hacc]. }
      eapply Hgen; [apply map_Forall_empty|exact Ees].
    + eapply Merkle.reach_deserialize; [exact IHm|exact Ed].
Qed.


Section SaveLoad.
Variable order : iteration_order string FileEntry.
Hypothesis order_perm : forall l, order l ≡ₚ l.

Lemma load_save uninit idx idx0 :
  reachable idx -> saveable idx ->
  load uninit (Some (save order idx)) idx0 =
  Done (true,
        {| entries := entries idx;
           merkle := {| Merkle.root := Merkle.root (merkle idx);
                        Merkle.dirty := false |} |}).
Proof.
  intros Hr (Hst & Hcount & Henc & Hsize).
  destruct (reachable_keys idx Hr) as [Hkeys Hm].
  set (kvs := order (map_to_list (entries idx))).
  assert (Hperm : kvs ≡ₚ map_to_list (entries idx)) by apply order_perm.
  assert (Hlen : length kvs = base.size (entries idx)).
  { rewrite Hperm. apply length_map_to_list. }
  assert (Hin : forall kv, kv ∈ kvs -> entries idx !! fst kv = Some (snd kv)).
  { intros [k e] Hkv. rewrite Hperm in Hkv.
    apply elem_of_map_to_list in Hkv. exact Hkv. }
  assert (Hnd : NoDup kvs.*1).
  { rewrite Hperm. apply NoDup_fst_map_to_list. }
  unfold load, save. fold kvs.
  rewrite read_scalar_written, read_scalar_written.
  change (negb (MAGIC mod 256 ^ Z.of_nat 4 =? MAGIC)
          || negb (VERSION mod 256 ^ Z.of_nat 4 =? VERSION)) with false.
  cbv iota.
  rewrite read_scalar_written.
  rewrite (u32_small (Z.of_nat (base.size (entries idx)))) by lia.
  rewrite (Z.mod_small (Z.of_nat (base.size (entries idx)))) by (cbn; lia).
  rewrite Nat2Z.id, <- Hlen.
  rewrite load_entries_saved.
  2:{ rewrite Forall_forall. intros kv Hkv.
      apply (Hst (fst kv) (snd kv)). apply Hin. exact Hkv. }
  rewrite fold_insert_paths.
  2:{ rewrite Forall_forall. intros kv Hkv.
      apply (Hkeys (fst kv) (snd kv)). apply Hin. exact Hkv. }
  rewrite fold_insert_list_to_map by exact Hnd.
  rewrite (right_id_L ∅ (∪)).
  rewrite (list_to_map_proper kvs (map_to_list (entries idx)) Hnd Hperm).
  rewrite list_to_map_to_list.
  rewrite read_scalar_written.
  rewrite (u32_small (Z.of_nat (length (Merkle.serialize (merkle idx))))) by lia.
  rewrite (Z.mod_small (Z.of_nat (length (Merkle.serialize (merkle idx)))))
    by (change (256 ^ Z.of_nat 4) with (2 ^ 32); lia).
  rewrite Nat2Z.id, take_ge by lia.
  rewrite <- (app_nil_r (Merkle.serialize (merkle idx))) at 2.
  rewrite read_buffer_written.
  rewrite deserialize_serialize by assumption. reflexivity.
Qed.

(** X11. [load] of the file [save] wrote gives back the index: the same entries
    under the same paths and the same tree nodes, with the tree marked
    clean; for every index a client can hold whose fields fit the format,
    and whatever order the entries were written in. *)
Theorem save_load_restores_index
    (uninit : load_local -> Z) (idx idx0 : FileIndex) :
  reachable idx -> saveable idx ->
  load uninit (Some (save order idx)) idx0 =
  Done (true,
        {| entries := entries idx;
           merkle := {| Merkle.root := Merkle.root (merkle idx);
                        Merkle.dirty := false |} |}).
Proof. apply load_save. Qed.

End SaveLoad.

Lemma save_load_restores_index_witness :
  load (fun _ => 0)
    (Some (save id (add (scanned "src/a.c" 1)
                      (add (scanned "README" 9) empty_index))))
    empty_index =
  Done (true,
        {| entries := entries (add (scanned "src/a.c" 1)
                                 (add (scanned "README" 9) empty_index));
           merkle :=
             {| Merkle.root :=
                  Merkle.root (merkle (add (scanned "src/a.c" 1)
                                         (add (scanned "README" 9)
                                            empty_index)));
                Merkle.dirty := false |} |}).
Proof.
  apply (save_load_restores_index id (fun l => Permutation_refl l)).
  - repeat constructor.
  - split; [|split; [|split]].
    + intros k e. unfold add, scanned. cbn [entries path content_hash].
      rewrite !lookup_insert. repeat case_decide; intros [= <-];
        unfold storable; cbn; lia.
    + vm_compute. reflexivity.
    + vm_compute. reflexivity.
    + vm_compute. reflexivity.
Defined.

End IndexFileFacts.

(** ** The records and the counters of a diff *)

Section DiffRecords.
Import FileIndex Indexer.

Lemma visit_new_changes om rn r kv :
  changes (visit_new om rn r kv) =
  changes r ++ changes (visit_new om rn no_changes kv).
Proof.
  destruct kv as [p e]. unfold visit_new.
  destruct (bool_decide (p ∈ rn)); [cbn; rewrite app_nil_r; reflexivity|].
  destruct (om !! p) as [o|]; [|reflexivity].
  destruct (negb (content_hash o =? content_hash e));
    [reflexivity|cbn; rewrite app_nil_r; reflexivity].
Qed.

Lemma visit_old_changes nm ro r kv :
  changes (visit_old nm ro r kv) =
  changes r ++ changes (visit_old nm ro no_changes kv).
Proof.
  destruct kv as [p e]. unfold visit_old.
  destruct (bool_decide (p ∈ ro)); [cbn; rewrite app_nil_r; reflexivity|].
  destruct (nm !! p); [cbn; rewrite app_nil_r; reflexivity|reflexivity].
Qed.

Lemma fold_visit_new_changes om rn l r :
  changes (fold_left (visit_new om rn) l r) =
  changes r ++ flat_map (fun kv => changes (visit_new om rn no_changes kv)) l.
Proof.
  revert r. induction l as [|kv l IH]; intros r.
  - cbn. rewrite app_nil_r. reflexivity.
  - cbn [fold_left flat_map]. rewrite IH, visit_new_changes, <- app_assoc.
    reflexivity.
Qed.

Lemma fold_visit_old_changes nm ro l r :
  changes (fold_left (visit_old nm ro) l r) =
  changes r ++ flat_map (fun kv => changes (visit_old nm ro no_changes kv)) l.
Proof.
  revert r. induction l as [|kv l IH]; intros r.
  - cbn. rewrite app_nil_r. reflexivity.
  - cbn [fold_left flat_map]. rewrite IH, visit_old_changes, <- app_assoc.
    reflexivity.
Qed.

(** Records made from the pairs of a map, each about its own key: the
    records about [p] are those made from the pair of [p]. *)
Lemma filter_records_by_key (g : string * FileEntry -> list FileChange)
    (l : list (string * FileEntry)) (p : string) :
  (forall kv c, c ∈ g kv -> change_path c = fst kv) ->
  NoDup l.*1 ->
  List.filter (fun c => String.eqb (change_path c) p) (flat_map g l) =
  match List.find (fun kv => String.eqb (fst kv) p) l with
  | Some kv => g kv
  | None => []
  end.
Proof.
  intros Hg. induction l as [|kv l IH]; intros Hnd; [reflexivity|].
  cbn [fmap list_fmap] in Hnd. apply NoDup_cons in Hnd as [Hk Hnd].
  cbn [flat_map List.find]. rewrite List.filter_app, IH by exact Hnd.
  destruct (String.eqb_spec (fst kv) p) as [E|E].
  - rewrite filter_all.
    2:{ intros c Hc. rewrite (Hg kv c Hc), E. apply String.eqb_refl. }
    destruct (List.find (fun kv0 => String.eqb (fst kv0) p) l) as [kv'|] eqn:F;
      [|apply app_nil_r].
    exfalso. apply List.find_some in F as [Hin Heq].
    apply String.eqb_eq in Heq. apply Hk. rewrite E, <- Heq.
    apply list_elem_of_fmap. exists kv'. split; [reflexivity|].
    apply list_elem_of_In. exact Hin.
  - rewrite filter_none; [reflexivity|].
    intros c Hc. rewrite (Hg kv c Hc). apply String.eqb_neq. exact E.
Qed.

Lemma find_by_key (l : list (string * FileEntry)) (m : gmap string FileEntry) p :
  NoDup l.*1 -> (forall k e, (k, e) ∈ l <-> m !! k = Some e) ->
  List.find (fun kv => String.eqb (fst kv) p) l =
  match m !! p with Some e => Some (p, e) | None => None end.
Proof.
  intros Hnd Hl.
  destruct (List.find (fun kv => String.eqb (fst kv) p) l) as [[k e]|] eqn:F.
  - apply List.find_some in F as [Hin Heq]. cbn [fst] in Heq.
    apply String.eqb_eq in Heq. subst k.
    apply list_elem_of_In, Hl in Hin. rewrite Hin. reflexivity.
  - destruct (m !! p) as [e|] eqn:E; [|reflexivity].
    apply Hl, list_elem_of_In in E.
    pose proof (List.find_none _ _ F _ E) as Hno. cbn [fst] in Hno.
    rewrite String.eqb_refl in Hno. discriminate.
Qed.


Section Orders.
Variable bucket_order : iteration_order Z (list string).
Variable entry_order : iteration_order string FileEntry.
Hypothesis entry_order_perm : forall l, entry_order l ≡ₚ l.

Lemma entry_order_NoDup (m : gmap string FileEntry) :
  NoDup (entry_order (map_to_list m)).*1.
Proof. rewrite entry_order_perm. apply NoDup_fst_map_to_list. Qed.

Lemma entry_order_lookup (m : gmap string FileEntry) k e :
  (k, e) ∈ entry_order (map_to_list m) <-> m !! k = Some e.
Proof. rewrite entry_order_perm. apply elem_of_map_to_list. Qed.

(** X12. Without rename detection, the records of [diff] about a path are
    decided by the entries the two scans hold for it (the last one listed,
    when a scan lists a path twice): one Added record for a path only in
    the new scan, one Deleted record for a path only in the old scan, one
    Modified record for a path in both with different content hashes, and
    no record otherwise. *)
Theorem diff_without_rename_detection
    (old_scan new_scan : list FileEntry) (p : string) :
  records_about p (diff bucket_order entry_order false old_scan new_scan) =
  match path_map old_scan !! p, path_map new_scan !! p with
  | None, Some n =>
      [{| type := ADDED; change_path := p; old_path := EmptyString;
          old_hash := 0; new_hash := content_hash n |}]
  | Some o, Some n =>
      if content_hash o =? content_hash n then []
      else [{| type := MODIFIED; change_path := p; old_path := EmptyString;
               old_hash := content_hash o; new_hash := content_hash n |}]
  | Some o, None =>
      [{| type := DELETED; change_path := p; old_path := EmptyString;
          old_hash := content_hash o; new_hash := 0 |}]
  | None, None => []
  end.
Proof.
  unfold records_about, diff.
  rewrite fold_visit_old_changes, fold_visit_new_changes. cbn [changes no_changes app].
  rewrite List.filter_app.
  rewrite !filter_records_by_key; try apply entry_order_NoDup.
  - rewrite !(find_by_key _ _ p (entry_order_NoDup _) (entry_order_lookup _)).
    destruct (path_map old_scan !! p) as [o|] eqn:Eo;
      destruct (path_map new_scan !! p) as [n|] eqn:En;
      unfold visit_new, visit_old;
      rewrite ?bool_decide_eq_false_2 by set_solver;
      rewrite ?Eo, ?En; try reflexivity.
    destruct (content_hash o =? content_hash n); reflexivity.
  - intros [k e] c. unfold visit_old.
    destruct (bool_decide (k ∈ ∅)); [intros H; inversion H|].
    destruct (path_map new_scan !! k); [intros H; inversion H|].
    cbn. intros H. apply list_elem_of_singleton in H. subst c. reflexivity.
  - intros [k e] c. unfold visit_new.
    destruct (bool_decide (k ∈ ∅)); [intros H; inversion H|].
    destruct (path_map old_scan !! k) as [o|].
    + destruct (negb (content_hash o =? content_hash e));
        [|intros H; inversion H].
      cbn. intros H. apply list_elem_of_singleton in H. subst c. reflexivity.
    + cbn. intros H. apply list_elem_of_singleton in H. subst c. reflexivity.
Qed.

End Orders.

Lemma diff_without_rename_detection_witness :
  records_about "b"
    (diff id id false [scanned "a" 1; scanned "b" 2]
                      [scanned "b" 3; scanned "c" 4]) =
  match path_map [scanned "a" 1; scanned "b" 2] !! "b"%string,
        path_map [scanned "b" 3; scanned "c" 4] !! "b"%string with
  | None, Some n =>
      [{| type := ADDED; change_path := "b"; old_path := EmptyString;
          old_hash := 0; new_hash := content_hash n |}]
  | Some o, Some n =>
      if content_hash o =? content_hash n then []
      else [{| type := MODIFIED; change_path := "b"; old_path := EmptyString;
               old_hash := content_hash o; new_hash := content_hash n |}]
  | Some o, None =>
      [{| type := DELETED; change_path := "b"; old_path := EmptyString;
          old_hash := content_hash o; new_hash := 0 |}]
  | None, None => []
  end.
Proof.
  apply (diff_without_rename_detection id id (fun l => Permutation_refl l)).
Defined.


(** *** The counters count the records *)

#[local] Abbreviation counted r :=
  (added_count r = count_of ADDED (changes r) /\
   modified_count r = count_of MODIFIED (changes r) /\
   deleted_count r = count_of DELETED (changes r) /\
   renamed_count r = count_of RENAMED (changes r)).

#[local] Abbreviation bounded r := (Z.of_nat (length (changes r)) < 2 ^ 32).

Lemma count_of_snoc t cs c :
  count_of t (cs ++ [c]) = count_of t cs + (if type_is t c then 1 else 0).
Proof.
  unfold count_of. rewrite List.filter_app, length_app. cbn [List.filter].
  destruct (type_is t c); cbn [length]; lia.
Qed.

Lemma count_of_bound t cs : 0 <= count_of t cs <= Z.of_nat (length cs).
Proof.
  unfold count_of. pose proof (List.filter_length_le (type_is t) cs). lia.
Qed.

Lemma counted_snoc r c a m d n :
  counted r -> Z.of_nat (length (changes r ++ [c])) < 2 ^ 32 ->
  a = (if type_is ADDED c then u32 (added_count r + 1) else added_count r) ->
  m = (if type_is MODIFIED c then u32 (modified_count r + 1)
       else modified_count r) ->
  d = (if type_is DELETED c then u32 (deleted_count r + 1)
       else deleted_count r) ->
  n = (if type_is RENAMED c then u32 (renamed_count r + 1)
       else renamed_count r) ->
  counted {| changes := changes r ++ [c]; added_count := a;
             modified_count := m; deleted_count := d; renamed_count := n |}.
Proof.
  intros (Ha & Hm & Hd & Hn) Hb -> -> -> ->.
  cbn [changes added_count modified_count deleted_count renamed_count].
  rewrite !count_of_snoc. rewrite length_app in Hb. cbn [length] in Hb.
  pose proof (count_of_bound ADDED (changes r)).
  pose proof (count_of_bound MODIFIED (changes r)).
  pose proof (count_of_bound DELETED (changes r)).
  pose proof (count_of_bound RENAMED (changes r)).
  rewrite Ha, Hm, Hd, Hn.
  repeat split;
    match goal with
    | |- context [type_is ?t c] =>
        destruct (type_is t c); [apply u32_small; lia|lia]
    end.
Qed.

Lemma visit_new_counted om rn r kv :
  counted r -> bounded (visit_new om rn r kv) -> counted (visit_new om rn r kv).
Proof.
  destruct kv as [p e]. unfold visit_new.
  destruct (bool_decide (p ∈ rn)); [intros H _; exact H|].
  destruct (om !! p) as [o|].
  - destruct (negb (content_hash o =? content_hash e)); [|intros H _; exact H].
    intros H Hb. apply counted_snoc; try assumption; reflexivity.
  - intros H Hb. apply counted_snoc; try assumption; reflexivity.
Qed.

Lemma visit_old_counted nm ro r kv :
  counted r -> bounded (visit_old nm ro r kv) -> counted (visit_old nm ro r kv).
Proof.
  destruct kv as [p e]. unfold visit_old.
  destruct (bool_decide (p ∈ ro)); [intros H _; exact H|].
  destruct (nm !! p); [intros H _; exact H|].
  intros H Hb. apply counted_snoc; try assumption; reflexivity.
Qed.

Lemma push_rename_counted st c :
  type c = RENAMED ->
  counted st.1.1 -> bounded (push_rename st c).1.1 ->
  counted (push_rename st c).1.1.
Proof.
  destruct st as [[r ro] rn]. cbn [fst snd push_rename].
  intros Ht H Hb. apply counted_snoc; try assumption;
    unfold type_is; rewrite Ht; reflexivity.
Qed.

Lemma fold_counted {A} (f : DiffResult -> A -> DiffResult) l r :
  (forall r x, (length (changes r) <= length (changes (f r x)))%nat) ->
  (forall r x, counted r -> bounded (f r x) -> counted (f r x)) ->
  counted r -> bounded (fold_left f l r) -> counted (fold_left f l r).
Proof.
  intros Hmono Hstep. revert r.
  assert (Hlen : forall l r,
            (length (changes r) <= length (changes (fold_left f l r)))%nat).
  { intros l'. induction l' as [|x l' IH]; intros r; [cbn; lia|].
    cbn [fold_left]. etransitivity; [apply (Hmono r x)|apply IH]. }
  induction l as [|x l IH]; intros r Hc Hb; [exact Hc|].
  cbn [fold_left] in *. apply IH; [|exact Hb].
  apply Hstep; [exact Hc|]. pose proof (Hlen l (f r x)). lia.
Qed.

Lemma fold_push_rename_counted rs st :
  Forall (fun c => type c = RENAMED) rs ->
  counted st.1.1 -> bounded (fold_left push_rename rs st).1.1 ->
  counted (fold_left push_rename rs st).1.1.
Proof.
  revert st. induction rs as [|c rs IH]; intros st Hrs Hc Hb; [exact Hc|].
  apply Forall_cons in Hrs as [Ht Hrs]. cbn [fold_left] in *.
  apply IH; [exact Hrs| |exact Hb].
  apply push_rename_counted; [exact Ht|exact Hc|].
  rewrite fold_push_rename_changes in Hb. rewrite length_app in Hb. lia.
Qed.

Lemma detect_renames_type bucket_order old_files new_files :
  Forall (fun c => type c = RENAMED)
    (detect_renames bucket_order old_files new_files).
Proof.
  unfold detect_renames. rewrite Forall_forall. intros c Hc.
  apply list_elem_of_In, in_flat_map in Hc as ([h ps] & _ & Hc).
  unfold rename_candidates in Hc.
  destruct (hash_buckets new_files !! h) as [ns|]; [|destruct Hc].
  apply in_flat_map in Hc as (o & _ & Hc).
  destruct (bool_decide (o ∈ path_set new_files)); [destruct Hc|].
  apply in_flat_map in Hc as (n & _ & Hc).
  destruct (bool_decide (n ∈ path_set old_files)); [destruct Hc|].
  destruct Hc as [<-|[]]. reflexivity.
Qed.

(** X13. The four counters of a [diff] result are the numbers of Added,
    Modified, Deleted and Renamed records in its list (as long as the
    list has fewer than 2^32 records, so that no counter wraps). *)
Theorem diff_counters_count_records
    (bucket_order : iteration_order Z (list string))
    (entry_order : iteration_order string FileEntry)
    (detect : bool) (old_scan new_scan : list FileEntry) :
  let r := diff bucket_order entry_order detect old_scan new_scan in
  Z.of_nat (length (changes r)) < 2 ^ 32 ->
  added_count r = count_of ADDED (changes r) /\
  modified_count r = count_of MODIFIED (changes r) /\
  deleted_count r = count_of DELETED (changes r) /\
  renamed_count r = count_of RENAMED (changes r).
Proof.
  cbv zeta. unfold diff.
  set (start := if detect
                then fold_left push_rename
                       (detect_renames bucket_order old_scan new_scan)
                       (no_changes, ∅, ∅)
                else (no_changes, ∅, ∅)).
  assert (Hstart : bounded start.1.1 -> counted start.1.1).
  { unfold start. destruct detect; [|intros _; cbn; repeat split].
    intros Hb. apply fold_push_rename_counted;
      [apply detect_renames_type|cbn; repeat split|exact Hb]. }
  destruct start as [[r0 ro] rn]. cbn [fst snd] in Hstart.
  intros Hb.
  assert (Hmono_new : forall om rn r x,
            (length (changes r) <= length (changes (visit_new om rn r x)))%nat)
    by (intros; rewrite visit_new_changes, length_app; lia).
  assert (Hmono_old : forall nm ro r x,
            (length (changes r) <= length (changes (visit_old nm ro r x)))%nat)
    by (intros; rewrite visit_old_changes, length_app; lia).
  apply fold_counted; [apply Hmono_old|apply visit_old_counted| |exact Hb].
  rewrite fold_visit_old_changes, length_app in Hb.
  apply fold_counted; [apply Hmono_new|apply visit_new_counted| |lia].
  apply Hstart. rewrite fold_visit_new_changes, length_app in Hb. lia.
Qed.

Lemma diff_counters_count_records_witness :
  added_count (diff id id true [scanned "a" 1; scanned "b" 2]
                               [scanned "b" 3; scanned "c" 1]) =
    count_of ADDED
      (changes (diff id id true [scanned "a" 1; scanned "b" 2]
                                [scanned "b" 3; scanned "c" 1])) /\
  modified_count (diff id id true [scanned "a" 1; scanned "b" 2]
                                  [scanned "b" 3; scanned "c" 1]) =
    count_of MODIFIED
      (changes (diff id id true [scanned "a" 1; scanned "b" 2]
                                [scanned "b" 3; scanned "c" 1])) /\
  deleted_count (diff id id true [scanned "a" 1; scanned "b" 2]
                                 [scanned "b" 3; scanned "c" 1]) =
    count_of DELETED
      (changes (diff id id true [scanned "a" 1; scanned "b" 2]
                                [scanned "b" 3; scanned "c" 1])) /\
  renamed_count (diff id id true [scanned "a" 1; scanned "b" 2]
                                 [scanned "b" 3; scanned "c" 1]) =
    count_of RENAMED
      (changes (diff id id true [scanned "a" 1; scanned "b" 2]
                                [scanned "b" 3; scanned "c" 1])).
Proof.
  apply (diff_counters_count_records id id true
           [scanned "a" 1; scanned "b" 2] [scanned "b" 3; scanned "c" 1]).
  vm_compute. reflexivity.
Defined.

End DiffRecords.

(** ** Sliding-window chunks *)

Section ChunkerFacts.
Import Tokenizer Chunker.

Lemma line_rest_length s : (line_rest s <= length s)%nat.
Proof.
  induction s as [|c r IH]; [reflexivity|].
  cbn [line_rest length]. destruct (Ascii.eqb c newline); lia.
Qed.

Lemma line_rest_stop s :
  line_rest s = length s \/ s !! line_rest s = Some newline.
Proof.
  induction s as [|c r IH]; [left; reflexivity|].
  cbn [line_rest length]. destruct (Ascii.eqb_spec c newline) as [->|_].
  - right. reflexivity.
  - destruct IH as [IH|IH]; [left; lia|right; exact IH].
Qed.

Lemma find_line_end_bounds source offset :
  (offset <= length source)%nat ->
  (offset <= find_line_end source offset <= length source)%nat /\
  (find_line_end source offset = length source \/
   source !! find_line_end source offset = Some newline).
Proof.
  intros Ho. unfold find_line_end.
  pose proof (line_rest_length (drop offset source)) as Hl.
  rewrite length_drop in Hl. split; [lia|].
  destruct (line_rest_stop (drop offset source)) as [H|H].
  - left. rewrite H, length_drop. lia.
  - right. rewrite lookup_drop in H. exact H.
Qed.

Lemma to_line_boundary_spec source e :
  (e <= length source)%nat ->
  (e <= to_line_boundary source e <= length source)%nat /\
  ((e < length source)%nat -> (e < to_line_boundary source e)%nat) /\
  at_line_end source (to_line_boundary source e).
Proof.
  intros He. unfold to_line_boundary.
  destruct (find_line_end_bounds source e He) as [Hb Hs].
  set (f := find_line_end source e) in *.
  destruct (Nat.ltb_spec f (length source)) as [Hlt|Hge].
  - rewrite Nat.min_l by lia. split; [lia|]. split; [lia|].
    right. exists f. split; [reflexivity|].
    destruct Hs as [Hs|Hs]; [lia|exact Hs].
  - rewrite Nat.min_r by lia. split; [lia|]. split; [lia|].
    left. reflexivity.
Qed.


Lemma length_substr source pos n :
  (pos + n <= length source)%nat -> length (substr source pos n) = n.
Proof.
  intros H. unfold substr. rewrite length_take, length_drop. lia.
Qed.

Section SlidingWindow.
Variable config : ChunkerConfig.
Variable source : list ascii.
Hypothesis source_size : Z.of_nat (length source) < 2 ^ 32.

#[local] Abbreviation next_start pos ov :=
  (if (0 <? ov) && (0 <? pos) then pos - Nat.min ov pos else pos)%nat.

Lemma next_start_le pos ov : (next_start pos ov <= pos)%nat.
Proof. destruct ((0 <? ov)%nat && (0 <? pos)%nat); lia. Qed.

#[local] Abbreviation window_end s :=
  (let e1 := to_line_boundary source
               (s + find_token_boundary (drop s source)
                      (max_chunk_tokens config)) in
   if (count_tokens (substr source s (e1 - s)) <? min_chunk_tokens config)
      && (e1 <? length source)%nat
   then to_line_boundary source (e1 + 1) else e1).

Lemma window_end_spec s :
  (s < length source)%nat ->
  (s < window_end s <= length source)%nat /\ at_line_end source (window_end s).
Proof.
  intros Hs. cbv zeta.
  assert (Hrem : drop s source <> []).
  { intros E. apply (f_equal length) in E. rewrite length_drop in E.
    cbn in E. lia. }
  pose proof (find_token_boundary_lt (drop s source)
                (max_chunk_tokens config) Hrem) as Hblen.
  rewrite length_drop in Hblen.
  set (blen := find_token_boundary (drop s source) (max_chunk_tokens config))
    in *.
  destruct (to_line_boundary_spec source (s + blen) ltac:(lia))
    as (Hb1 & Hgt1 & Hend1).
  specialize (Hgt1 ltac:(lia)).
  set (e1 := to_line_boundary source (s + blen)) in *.
  destruct (count_tokens (substr source s (e1 - s))
            <? min_chunk_tokens config); cbn [andb];
    [|split; [lia|exact Hend1]].
  destruct (Nat.ltb_spec e1 (length source)) as [He1|He1];
    [|split; [lia|exact Hend1]].
  destruct (to_line_boundary_spec source (e1 + 1) ltac:(lia))
    as (Hb2 & _ & Hend2).
  split; [lia|exact Hend2].
Qed.

(** One turn of the loop: the chunk of the window that starts at
    [next_start pos ov] is pushed and the loop goes on from its end. *)
Lemma sliding_loop_step fuel pos ov idx acc :
  (pos < length source)%nat ->
  exists chunk,
    sliding_loop (S fuel) config source pos ov idx acc =
    sliding_loop fuel config source (window_end (next_start pos ov))
      (find_token_boundary (content chunk) (overlap_tokens config))
      (u32 (idx + 1)) (acc ++ [chunk]) /\
    content chunk =
      substr source (next_start pos ov)
        (window_end (next_start pos ov) - next_start pos ov) /\
    span_start chunk = next_start pos ov /\
    span_end chunk = window_end (next_start pos ov).
Proof.
  intros Hlt. cbn [sliding_loop].
  destruct (Nat.ltb_spec pos (length source)) as [_|Hge]; [|lia].
  cbv zeta.
  pose proof (next_start_le pos ov) as Hs.
  set (s := next_start pos ov) in *.
  assert (Hrem : drop s source <> []).
  { intros E. apply (f_equal length) in E. rewrite length_drop in E.
    cbn in E. lia. }
  pose proof (find_token_boundary_lt (drop s source)
                (max_chunk_tokens config) Hrem) as Hblen.
  rewrite length_drop in Hblen.
  destruct (Nat.ltb_spec
              (s + find_token_boundary (drop s source) (max_chunk_tokens config))
              (length source)) as [_|Hbad]; [|lia].
  destruct (window_end_spec s ltac:(lia)) as [He _]. cbv zeta in He.
  match goal with
  | |- context [(?e <=? s)%nat] => set (e2 := e) in *
  end.
  destruct (Nat.leb_spec e2 s) as [Hbreak|_]; [lia|].
  match goal with
  | |- context [sliding_loop fuel config source e2 _ _ (acc ++ [?c])] =>
      exists c
  end.
  split; [reflexivity|].
  cbn [content]. split; [reflexivity|].
  unfold span_start, span_end. cbn [location byte_offset byte_length].
  rewrite !u32_small by lia. split; lia.
Qed.

Lemma sliding_loop_tiles fuel :
  forall pos ov idx acc after,
    (pos <= length source)%nat ->
    (length source - next_start pos ov <= fuel)%nat ->
    match after with
    | Some a => (a < next_start pos ov)%nat
    | None => True
    end ->
    exists new,
      sliding_loop fuel config source pos ov idx acc = Done (acc ++ new) /\
      tiles source after pos new.
Proof.
  induction fuel as [|fuel IH]; intros pos ov idx acc after Hpos Hfuel Hafter;
    pose proof (next_start_le pos ov) as Hs.
  - exists []. rewrite app_nil_r. split; [|cbn; lia].
    cbn [sliding_loop].
    destruct (Nat.ltb_spec pos (length source)); [lia|reflexivity].
  - destruct (Nat.ltb_spec pos (length source)) as [Hlt|Hge].
    2:{ exists []. rewrite app_nil_r. split; [|cbn; lia].
        cbn [sliding_loop].
        destruct (Nat.ltb_spec pos (length source)); [lia|reflexivity]. }
    destruct (sliding_loop_step fuel pos ov idx acc Hlt)
      as (chunk & -> & Hcontent & Hstart & Hstop).
    set (s := next_start pos ov) in *.
    destruct (window_end_spec s ltac:(lia)) as [He Hend].
    set (e := window_end s) in *.
    assert (Hbody : length (content chunk) = (e - s)%nat)
      by (rewrite Hcontent; apply length_substr; lia).
    assert (Hne : content chunk <> []).
    { intros E. rewrite E in Hbody. cbn in Hbody. lia. }
    pose proof (find_token_boundary_lt (content chunk) (overlap_tokens config)
                  Hne) as Hov.
    rewrite Hbody in Hov.
    set (ov' := find_token_boundary (content chunk) (overlap_tokens config)) in *.
    assert (Hnext : (s < next_start e ov' <= e)%nat).
    { destruct (Nat.ltb_spec 0 ov'); destruct (Nat.ltb_spec 0 e);
        cbn [andb]; lia. }
    destruct (IH e ov' (u32 (idx + 1)) (acc ++ [chunk]) (Some s))
      as (new & Hrun & Htiles); [lia|lia|lia|].
    exists (chunk :: new). split.
    + rewrite Hrun, <- app_assoc. reflexivity.
    + cbn [tiles]. rewrite Hstart, Hstop.
      split; [exact Hcontent|]. split; [lia|]. split; [exact Hend|].
      split; [lia|]. split; [exact Hafter|exact Htiles].
Qed.

(** With no overlap asked for, each window starts where the one before
    it ended. *)
Lemma sliding_loop_partition fuel :
  overlap_tokens config = 0 ->
  forall pos idx acc,
    (pos <= length source)%nat -> (length source - pos <= fuel)%nat ->
    exists new,
      sliding_loop fuel config source pos 0 idx acc = Done (acc ++ new) /\
      concat (map content new) = drop pos source.
Proof.
  intros Hzero.
  induction fuel as [|fuel IH]; intros pos idx acc Hpos Hfuel.
  - exists []. rewrite app_nil_r. split.
    + cbn [sliding_loop].
      destruct (Nat.ltb_spec pos (length source)); [lia|reflexivity].
    + rewrite drop_ge by lia. reflexivity.
  - destruct (Nat.ltb_spec pos (length source)) as [Hlt|Hge].
    2:{ exists []. rewrite app_nil_r. split.
        - cbn [sliding_loop].
          destruct (Nat.ltb_spec pos (length source)); [lia|reflexivity].
        - rewrite drop_ge by lia. reflexivity. }
    destruct (sliding_loop_step fuel pos 0 idx acc Hlt)
      as (chunk & Hstep & Hcontent & _ & _).
    change (next_start pos 0) with pos in Hstep, Hcontent.
    rewrite Hstep. clear Hstep.
    destruct (window_end_spec pos Hlt) as [He _].
    set (e := window_end pos) in *.
    assert (Hov : find_token_boundary (content chunk) (overlap_tokens config)
                  = 0%nat).
    { rewrite Hzero. unfold find_token_boundary, find_boundary.
      destruct (content chunk); reflexivity. }
    rewrite Hov.
    destruct (IH e (u32 (idx + 1)) (acc ++ [chunk])) as (new & Hrun & Hcat);
      [lia|lia|].
    exists (chunk :: new). split.
    + rewrite Hrun, <- app_assoc. reflexivity.
    + cbn [map concat]. rewrite Hcat, Hcontent. unfold substr.
      symmetry. etransitivity; [symmetry; apply (take_drop (e - pos))|].
      rewrite drop_drop. repeat f_equal. lia.
Qed.

(** X14. The sliding window always ends and its chunks tile the source: the
    first starts at offset 0, each next one starts after the start and no
    later than the end of the one before it, the last ends where the source
    ends; each holds the bytes of its span, is not empty and ends just
    after a newline or at the end of the source. *)
Theorem sliding_window_tiles_source :
  exists chunks,
    create_sliding_window_chunks config source = Done chunks /\
    tiles source None 0 chunks.
Proof.
  unfold create_sliding_window_chunks.
  destruct (sliding_loop_tiles (length source) 0%nat 0%nat 0 [] None)
    as (new & Hrun & Htiles).
  - lia.
  - cbn. lia.
  - exact I.
  - exists new. split; [exact Hrun|exact Htiles].
Qed.

(** X15. With [overlap_tokens = 0] the chunks partition the source: their
    contents, put together in order, are the source. *)
Theorem sliding_window_without_overlap :
  overlap_tokens config = 0 ->
  exists chunks,
    create_sliding_window_chunks config source = Done chunks /\
    concat (map content chunks) = source.
Proof.
  intros Hzero. unfold create_sliding_window_chunks.
  destruct (sliding_loop_partition (length source) Hzero 0%nat 0 [])
    as (new & Hrun & Hcat); [lia|lia|].
  exists new. split; [exact Hrun|exact Hcat].
Qed.

End SlidingWindow.

Lemma sliding_window_tiles_source_witness :
  exists chunks,
    create_sliding_window_chunks
      {| max_chunk_tokens := 4; min_chunk_tokens := 2; overlap_tokens := 2;
         respect_boundaries := false; include_context := false;
         preserve_imports := false; language := 0 |}
      (str "let a = 1;" ++ newline :: str "let b = 2;" ++ newline ::
       str "return a + b;") = Done chunks /\
    tiles (str "let a = 1;" ++ newline :: str "let b = 2;" ++ newline ::
           str "return a + b;") None 0 chunks.
Proof.
  apply sliding_window_tiles_source. vm_compute. reflexivity.
Defined.

Lemma sliding_window_without_overlap_witness :
  exists chunks,
    create_sliding_window_chunks
      {| max_chunk_tokens := 4; min_chunk_tokens := 2; overlap_tokens := 0;
         respect_boundaries := false; include_context := false;
         preserve_imports := false; language := 0 |}
      (str "let a = 1;" ++ newline :: str "let b = 2;" ++ newline ::
       str "return a + b;") = Done chunks /\
    concat (map content chunks) =
      str "let a = 1;" ++ newline :: str "let b = 2;" ++ newline ::
      str "return a + b;".
Proof.
  apply sliding_window_without_overlap.
  - vm_compute. reflexivity.
  - reflexivity.
Defined.

End ChunkerFacts.

(** ** Boundary detection: progress, order and range *)

Section RegexFacts.
Import Regex.

#[local] Abbreviation slack r := (if nullable r then 0%nat else 1%nat).

(** A match leaves at most what the continuation leaves, and less by one
    byte when the pattern cannot match the empty string. *)
Lemma rmatch_consumes r :
  forall (d : nat) s caps (k : kont) x,
    (forall s' caps' y, k s' caps' = Some y ->
                        (length y.1 + d <= length s')%nat) ->
    rmatch r s caps k = Some x ->
    (length x.1 + d + slack r <= length s)%nat.
Proof.
  induction r as [|p|r1 IH1 r2 IH2|r1 IH1 r2 IH2|r1 IH1|i r1 IH1];
    intros d s caps k x Hk Hm; cbn [rmatch nullable] in *.
  - specialize (Hk _ _ _ Hm). lia.
  - destruct s as [|c s']; [discriminate|].
    destruct (p c); [|discriminate]. specialize (Hk _ _ _ Hm).
    cbn [length]. lia.
  - pose proof (IH1 (d + slack r2)%nat s caps
                  (fun s' caps' => rmatch r2 s' caps' k) x) as H.
    assert (Hgoal : (length x.1 + (d + slack r2) + slack r1 <= length s)%nat).
    { apply H; [|exact Hm]. intros s' caps' y Hy.
      pose proof (IH2 d s' caps' k y Hk Hy). lia. }
    destruct (nullable r1), (nullable r2); cbn [andb] in *; lia.
  - destruct (rmatch r1 s caps k) as [m|] eqn:E1.
    + injection Hm as <-. pose proof (IH1 d s caps k m Hk E1).
      destruct (nullable r1), (nullable r2); cbn [orb] in *; lia.
    + pose proof (IH2 d s caps k x Hk Hm).
      destruct (nullable r1), (nullable r2); cbn [orb] in *; lia.
  - rewrite Nat.add_0_r.
    remember (length s) as n eqn:Hn in Hm at 1. clear Hn.
    revert s caps x Hm. induction n as [|n IHn]; intros s caps x Hm.
    + specialize (Hk _ _ _ Hm). lia.
    + destruct (rmatch r1 s caps
                  (fun s' caps' =>
                     if (length s' <? length s)%nat
                     then (fix star (n : nat) (s : list ascii) (caps : captures)
                             {struct n} :=
                             match n with
                             | O => k s caps
                             | S n' =>
                                 match rmatch r1 s caps
                                         (fun s' caps' =>
                                            if (length s' <? length s)%nat
                                            then star n' s' caps' else None) with
                                 | Some m => Some m
                                 | None => k s caps
                                 end
                             end) n s' caps'
                     else None)) as [m|] eqn:E.
      * injection Hm as <-.
        assert (Hgoal : (length m.1 + d + slack r1 <= length s)%nat).
        { eapply IH1; [|exact E]. intros s' caps' y Hy. cbv beta in Hy.
          destruct (length s' <? length s)%nat; [|discriminate].
          apply (IHn s' caps' y Hy). }
        lia.
      * specialize (Hk _ _ _ Hm). lia.
  - eapply IH1; [|exact Hm].
    intros s' caps' y Hy. apply (Hk _ _ _ Hy).
Qed.

Lemma search_match_length r s m :
  nullable r = false ->
  regex_search_continuous r s = Some m ->
  (1 <= match_length m <= length s)%nat.
Proof.
  intros Hn Hs. unfold regex_search_continuous in Hs.
  destruct (rmatch r s ∅ (fun s' caps => Some (s', caps))) as [[s' caps]|] eqn:E;
    [|discriminate].
  injection Hs as <-. cbn [match_length].
  assert (H : (length (s', caps).1 + 0 + slack r <= length s)%nat).
  { eapply rmatch_consumes; [|exact E]. intros s2 c2 y [= <-]. cbn. lia. }
  rewrite Hn in H. cbn [fst] in H. lia.
Qed.

End RegexFacts.

Section DetectorFacts.
Import Regex BoundaryDetector.

Lemma skip_whitespace_length s : (length (skip_whitespace s) <= length s)%nat.
Proof.
  induction s as [|c r IH]; [reflexivity|]. cbn [skip_whitespace].
  destruct (cls_space c); cbn [length]; lia.
Qed.

Lemma skip_to_eol_length s : (length (skip_to_eol s) <= length s)%nat.
Proof.
  induction s as [|c r IH]; [reflexivity|]. cbn [skip_to_eol].
  destruct (Ascii.eqb c "010"); cbn [length]; lia.
Qed.

Lemma skip_until_length stop s : (length (skip_until stop s) <= length s)%nat.
Proof.
  induction s as [|c r IH]; [reflexivity|]. cbn [skip_until].
  destruct (Ascii.eqb c stop); cbn [length]; lia.
Qed.

Lemma skip_string_body_length s quote :
  (length (skip_string_body s quote) <= length s)%nat.
Proof.
  remember (length s) as n eqn:Hn. assert (Hle : (length s <= n)%nat) by lia.
  clear Hn. revert s Hle.
  induction n as [|n IH]; intros s Hle.
  - destruct s; [cbn; lia|cbn in Hle; lia].
  - destruct s as [|c r]; [cbn; lia|]. cbn [length] in Hle.
    pose proof (IH r ltac:(lia)) as Hr.
    change (skip_string_body (c :: r) quote) with
      (match r with
       | e :: r' =>
           if Ascii.eqb c "\" then skip_string_body r' quote
           else if Ascii.eqb c quote then r
           else skip_string_body r quote
       | [] => if Ascii.eqb c quote then r else skip_string_body r quote
       end).
    destruct r as [|e r'].
    + destruct (Ascii.eqb c quote); cbn; lia.
    + pose proof (IH r' ltac:(cbn [length] in Hle; lia)) as Hr'.
      destruct (Ascii.eqb c "\"); [cbn [length]; lia|].
      destruct (Ascii.eqb c quote); cbn [length] in *; lia.
Qed.

Lemma skip_template_body_length s depth :
  (length (skip_template_body s depth) <= length s)%nat.
Proof.
  remember (length s) as n eqn:Hn. assert (Hle : (length s <= n)%nat) by lia.
  clear Hn. revert s depth Hle.
  induction n as [|n IH]; intros s depth Hle.
  - destruct s; [cbn; lia|cbn in Hle; lia].
  - destruct s as [|c r]; [cbn; lia|]. cbn [length] in Hle.
    pose proof (fun d => IH r d ltac:(lia)) as Hr.
    change (skip_template_body (c :: r) depth) with
      (if 0 <? depth then
         skip_template_body r
           (if Ascii.eqb c "{" then depth + 1
            else if Ascii.eqb c "}" then depth - 1 else depth)
       else
         match r with
         | e :: r' =>
             if Ascii.eqb c "\" then skip_template_body r' 0
             else if Ascii.eqb c "$" && Ascii.eqb e "{"
                  then skip_template_body r' 1
             else if Ascii.eqb c "`" then r
             else skip_template_body r 0
         | [] => if Ascii.eqb c "`" then r else skip_template_body r 0
         end).
    destruct (0 <? depth).
    + pose proof (Hr (if Ascii.eqb c "{" then depth + 1
                      else if Ascii.eqb c "}" then depth - 1 else depth)).
      cbn [length]. lia.
    + destruct r as [|e r'].
      * destruct (Ascii.eqb c "`"); cbn; lia.
      * pose proof (fun d => IH r' d ltac:(cbn [length] in Hle; lia)) as Hr'.
        pose proof (Hr' 0). pose proof (Hr' 1). pose proof (Hr 0).
        destruct (Ascii.eqb c "\"); [cbn [length]; lia|].
        destruct (Ascii.eqb c "$" && Ascii.eqb e "{"); [cbn [length]; lia|].
        destruct (Ascii.eqb c "`"); cbn [length] in *; lia.
Qed.

Lemma skip_block_comment_length s :
  (length (skip_block_comment s) <= length s)%nat.
Proof.
  remember (length s) as n eqn:Hn. assert (Hle : (length s <= n)%nat) by lia.
  clear Hn. revert s Hle.
  induction n as [|n IH]; intros s Hle.
  - destruct s; [cbn; lia|cbn in Hle; lia].
  - destruct s as [|c r]; [cbn; lia|]. cbn [length] in Hle.
    pose proof (IH r ltac:(lia)) as Hr.
    change (skip_block_comment (c :: r)) with
      (match r with
       | e :: r' =>
           if Ascii.eqb c "*" && Ascii.eqb e "/" then r'
           else skip_block_comment r
       | [] => c :: r
       end).
    destruct r as [|e r']; [cbn; lia|].
    destruct (Ascii.eqb c "*" && Ascii.eqb e "/"); cbn [length] in *; lia.
Qed.

(** A comment opener is stepped over with at least its first byte. *)
Lemma skip_comment_opened c r :
  Ascii.eqb c "/" && (starts_with "/" r || starts_with "*" r) = true ->
  (length (skip_comment (c :: r)) <= length r)%nat.
Proof.
  intros H. apply andb_true_iff in H as [Hc Hr].
  apply Ascii.eqb_eq in Hc. subst c.
  destruct r as [|e r']; [discriminate|]. cbn [starts_with] in Hr.
  cbn [skip_comment]. cbn [Ascii.eqb Bool.eqb andb].
  apply orb_true_iff in Hr as [He|He]; apply Ascii.eqb_eq in He; subst e.
  - cbn [Ascii.eqb Bool.eqb andb skip_to_eol].
    pose proof (skip_to_eol_length r'). cbn [length]. lia.
  - cbn [Ascii.eqb Bool.eqb andb].
    pose proof (skip_block_comment_length r'). cbn [length]. lia.
Qed.

Lemma boundary_at_offset source pos t n depth start :
  byte_offset (boundary_at source pos t n depth start) = u32 (Z.of_nat pos).
Proof.
  unfold boundary_at. destruct (offset_to_line_col source pos). reflexivity.
Qed.

Lemma boundary_in_source source pos t n depth start :
  Z.of_nat (length source) < 2 ^ 32 -> (pos < length source)%nat ->
  in_source source (boundary_at source pos t n depth start).
Proof.
  intros Hsize Hpos. unfold in_source. rewrite boundary_at_offset.
  rewrite u32_small; lia.
Qed.


Lemma skip_whitespace_head s c r :
  skip_whitespace s = c :: r -> cls_space c = false.
Proof.
  induction s as [|a s IH]; cbn [skip_whitespace]; [discriminate|].
  destruct (cls_space a) eqn:E; [exact IH|].
  intros H. injection H as -> _. exact E.
Qed.

Lemma skip_until_open_drop m (s : list ascii) :
  (1 <= m)%nat ->
  (length (skip_until "{" (drop m s)) <= length s - 1)%nat.
Proof.
  intros Hm. pose proof (skip_until_length "{" (drop m s)) as H.
  rewrite length_drop in H. lia.
Qed.

Lemma Forall_in_source_snoc source bs pos t n depth start :
  Z.of_nat (length source) < 2 ^ 32 -> (pos < length source)%nat ->
  Forall (in_source source) bs ->
  Forall (in_source source) (bs ++ [boundary_at source pos t n depth start]).
Proof.
  intros Hsize Hpos Hbs. apply Forall_app. split; [exact Hbs|].
  constructor; [|constructor]. apply boundary_in_source; assumption.
Qed.

Lemma javascript_loop_done source :
  Z.of_nat (length source) < 2 ^ 32 ->
  forall fuel s depth stack bs,
    (length s <= fuel)%nat -> (length s <= length source)%nat ->
    Forall (in_source source) bs ->
    exists bs', javascript_loop fuel source s depth stack bs = Done bs' /\
                Forall (in_source source) bs'.
Proof.
  intros Hsize. induction fuel as [|fuel IH]; intros s depth stack bs Hf Hs Hbs.
  - destruct s; [|cbn in Hf; lia]. exists bs. split; [reflexivity|exact Hbs].
  - pose proof (skip_whitespace_length s) as Hw.
    cbn [javascript_loop].
    destruct (skip_whitespace s) as [|c r] eqn:Esw;
      [exists bs; split; [reflexivity|exact Hbs]|].
    cbn [length] in Hw.
    assert (Hpos : (length source - length (c :: r) < length source)%nat)
      by (cbn [length]; lia).
    pose proof (fun t n d st =>
      Forall_in_source_snoc source bs _ t n d st Hsize Hpos Hbs) as Hsnoc.
    destruct (Ascii.eqb c "/" && (starts_with "/" r || starts_with "*" r))
      eqn:Ecomment.
    { pose proof (skip_comment_opened c r Ecomment) as Hc.
      apply IH; [lia|lia|].
      destruct (50 <? length (c :: r) - length (skip_comment (c :: r)))%nat;
        [apply Hsnoc|exact Hbs]. }
    destruct (Ascii.eqb c dquote || Ascii.eqb c "'").
    { pose proof (skip_string_body_length r c) as Hc.
      change (skip_string (c :: r) c) with (skip_string_body r c).
      apply IH; [lia|lia|exact Hbs]. }
    destruct (Ascii.eqb c "`").
    { pose proof (skip_template_body_length r 0) as Hc.
      change (skip_template_string (c :: r)) with (skip_template_body r 0).
      apply IH; [lia|lia|exact Hbs]. }
    destruct (regex_search_continuous import_regex (take 200 (c :: r))) as [m|].
    { pose proof (skip_whitespace_head s c r Esw) as Hc.
      pose proof (skip_to_eol_length r) as Hr.
      assert (E : skip_to_eol (c :: r) = skip_to_eol r).
      { cbn [skip_to_eol]. destruct (Ascii.eqb c "010") eqn:En; [|reflexivity].
        apply Ascii.eqb_eq in En. subst c. discriminate Hc. }
      rewrite E. apply IH; [lia|lia|apply Hsnoc]. }
    destruct (regex_search_continuous export_regex (take 200 (c :: r)))
      as [m|] eqn:Em;
      [apply search_match_length in Em as [Hm _]; [|reflexivity]|clear Em].
    {
      apply IH; [rewrite length_drop; cbn [length]; lia
                |rewrite length_drop; cbn [length]; lia|apply Hsnoc]. }
    destruct (regex_search_continuous class_regex (take 200 (c :: r)))
      as [m|] eqn:Em;
      [apply search_match_length in Em as [Hm _]; [|reflexivity]|clear Em].
    {
      pose proof (skip_until_open_drop (match_length m) (c :: r) Hm) as Hu.
      cbn [length] in Hu.
      destruct (skip_until "{" (drop (match_length m) (c :: r))) as [|b r'];
        cbn [length] in Hu;
        (apply IH; [cbn [length]; lia|cbn [length]; lia|apply Hsnoc]). }
    destruct (regex_search_continuous func_regex (take 200 (c :: r)))
      as [m|] eqn:Em;
      [apply search_match_length in Em as [Hm _]; [|reflexivity]|clear Em].
    {
      pose proof (skip_until_open_drop (match_length m) (c :: r) Hm) as Hu.
      cbn [length] in Hu.
      destruct (skip_until "{" (drop (match_length m) (c :: r))) as [|b r'];
        cbn [length] in Hu;
        (apply IH; [cbn [length]; lia|cbn [length]; lia|apply Hsnoc]). }
    destruct (regex_search_continuous arrow_regex (take 200 (c :: r)))
      as [m|] eqn:Em;
      [apply search_match_length in Em as [Hm _]; [|reflexivity]|clear Em].
    {
      pose proof (skip_whitespace_length (drop (match_length m) (c :: r)))
        as Hu.
      pose proof (length_drop (c :: r) (match_length m)) as Hd.
      cbn [length] in Hd.
      destruct (skip_whitespace (drop (match_length m) (c :: r))) as [|b r'];
        [|destruct (Ascii.eqb b "{")]; cbn [length] in Hu;
        (apply IH; [lia|lia|apply Hsnoc]). }
    destruct (Ascii.eqb c "{"); [apply IH; [lia|lia|exact Hbs]|].
    destruct (Ascii.eqb c "}"); [|apply IH; [lia|lia|exact Hbs]].
    destruct stack as [|[start_pos t] stack']; [apply IH; [lia|lia|exact Hbs]|].
    apply IH; [lia|lia|].
    destruct t; first [exact Hbs|apply Hsnoc].
Qed.

Lemma typescript_loop_done source :
  Z.of_nat (length source) < 2 ^ 32 ->
  forall fuel s bs,
    (length s <= fuel)%nat -> (length s <= length source)%nat ->
    Forall (in_source source) bs ->
    exists bs', typescript_loop fuel source s bs = Done bs' /\
                Forall (in_source source) bs'.
Proof.
  intros Hsize. induction fuel as [|fuel IH]; intros s bs Hf Hs Hbs.
  - destruct s; [|cbn in Hf; lia]. exists bs. split; [reflexivity|exact Hbs].
  - destruct s as [|c r]; [exists bs; split; [reflexivity|exact Hbs]|].
    cbn [typescript_loop]. cbn [length] in Hf, Hs.
    assert (Hpos : (length source - length (c :: r) < length source)%nat)
      by (cbn [length]; lia).
    pose proof (fun t n d st =>
      Forall_in_source_snoc source bs _ t n d st Hsize Hpos Hbs) as Hsnoc.
    destruct (regex_search_continuous interface_regex (take 200 (c :: r)))
      as [m|] eqn:Em;
      [apply search_match_length in Em as [Hm _]; [|reflexivity]|clear Em].
    {
      apply IH; [rewrite length_drop; cbn [length]; lia
                |rewrite length_drop; cbn [length]; lia|apply Hsnoc]. }
    destruct (regex_search_continuous enum_regex (take 200 (c :: r)))
      as [m|] eqn:Em;
      [apply search_match_length in Em as [Hm _]; [|reflexivity]|clear Em].
    {
      apply IH; [rewrite length_drop; cbn [length]; lia
                |rewrite length_drop; cbn [length]; lia|apply Hsnoc]. }
    apply IH; [lia|lia|exact Hbs].
Qed.

Lemma sort_insert_Forall (P : SemanticBoundary -> Prop) x l :
  P x -> Forall P l -> Forall P (sort_insert x l).
Proof.
  intros Hx. induction 1 as [|y l Hy Hl IH]; cbn [sort_insert].
  - constructor; [exact Hx|constructor].
  - destruct (byte_offset x <? byte_offset y).
    + constructor; [exact Hx|constructor; assumption].
    + constructor; assumption.
Qed.

Lemma sort_by_offset_Forall (P : SemanticBoundary -> Prop) l :
  Forall P l -> Forall P (sort_by_offset l).
Proof.
  induction 1 as [|x l Hx Hl IH]; cbn; [constructor|].
  apply sort_insert_Forall; assumption.
Qed.

Lemma sort_insert_ascending x l : ascending l -> ascending (sort_insert x l).
Proof.
  unfold ascending. induction 1 as [|y l Hl IH Hy]; cbn [sort_insert].
  - repeat constructor.
  - destruct (byte_offset x <? byte_offset y) eqn:E.
    + apply Z.ltb_lt in E. constructor; [constructor; assumption|].
      constructor. lia.
    + apply Z.ltb_ge in E. constructor; [exact IH|].
      destruct l as [|z l]; cbn [sort_insert].
      * constructor. exact E.
      * destruct (byte_offset x <? byte_offset z); constructor;
          [exact E|]. inversion Hy; assumption.
Qed.

Lemma sort_by_offset_ascending l : ascending (sort_by_offset l).
Proof.
  induction l as [|x l IH]; cbn; [constructor|].
  apply sort_insert_ascending. exact IH.
Qed.

(** X16. Boundary detection always comes to an end, for JavaScript and
    for TypeScript sources alike (sources under 2^31 bytes, so that the
    32-bit offsets and the [int] scope counter do not wrap): every turn of
    the scanning loops moves forward in the source. The boundaries that
    are returned are in ascending order of byte offset and each of them
    points at a byte of the source. *)
Theorem detect_boundaries_sorted_in_source (source : list ascii) :
  Z.of_nat (length source) < 2 ^ 31 ->
  (exists bs, detect_javascript source = Done bs /\
              ascending bs /\ Forall (in_source source) bs) /\
  (exists bs, detect_typescript source = Done bs /\
              ascending bs /\ Forall (in_source source) bs).
Proof.
  intros Hsize31.
  assert (Hsize : Z.of_nat (length source) < 2 ^ 32) by lia.
  destruct (javascript_loop_done source Hsize (length source) source 0 [] [])
    as (js & Ejs & Hjs); [lia|lia|constructor|].
  assert (Hsorted : Forall (in_source source) (sort_by_offset js))
    by (apply sort_by_offset_Forall; exact Hjs).
  destruct (typescript_loop_done source Hsize (length source) source
              (sort_by_offset js)) as (ts & Ets & Hts); [lia|lia|exact Hsorted|].
  unfold detect_typescript, detect_javascript. rewrite Ejs, Ets. split.
  - exists (sort_by_offset js).
    split; [reflexivity|]. split; [apply sort_by_offset_ascending|exact Hsorted].
  - exists (sort_by_offset ts).
    split; [reflexivity|]. split; [apply sort_by_offset_ascending|].
    apply sort_by_offset_Forall. exact Hts.
Qed.

Lemma detect_boundaries_sorted_in_source_witness :
  (exists bs,
     detect_javascript (str "class A { go() { return 1; } }") = Done bs /\
     ascending bs /\
     Forall (in_source (str "class A { go() { return 1; } }")) bs) /\
  (exists bs,
     detect_typescript (str "class A { go() { return 1; } }") = Done bs /\
     ascending bs /\
     Forall (in_source (str "class A { go() { return 1; } }")) bs).
Proof.
  apply detect_boundaries_sorted_in_source. vm_compute. reflexivity.
Defined.

End DetectorFacts.

(** ** What [diff] reports *)

Section MerkleDiffSpec.
Import Merkle.

#[local] Abbreviation height_opt nd :=
  (match nd with Some x => height x | None => 0%nat end).

#[local] Abbreviation child_path cur nm :=
  (if String.eqb cur EmptyString then nm%string
   else String.append (String.append cur "/") nm%string).

Lemma insert_keys {V} k (v : V) m x :
  In x (map fst (OrdMap.insert k v m)) <-> x = k \/ In x (map fst m).
Proof.
  induction m as [|[k' v'] m IH]; cbn [OrdMap.insert map fst In].
  - intuition congruence.
  - destruct (String.compare k k') eqn:E; cbn [map fst In].
    + apply String.compare_eq_iff in E. subst k'. intuition congruence.
    + intuition congruence.
    + rewrite IH. intuition congruence.
Qed.

Lemma fold_insert_keys {V} (ch : list (string * V)) acc x :
  In x (map fst (fold_left (fun a kc => OrdMap.insert (fst kc) tt a) ch acc))
  <-> In x (map fst acc) \/ In x (map fst ch).
Proof.
  revert acc. induction ch as [|[k c] ch IH]; intros acc;
    cbn [fold_left map fst In]; [tauto|].
  rewrite IH, insert_keys. intuition congruence.
Qed.

Lemma child_names_keys nd acc x :
  In x (map fst (child_names nd acc)) <->
  In x (map fst acc) \/
  (exists n, nd = Some n /\ In x (map fst (children n))).
Proof.
  destruct nd as [n|]; cbn [child_names].
  - rewrite fold_insert_keys. split.
    + intros [H|H]; [left; exact H|right; exists n; split; [reflexivity|exact H]].
    + intros [H|(n' & [= <-] & H)]; [left; exact H|right; exact H].
  - split; [intros H; left; exact H|].
    intros [H|(n' & Hn & _)]; [exact H|discriminate].
Qed.

Lemma child_in_all_names n1 n2 x :
  child_of n1 x <> None \/ child_of n2 x <> None -> In x (all_names n1 n2).
Proof.
  unfold all_names. rewrite !child_names_keys. cbn [map In].
  intros [H|H].
  - destruct n1 as [n|]; [|contradiction]. cbn [child_of] in H.
    destruct (OrdMap.find x (children n)) as [c|] eqn:E; [|contradiction].
    left. right. exists n. split; [reflexivity|].
    apply find_In in E. apply (in_map fst) in E. exact E.
  - destruct n2 as [n|]; [|contradiction]. cbn [child_of] in H.
    destruct (OrdMap.find x (children n)) as [c|] eqn:E; [|contradiction].
    right. exists n. split; [reflexivity|].
    apply find_In in E. apply (in_map fst) in E. exact E.
Qed.

Lemma find_opt_cons x names nd :
  find_opt (x :: names) nd = find_opt names (child_of nd x).
Proof.
  destruct nd as [n|]; cbn [find_opt find_at child_of]; [|reflexivity].
  destruct (OrdMap.find x (children n)); reflexivity.
Qed.

Lemma find_opt_None names : find_opt names None = None.
Proof. reflexivity. Qed.

Lemma differ_not_both a b : differ a b -> a <> None \/ b <> None.
Proof.
  destruct a, b; cbn [differ]; intros H; try contradiction;
    first [left; discriminate|right; discriminate].
Qed.

Lemma find_opt_from nd names : find_opt names nd <> None -> nd <> None.
Proof. destruct nd; [discriminate|intros H; exact H]. Qed.

Lemma child_height nd x :
  child_of nd x <> None -> (height_opt (child_of nd x) < height_opt nd)%nat.
Proof.
  destruct nd as [n|]; cbn [child_of]; [|contradiction].
  destruct (OrdMap.find x (children n)) as [c|] eqn:E; [|contradiction].
  intros _. apply find_In in E. destruct n as [nm h f ch].
  cbn [children] in E. apply (height_child nm h f ch x c E).
Qed.

Lemma child_height_le nd x fuel :
  (height_opt nd <= S fuel)%nat -> (height_opt (child_of nd x) <= fuel)%nat.
Proof.
  intros H. destruct (child_of nd x) as [c|] eqn:E; [|lia].
  pose proof (child_height nd x) as Hc. rewrite E in Hc.
  specialize (Hc ltac:(discriminate)). lia.
Qed.

#[local] Abbreviation reported cur nd1 nd2 :=
  (fun p : string =>
     p <> EmptyString /\
     exists names, p = join_path_from cur names /\
                   differ (find_opt names nd1) (find_opt names nd2)).

Lemma diff_children_spec rec nd1 nd2 cur names :
  (forall x p acc,
     exists out, rec (child_of nd1 x) (child_of nd2 x) p acc = Done (acc ++ out) /\
                 forall q, In q out <->
                           reported p (child_of nd1 x) (child_of nd2 x) q) ->
  forall acc,
  exists out,
    diff_children rec nd1 nd2 cur names acc = Done (acc ++ out) /\
    forall q, In q out <->
              exists x, In x names /\
                        reported (child_path cur x)
                          (child_of nd1 x) (child_of nd2 x) q.
Proof.
  intros Hrec. induction names as [|x names IH]; intros acc.
  - exists []. split; [cbn [diff_children]; rewrite app_nil_r; reflexivity|].
    intros q. split; [intros []|intros (x & [] & _)].
  - cbn [diff_children].
    destruct (Hrec x (child_path cur x) acc) as (out1 & E1 & H1).
    rewrite E1. destruct (IH (acc ++ out1)) as (out2 & E2 & H2).
    exists (out1 ++ out2). split; [rewrite E2, app_assoc; reflexivity|].
    intros q. rewrite in_app_iff, H1, H2. split.
    + intros [H|(y & Hy & H)].
      * exists x. split; [left; reflexivity|exact H].
      * exists y. split; [right; exact Hy|exact H].
    + intros (y & [<-|Hy] & H); [left; exact H|].
      right. exists y. split; [exact Hy|exact H].
Qed.

Lemma join_path_from_nonempty names cur :
  cur <> EmptyString -> join_path_from cur names <> EmptyString.
Proof.
  revert cur. induction names as [|x names IH]; intros cur Hcur; [exact Hcur|].
  cbn [join_path_from fold_left]. apply IH.
  destruct cur as [|c cur]; [contradiction|]. cbn. discriminate.
Qed.

Lemma collect_diff_spec fuel :
  forall nd1 nd2 cur acc,
    (height_opt nd1 <= fuel)%nat -> (height_opt nd2 <= fuel)%nat ->
    exists out,
      collect_diff fuel nd1 nd2 cur acc = Done (acc ++ out) /\
      forall q, In q out <-> reported cur nd1 nd2 q.
Proof.
  induction fuel as [|fuel IH]; intros nd1 nd2 cur acc H1 H2.
  - destruct nd1 as [[]|]; [cbn [height] in H1; lia|].
    destruct nd2 as [[]|]; [cbn [height] in H2; lia|].
    exists []. split; [cbn; rewrite app_nil_r; reflexivity|].
    intros q. split; [intros []|]. intros (_ & names & _ & H). exact H.
  - destruct (match nd1, nd2 with None, None => true | _, _ => false end)
      eqn:Enull.
    { destruct nd1; [discriminate|]. destruct nd2; [discriminate|].
      exists []. split; [cbn; rewrite app_nil_r; reflexivity|].
      intros q. split; [intros []|]. intros (_ & names & _ & H). exact H. }
    set (differs := match nd1, nd2 with
                    | Some n1, Some n2 => negb (hash n1 =? hash n2)
                    | _, _ => true
                    end).
    set (self := if differs && negb (String.eqb cur EmptyString)
                 then [cur] else []).
    assert (Hstep : collect_diff (S fuel) nd1 nd2 cur acc =
                    diff_children (collect_diff fuel) nd1 nd2 cur
                      (all_names nd1 nd2) (acc ++ self)).
    { subst self differs.
      destruct nd1 as [n1|], nd2 as [n2|]; try discriminate Enull;
        cbn [collect_diff];
        match goal with
        | |- context [if ?b then _ else _] =>
            destruct b; rewrite ?app_nil_r; reflexivity
        end. }
    rewrite Hstep.
    destruct (diff_children_spec (collect_diff fuel) nd1 nd2 cur
                (all_names nd1 nd2)) with (acc := acc ++ self)
      as (out & E & Hout).
    { intros x p a. apply IH; apply child_height_le; assumption. }
    exists (self ++ out). split; [rewrite E, app_assoc; reflexivity|].
    assert (Hdiffers : differs = true <-> differ nd1 nd2).
    { subst differs. destruct nd1 as [n1|], nd2 as [n2|]; cbn [differ];
        try discriminate Enull; try tauto.
      rewrite negb_true_iff, Z.eqb_neq. tauto. }
    intros q. rewrite in_app_iff, Hout. split.
    + intros [Hself|(x & Hx & Hq & names & -> & Hd)].
      * subst self.
        destruct differs eqn:Ed; [|destruct Hself].
        destruct (String.eqb_spec cur EmptyString) as [Hc|Hc];
          [destruct Hself|].
        cbn [andb negb In] in Hself. destruct Hself as [<-|[]].
        split; [exact Hc|]. exists []. split; [reflexivity|].
        cbn [find_opt]. destruct nd1, nd2; apply Hdiffers; reflexivity.
      * split; [exact Hq|]. exists (x :: names).
        split; [reflexivity|]. rewrite !find_opt_cons. exact Hd.
    + intros (Hq & names & -> & Hd). destruct names as [|x names].
      * left. cbn [join_path_from fold_left] in *.
        assert (Hd' : differ nd1 nd2) by (destruct nd1, nd2; exact Hd).
        apply Hdiffers in Hd'. subst self. rewrite Hd'.
        destruct (String.eqb_spec cur EmptyString) as [Hc|Hc];
          [contradiction|]. left. reflexivity.
      * right. exists x. rewrite !find_opt_cons in Hd. split.
        -- apply child_in_all_names.
           destruct (differ_not_both _ _ Hd) as [H|H];
             [left|right]; eapply find_opt_from; exact H.
        -- split; [exact Hq|]. exists names. split; [reflexivity|exact Hd].
Qed.

(** X17. [diff] always returns, and it reports exactly the non-empty
    paths [join_path names] for which following [names] from the two
    roots reaches a node in one tree only, or two nodes with different
    stored hashes. Nothing is cut short under equal hashes, and the
    hashes are compared as they are stored. *)
Theorem diff_reports_differing_nodes (t other : MerkleTree) :
  exists paths,
    diff t other = Done paths /\
    forall p,
      In p paths <->
      p <> EmptyString /\
      exists names,
        p = join_path names /\
        differ (find_at names (root t)) (find_at names (root other)).
Proof.
  unfold diff.
  destruct (collect_diff_spec
              (Nat.max (height (root t)) (height (root other)))
              (Some (root t)) (Some (root other)) EmptyString [])
    as (out & E & H); [lia|lia|].
  exists out. split; [exact E|]. intros p. rewrite H. reflexivity.
Qed.

End MerkleDiffSpec.

(** ** Path components *)

Section SplitPathFacts.
Import Merkle.

Lemma append_nil_r (s : string) : String.append s EmptyString = s.
Proof.
  induction s as [|c s IH]; [reflexivity|].
  change (String c (String.append s EmptyString) = String c s).
  rewrite IH. reflexivity.
Qed.

Lemma append_assoc (a b c : string) :
  String.append (String.append a b) c = String.append a (String.append b c).
Proof.
  induction a as [|x a IH]; [reflexivity|].
  change (String x (String.append (String.append a b) c) =
          String x (String.append a (String.append b c))).
  rewrite IH. reflexivity.
Qed.

Lemma append_empty (a b : string) :
  String.append a b = EmptyString -> a = EmptyString /\ b = EmptyString.
Proof.
  destruct a as [|x a]; [intros H; split; [reflexivity|exact H]|].
  intros H. change (String x (String.append a b) = EmptyString) in H.
  discriminate H.
Qed.

Lemma sep_free_append a b :
  sep_free (String.append a b) = sep_free a && sep_free b.
Proof.
  induction a as [|c a IH]; [reflexivity|].
  change (String.append (String c a) b) with (String c (String.append a b)).
  cbn [sep_free]. rewrite IH, andb_assoc. reflexivity.
Qed.

Lemma split_loop_components path :
  forall component,
    sep_free component = true ->
    Forall (fun n => is_component n = true) (split_loop path component).
Proof.
  induction path as [|c rest IH]; intros component Hc; cbn [split_loop].
  - destruct (String.eqb component EmptyString) eqn:E; constructor;
      [|constructor]. unfold is_component. rewrite E, Hc. reflexivity.
  - destruct (is_sep c) eqn:Es.
    + destruct (String.eqb component EmptyString) eqn:E;
        [apply IH; reflexivity|].
      constructor; [|apply IH; reflexivity].
      unfold is_component. rewrite E, Hc. reflexivity.
    + apply IH. rewrite sep_free_append, Hc. cbn [sep_free].
      rewrite Es. reflexivity.
Qed.

(** A run of bytes without separator goes to the component in hand. *)
Lemma split_loop_run a :
  sep_free a = true ->
  forall rest component,
    split_loop (String.append a rest) component =
    split_loop rest (String.append component a).
Proof.
  induction a as [|c a IH]; intros Ha rest component.
  - change (String.append EmptyString rest) with rest.
    rewrite (append_nil_r component). reflexivity.
  - cbn [sep_free] in Ha. apply andb_true_iff in Ha as [Hc Ha].
    apply negb_true_iff in Hc.
    change (String.append (String c a) rest)
      with (String c (String.append a rest)).
    cbn [split_loop]. rewrite Hc.
    rewrite (IH Ha). rewrite append_assoc. reflexivity.
Qed.

Lemma split_loop_component n :
  is_component n = true -> split_loop n EmptyString = [n].
Proof.
  unfold is_component. intros H. apply andb_true_iff in H as [Hn Hs].
  apply negb_true_iff in Hn.
  rewrite <- (append_nil_r n) at 1. rewrite (split_loop_run n Hs).
  change (String.append EmptyString n) with n.
  cbn [split_loop]. rewrite Hn. reflexivity.
Qed.

Lemma split_loop_snoc n :
  is_component n = true ->
  forall a component,
    split_loop (String.append (String.append a "/") n) component =
    split_loop a component ++ [n].
Proof.
  intros Hn. induction a as [|c a IH]; intros component.
  - change (String.append (String.append EmptyString "/") n)
      with (String "/" n).
    cbn [split_loop]. change (is_sep "/") with true. cbn match.
    rewrite (split_loop_component n Hn).
    destruct (String.eqb component EmptyString); reflexivity.
  - change (String.append (String.append (String c a) "/") n)
      with (String c (String.append (String.append a "/") n)).
    cbn [split_loop]. destruct (is_sep c).
    + destruct (String.eqb component EmptyString); rewrite IH; reflexivity.
    + apply IH.
Qed.

Lemma split_path_join_from names :
  Forall (fun n => is_component n = true) names ->
  forall current,
    current <> EmptyString ->
    split_path (join_path_from current names) = split_path current ++ names.
Proof.
  induction 1 as [|n names Hn Hnames IH]; intros current Hcur.
  - cbn [join_path_from fold_left]. rewrite app_nil_r. reflexivity.
  - cbn [join_path_from fold_left].
    destruct (String.eqb_spec current EmptyString) as [Hc|_]; [contradiction|].
    change (fold_left _ names ?c) with (join_path_from c names).
    rewrite IH.
    + unfold split_path. rewrite (split_loop_snoc n Hn).
      rewrite <- app_assoc. reflexivity.
    + intros H. apply append_empty in H as [H _].
      apply append_empty in H as [H _]. contradiction.
Qed.

Lemma split_path_join names :
  Forall (fun n => is_component n = true) names ->
  split_path (join_path names) = names.
Proof.
  intros H. destruct H as [|n names Hn Hnames]; [reflexivity|].
  unfold join_path. cbn [join_path_from fold_left String.eqb].
  change (fold_left _ names n) with (join_path_from n names).
  rewrite (split_path_join_from names Hnames).
  - unfold split_path. rewrite (split_loop_component n Hn). reflexivity.
  - unfold is_component in Hn. apply andb_true_iff in Hn as [Hn _].
    apply negb_true_iff in Hn. intros ->. discriminate Hn.
Qed.

(** X18. [split_path] cuts a path into components that are not empty and
    hold no separator, whatever the path has of doubled, leading or
    trailing separators of either kind; and components of this kind,
    joined by [/] the way [diff] builds the paths it reports, are cut
    into the same components again. So a path names the node that its
    normal form names. *)
Theorem split_path_components (path : string) (names : list string) :
  Forall (fun n => is_component n = true) (split_path path) /\
  (Forall (fun n => is_component n = true) names ->
   split_path (join_path names) = names) /\
  split_path (join_path (split_path path)) = split_path path.
Proof.
  assert (H : Forall (fun n => is_component n = true) (split_path path))
    by (apply split_loop_components; reflexivity).
  split; [exact H|]. split; [apply split_path_join|].
  apply split_path_join. exact H.
Qed.

Lemma split_path_components_witness :
  Forall (fun n => is_component n = true) (split_path "src//lib\a.ts/") /\
  split_path (join_path ["src"; "lib"; "a.ts"]%string) =
  ["src"; "lib"; "a.ts"]%string /\
  split_path (join_path (split_path "src//lib\a.ts/")) =
  split_path "src//lib\a.ts/".
Proof.
  destruct (split_path_components "src//lib\a.ts/"
              ["src"; "lib"; "a.ts"]%string) as (H1 & H2 & H3).
  split; [exact H1|]. split; [|exact H3].
  apply H2. repeat constructor.
Defined.

End SplitPathFacts.
